(** * slang: the parser base and the hierarchy symbols

    A shallow embedding of [ParserBase] (the error-resilient list recogniser
    [parseSeparatedList] and its recovery primitive [skipBadTokens]) and of
    the elaboration entry points declared in [HierarchySymbols.h].

    The two templates [skipBadTokens] and [parseSeparatedList] are defined
    inline in the header and are embedded from it statement by statement.
    Everything the header only declares ([peek], [consume], [expect],
    [createExpectedToken], [prependTrivia], [addError], the [fromSyntax]
    elaborators) and every type that lives in a header that is not part of
    the sources ([Token], [Trivia], [SyntaxNode], [Diagnostic]) is modelled
    from the specification and marked as such.  The list recogniser is given a
    second time over an arbitrary [expect] (module [OverExpect]), so that what
    it does can be stated apart from what [expect] does. *)

From Stdlib Require Import List Bool Arith Lia ZArith.
From Stdlib Require Import Strings.Byte Strings.String.
Import ListNotations.

Set Implicit Arguments.
Set Warnings "-register-all".

(* ------------------------------------------------------------------ *)
(** ** Lexical data *)

(** Source text is a byte sequence. *)
Definition Text := list byte.

(** A [SourceLocation] is an offset into the source buffer. *)
Definition SourceLocation := nat.

(** Modelled from the spec: [Token.h] is not among the sources.  The source
    names [TokenKind::EndOfFile]; the scenarios of the spec name identifiers,
    commas, parentheses and semicolons; [Other n] stands for the remaining
    enumerators. *)
Module TokenKind.
Inductive t : Set :=
| Unknown
| EndOfFile
| Identifier
| Comma
| Semicolon
| OpenParenthesis
| CloseParenthesis
| Percent
| Other (n : nat).

Definition eq_dec (a b : t) : {a = b} + {a <> b}.
Proof. decide equality. apply Nat.eq_dec. Defined.

Definition eqb (a b : t) : bool := if eq_dec a b then true else false.

Lemma eqb_eq a b : eqb a b = true <-> a = b.
Proof. unfold eqb. destruct (eq_dec a b); split; congruence. Qed.

Lemma eqb_neq a b : eqb a b = false <-> a <> b.
Proof. unfold eqb. destruct (eq_dec a b); split; congruence. Qed.

Lemma eqb_refl a : eqb a a = true.
Proof. now apply eqb_eq. Qed.
End TokenKind.

(** Modelled from the spec: the trivia tags of section 3, plus [Unknown], the
    kind of a default-constructed [Trivia()] that the source tests for. *)
Module TriviaKind.
Inductive t : Set :=
| Unknown
| Whitespace
| LineComment
| BlockComment
| Directive
| SkippedTokens.

Definition eq_dec (a b : t) : {a = b} + {a <> b}.
Proof. decide equality. Defined.
End TriviaKind.

(** Modelled from the spec: a token carries a kind, a location, its text, an
    ordered sequence of leading trivia and the "missing" flag; a trivium is
    either empty ([Trivia()]), a raw text slice, or a run of skipped tokens. *)
Inductive Token : Type :=
| mkToken (kind : TokenKind.t) (loc : SourceLocation) (raw : Text)
          (leading : list Trivia) (missing : bool)
with Trivia : Type :=
| TriviaDefault
| TriviaRaw (k : TriviaKind.t) (raw : Text)
| TriviaSkipped (tokens : list Token).

Definition kind (t : Token) : TokenKind.t :=
  match t with mkToken k _ _ _ _ => k end.
Definition location (t : Token) : SourceLocation :=
  match t with mkToken _ l _ _ _ => l end.
Definition rawText (t : Token) : Text :=
  match t with mkToken _ _ r _ _ => r end.
Definition trivia (t : Token) : list Trivia :=
  match t with mkToken _ _ _ tr _ => tr end.
Definition isMissing (t : Token) : bool :=
  match t with mkToken _ _ _ _ m => m end.

Definition withTrivia (t : Token) (tr : list Trivia) : Token :=
  match t with mkToken k l r _ m => mkToken k l r tr m end.

Definition triviaKind (tr : Trivia) : TriviaKind.t :=
  match tr with
  | TriviaDefault => TriviaKind.Unknown
  | TriviaRaw k _ => k
  | TriviaSkipped _ => TriviaKind.SkippedTokens
  end.

(** [trivia->kind != TriviaKind::Unknown] *)
Definition triviaPresent (tr : Trivia) : bool :=
  if TriviaKind.eq_dec (triviaKind tr) TriviaKind.Unknown then false else true.

(** The text a token stands for: its leading trivia, then its own text.  With
    [writeMissing = true] every token is written in full.  With
    [writeMissing = false] a token flagged as missing writes neither text nor
    the plain trivia it carries; the tokens skipped in front of it, which it
    holds as [SkippedTokens] trivia, are still written. *)
Fixpoint tokenText (writeMissing : bool) (t : Token) {struct t} : Text :=
  match t with
  | mkToken _ _ r tr m =>
      (fix each (l : list Trivia) : Text :=
         match l with
         | [] => []
         | x :: rest =>
             (if m && negb writeMissing then
                match x with
                | TriviaSkipped _ => triviaText writeMissing x
                | _ => []
                end
              else triviaText writeMissing x) ++ each rest
         end) tr
      ++ (if m && negb writeMissing then [] else r)
  end
with triviaText (writeMissing : bool) (tr : Trivia) {struct tr} : Text :=
  match tr with
  | TriviaDefault => []
  | TriviaRaw _ r => r
  | TriviaSkipped ts =>
      (fix each (l : list Token) : Text :=
         match l with
         | [] => []
         | x :: rest => tokenText writeMissing x ++ each rest
         end) ts
  end.

Definition tokensText (b : bool) (ts : list Token) : Text :=
  flat_map (tokenText b) ts.

(* ------------------------------------------------------------------ *)
(** ** Syntax tree *)

(** Modelled from the spec: [SyntaxNode.h] is not among the sources.  A node
    has a discriminator and child edges that are tokens or nodes; the tagged
    union is the element type of the separated-list buffers. *)
Definition SyntaxKind := nat.

Inductive SyntaxNode : Type :=
| mkNode (k : SyntaxKind) (children : list TokenOrSyntax)
with TokenOrSyntax : Type :=
| TokenElem (token : Token)
| NodeElem (node : SyntaxNode).

(** Post-order walk writing every token. *)
Fixpoint nodeText (b : bool) (n : SyntaxNode) {struct n} : Text :=
  match n with
  | mkNode _ cs => flat_map (elemText b) cs
  end
with elemText (b : bool) (c : TokenOrSyntax) {struct c} : Text :=
  match c with
  | TokenElem t => tokenText b t
  | NodeElem m => nodeText b m
  end.

Definition bufferText (b : bool) (buf : list TokenOrSyntax) : Text :=
  flat_map (elemText b) buf.

(** Modelled from the spec: [prependTrivia] on a node works on its left-most
    descendant token.  [replaceFirstToken] rewrites that token and returns
    [None] when the node holds no token at all. *)
Fixpoint replaceFirstToken (f : Token -> Token) (n : SyntaxNode) {struct n}
  : option SyntaxNode :=
  match n with
  | mkNode k cs =>
      option_map (mkNode k)
        ((fix scan (l : list TokenOrSyntax) : option (list TokenOrSyntax) :=
            match l with
            | [] => None
            | TokenElem t :: rest => Some (TokenElem (f t) :: rest)
            | NodeElem m :: rest =>
                match replaceFirstToken f m with
                | Some m' => Some (NodeElem m' :: rest)
                | None => option_map (cons (NodeElem m)) (scan rest)
                end
            end) cs)
  end.

(** The scan of the children that [replaceFirstToken] performs. *)
Fixpoint replaceFirstIn (f : Token -> Token) (l : list TokenOrSyntax)
  : option (list TokenOrSyntax) :=
  match l with
  | [] => None
  | TokenElem t :: rest => Some (TokenElem (f t) :: rest)
  | NodeElem m :: rest =>
      match replaceFirstToken f m with
      | Some m' => Some (NodeElem m' :: rest)
      | None => option_map (cons (NodeElem m)) (replaceFirstIn f rest)
      end
  end.

Definition hasToken (n : SyntaxNode) : bool :=
  match replaceFirstToken (fun t => t) n with Some _ => true | None => false end.

(* ------------------------------------------------------------------ *)
(** ** Diagnostics *)

(** Modelled from the spec: [Diagnostics.h] is not among the sources.  The
    sink is an append-only collection of [{code, location, arguments}]. *)
Module DiagCode.
Inductive t : Set :=
| ExpectedToken
| Other (n : nat).

Definition eq_dec (a b : t) : {a = b} + {a <> b}.
Proof. decide equality. apply Nat.eq_dec. Defined.
End DiagCode.

Record Diagnostic : Type := mkDiagnostic {
  code : DiagCode.t;
  diagLocation : SourceLocation;
  args : list TokenKind.t
}.

(* ------------------------------------------------------------------ *)
(** ** Parser state and the parsing monad *)

(** Modelled from the spec: the header declares the [Window] class but not
    the bodies of [addNew] and [moveToNext].  The window is a cache over a
    forward-only token source; what matters to the recognisers is the sequence
    of tokens not yet consumed, the last consumed token and the diagnostics
    raised so far.  The source ends with a token of kind [EndOfFile]; once it
    is exhausted it keeps yielding an empty end-of-file token. *)
Record ParserBase : Type := mkParser {
  window : list Token;
  lastConsumed : option Token;
  diagnostics : list Diagnostic
}.

(** Modelled from the spec: what the exhausted source yields. *)
Definition endOfFileToken : Token :=
  mkToken TokenKind.EndOfFile 0 [] [] false.

(** A computation over the parser state.  [None] is reserved for loops that
    exhaust their iteration budget. *)
Definition Parse (A : Type) : Type := ParserBase -> option (A * ParserBase).

Definition ret {A} (a : A) : Parse A := fun p => Some (a, p).

Definition bind {A B} (m : Parse A) (f : A -> Parse B) : Parse B :=
  fun p => match m p with
           | Some (a, p') => f a p'
           | None => None
           end.

Definition diverge {A} : Parse A := fun _ => None.

Declare Scope parse_scope.
Delimit Scope parse_scope with parse.
Notation "x <- m ;; k" := (bind m (fun x => k))
  (at level 61, m at next level, right associativity) : parse_scope.
Notation "' pat <- m ;; k" := (bind m (fun x => match x with pat => k end))
  (at level 61, pat pattern, m at next level, right associativity) : parse_scope.
Notation "m ;; k" := (bind m (fun _ => k))
  (at level 61, right associativity) : parse_scope.
Open Scope parse_scope.

(** Modelled from the spec: [peek()] returns the current token without
    consuming it. *)
Definition currentToken (p : ParserBase) : Token :=
  match window p with
  | [] => endOfFileToken
  | t :: _ => t
  end.

Definition peek : Parse Token := fun p => Some (currentToken p, p).

(** Modelled from the spec: [consume()] returns and advances past the current
    token and records it as [lastConsumed]. *)
Definition consume : Parse Token := fun p =>
  let t := currentToken p in
  Some (t, mkParser (tl (window p)) (Some t) (diagnostics p)).

(** Modelled from the spec: [addError(code, loc)] appends one record to the
    sink; the caller may attach arguments to it. *)
Definition addError (c : DiagCode.t) (l : SourceLocation) (a : list TokenKind.t)
  : Parse unit := fun p =>
  Some (tt, mkParser (window p) (lastConsumed p)
                     (diagnostics p ++ [mkDiagnostic c l a])).

(** Modelled from the spec: the missing token is a synthetic token of the
    expected kind with empty text, flagged as missing, carrying the trivia of
    the actual token; the "expected X" diagnostic is raised at the current
    location. *)
Definition createExpectedToken (actual : Token) (expected : TokenKind.t)
  : Parse Token :=
  addError DiagCode.ExpectedToken (location actual) [expected] ;;
  ret (mkToken expected (location actual) [] (trivia actual) true).

(** Modelled from the spec: [expect(kind)] consumes a matching token and
    otherwise returns a missing token, leaving the window where it is. *)
Definition expect (k : TokenKind.t) : Parse Token :=
  result <- peek ;;
  if TokenKind.eqb (kind result) k then consume
  else createExpectedToken result k.

(** Modelled from the spec: [prependTrivia(Token, Trivia* )] inserts the
    trivium before the token's leading trivia, does nothing when the trivium is
    empty, and clears the caller's slot. *)
Definition prependTrivia (token : Token) (tr : Trivia) : Token * Trivia :=
  (if triviaPresent tr then withTrivia token (tr :: trivia token) else token,
   TriviaDefault).

(** Modelled from the spec: [prependTrivia(SyntaxNode*, Trivia* )] does the
    same on the left-most descendant token of the node. *)
Definition prependTriviaNode (node : SyntaxNode) (tr : Trivia)
  : SyntaxNode * Trivia :=
  (if triviaPresent tr then
     match replaceFirstToken (fun t => fst (prependTrivia t tr)) node with
     | Some node' => node'
     | None => node
     end
   else node,
   TriviaDefault).

(** The inline template [prependTrivia(ArrayRef<T*> list, Trivia* trivia)] of
    the header: the trivium goes to the first node of a non-empty list; in
    every other case nothing is called and the slot is left as it is. *)
Definition prependTriviaList (nodes : list SyntaxNode) (tr : Trivia)
  : list SyntaxNode * Trivia :=
  match nodes with
  | first :: rest =>
      if triviaPresent tr then
        let '(first', tr') := prependTriviaNode first tr in
        (first' :: rest, tr')
      else (nodes, tr)
  | [] => (nodes, tr)
  end.

(** [enum class SkipAction] *)
Inductive SkipAction : Set := Continue | Abort.

(** How one pass through the body of a [while (true)] loop ends: with [break],
    or by reaching the end of the body (or [continue]). *)
Inductive LoopControl (A : Type) : Type :=
| Break (out : A)
| Next (state : A).
Arguments Break {A} out.
Arguments Next {A} state.

(* ------------------------------------------------------------------ *)
(** ** The recovery primitives of the header *)

Section SkipBadTokens.

(** The template parameters. *)
Variable IsExpected : TokenKind.t -> bool.
Variable IsAbort : TokenKind.t -> bool.

(** The [while (!IsExpected(current.kind))] loop of [skipBadTokens]; the
    locals [tokens], [result], [current] and [error] are threaded through.
    One unit of [fuel] is spent per evaluation of the loop condition. *)
Fixpoint skipLoop (fuel : nat) (c : DiagCode.t) (tokens : list Token)
         (current : Token) (error : bool) {struct fuel}
  : Parse (SkipAction * list Token) :=
  match fuel with
  | O => diverge
  | S fuel' =>
      if negb (IsExpected (kind current)) then
        (if negb error then addError c (location current) [] else ret tt) ;;
        if TokenKind.eqb (kind current) TokenKind.EndOfFile
           || IsAbort (kind current)
        then ret (Abort, tokens)
        else
          t <- consume ;;
          current' <- peek ;;
          skipLoop fuel' c (tokens ++ [t]) current' true
      else ret (Continue, tokens)
  end.

(** [template<IsExpected, IsAbort> SkipAction skipBadTokens(Trivia*, DiagCode)].
    The out-parameter [*skippedTokens] is returned next to the action.  The
    loop consumes one token per iteration, so the length of the window plus
    two bounds the number of condition tests. *)
Definition skipBadTokens (c : DiagCode.t) : Parse (SkipAction * Trivia) :=
  fun p =>
    (current <- peek ;;
     '(result, tokens) <- skipLoop (S (S (List.length (window p)))) c [] current false ;;
     match tokens with
     | [] => ret (result, TriviaDefault)
     | _ :: _ => ret (result, TriviaSkipped tokens)
     end) p.

End SkipBadTokens.

Section ParseSeparatedList.

(** The template parameters: the two predicates and the item parser, a
    callable that runs on the parser and returns the parsed node. *)
Variable IsExpected : TokenKind.t -> bool.
Variable IsEnd : TokenKind.t -> bool.
Variable parseItem : bool -> Parse SyntaxNode.

Variable closeKind : TokenKind.t.
Variable separatorKind : TokenKind.t.
Variable c : DiagCode.t.

(** One pass through the body of the inner [while (true)] loop.  The
    locals [buffer] and [skippedTokens] are threaded through.
    [skipBadTokens] assigns its out-parameter, so the previous value of
    [skippedTokens] is overwritten by what it returns. *)
Definition separatorBody (buffer : list TokenOrSyntax) (skippedTokens : Trivia)
  : Parse (LoopControl (list TokenOrSyntax * Trivia)) :=
  current <- peek ;;
  if IsEnd (kind current) then ret (Break (buffer, skippedTokens))
  else if IsExpected (kind current) then
    sep <- expect separatorKind ;;
    let '(sep', skippedTokens) := prependTrivia sep skippedTokens in
    item <- parseItem false ;;
    let '(item', skippedTokens) := prependTriviaNode item skippedTokens in
    ret (Next (buffer ++ [TokenElem sep'; NodeElem item'], skippedTokens))
  else
    '(action, skippedTokens) <- skipBadTokens IsExpected IsEnd c ;;
    match action with
    | Abort => ret (Break (buffer, skippedTokens))
    | Continue => ret (Next (buffer, skippedTokens))
    end.

(** The inner loop, entered after the first item. *)
Fixpoint separatorLoop (fuel : nat) (buffer : list TokenOrSyntax)
         (skippedTokens : Trivia) {struct fuel}
  : Parse (list TokenOrSyntax * Trivia) :=
  match fuel with
  | O => diverge
  | S fuel' =>
      r <- separatorBody buffer skippedTokens ;;
      match r with
      | Break out => ret out
      | Next (buffer', skippedTokens') =>
          separatorLoop fuel' buffer' skippedTokens'
      end
  end.

(** One pass through the body of the outer [while (true)] loop.  The inner
    loop runs inside the first branch, on what is left of the budget. *)
Definition itemBody (fuel : nat) (current : Token)
           (buffer : list TokenOrSyntax) (skippedTokens : Trivia)
  : Parse (LoopControl (Token * list TokenOrSyntax * Trivia)) :=
  if IsExpected (kind current) then
    item <- parseItem true ;;
    let '(item', skippedTokens) := prependTriviaNode item skippedTokens in
    '(buffer', skippedTokens') <-
      separatorLoop fuel (buffer ++ [NodeElem item']) skippedTokens ;;
    ret (Break (current, buffer', skippedTokens'))
  else
    '(action, skippedTokens) <- skipBadTokens IsExpected IsEnd c ;;
    match action with
    | Abort => ret (Break (current, buffer, skippedTokens))
    | Continue =>
        current' <- peek ;;
        ret (Next (current', buffer, skippedTokens))
    end.

(** The outer loop, entered when the first token is not an end token. *)
Fixpoint itemLoop (fuel : nat) (current : Token) (buffer : list TokenOrSyntax)
         (skippedTokens : Trivia) {struct fuel}
  : Parse (list TokenOrSyntax * Trivia) :=
  match fuel with
  | O => diverge
  | S fuel' =>
      r <- itemBody fuel' current buffer skippedTokens ;;
      match r with
      | Break (_, buffer', skippedTokens') => ret (buffer', skippedTokens')
      | Next (current', buffer', skippedTokens') =>
          itemLoop fuel' current' buffer' skippedTokens'
      end
  end.

(** The overload that fills a caller-supplied [Buffer<TokenOrSyntax>&];
    it returns the buffer and the close token. *)
Definition parseSeparatedListBuffer (fuel : nat) (buffer : list TokenOrSyntax)
  : Parse (list TokenOrSyntax * Token) :=
  let skippedTokens := TriviaDefault in
  current <- peek ;;
  '(buffer, skippedTokens) <-
    (if negb (IsEnd (kind current))
     then itemLoop fuel current buffer skippedTokens
     else ret (buffer, skippedTokens)) ;;
  closeToken <- expect closeKind ;;
  ret (buffer, fst (prependTrivia closeToken skippedTokens)).

(** The overload with the bookend tokens: [openToken], [list] and
    [closeToken] are the three out-parameters.  The scratch buffer taken from
    [tosPool] starts empty. *)
Definition parseSeparatedList (fuel : nat) (openKind : TokenKind.t)
  : Parse (Token * list TokenOrSyntax * Token) :=
  openToken <- expect openKind ;;
  '(list, closeToken) <- parseSeparatedListBuffer fuel [] ;;
  ret (openToken, list, closeToken).

End ParseSeparatedList.


(* ------------------------------------------------------------------ *)
(** ** Vocabulary of the statements *)

Section RecoveryVocabulary.

Variable IsExpected : TokenKind.t -> bool.
Variable IsAbort : TokenKind.t -> bool.

(** A token the loop of [skipBadTokens] consumes: not expected, not the end
    of the file and not an abort token. *)
Definition skippable (k : TokenKind.t) : bool :=
  negb (IsExpected k)
  && negb (TokenKind.eqb k TokenKind.EndOfFile || IsAbort k).

(** The accumulator of [parseSeparatedList] is empty, or holds one run of
    skipped tokens that the very next step attaches: the current token is
    then one that begins an item. *)
Definition slotReady (skippedTokens : Trivia) (p : ParserBase) : Prop :=
  skippedTokens = TriviaDefault
  \/ (exists run, run <> [] /\ skippedTokens = TriviaSkipped run)
     /\ IsExpected (kind (currentToken p)) = true.

End RecoveryVocabulary.

(** What [skipBadTokens] assigns to [*skippedTokens] after consuming [tokens]. *)
Definition skippedTrivia (tokens : list Token) : Trivia :=
  match tokens with
  | [] => TriviaDefault
  | _ :: _ => TriviaSkipped tokens
  end.

(** The accumulator holds nothing, or exactly one [SkippedTokens] trivium. *)
Definition singleSlot (skippedTokens : Trivia) : Prop :=
  skippedTokens = TriviaDefault
  \/ exists run, run <> [] /\ skippedTokens = TriviaSkipped run.

Definition lastOf (tokens : list Token) (d : option Token) : option Token :=
  last (map Some tokens) d.

(** A token as the token source yields it: it is not flagged as missing and
    none of its leading trivia is a [SkippedTokens] trivium, which only the
    parser creates. *)
Definition lexed (t : Token) : Prop :=
  isMissing t = false
  /\ Forall (fun tr => triviaKind tr <> TriviaKind.SkippedTokens) (trivia t).

(** The source text still ahead of the parser. *)
Definition pendingText (b : bool) (p : ParserBase) : Text :=
  tokensText b (window p).

(* ------------------------------------------------------------------ *)
(** ** A small list production used to run the recognisers *)

Definition textOf (s : string) : Text := list_byte_of_string s.

(** A token at offset [l] with text [s], preceded by the white space [ws]. *)
Definition lexeme (k : TokenKind.t) (l : nat) (ws s : string) : Token :=
  mkToken k l (textOf s)
    (match ws with
     | EmptyString => []
     | _ => [TriviaRaw TriviaKind.Whitespace (textOf ws)]
     end) false.

Definition isIdentifierOrComma (k : TokenKind.t) : bool :=
  match k with
  | TokenKind.Identifier | TokenKind.Comma => true
  | _ => false
  end.

Definition isEndOfParenList (k : TokenKind.t) : bool :=
  match k with
  | TokenKind.CloseParenthesis | TokenKind.Semicolon => true
  | _ => false
  end.

(** An item parser: a name node holding one identifier token. *)
Definition parseName (first : bool) : Parse SyntaxNode :=
  t <- expect TokenKind.Identifier ;;
  ret (mkNode 1 [TokenElem t]).

Definition parseNameList (fuel : nat)
  : Parse (Token * list TokenOrSyntax * Token) :=
  parseSeparatedList isIdentifierOrComma isEndOfParenList parseName
    TokenKind.CloseParenthesis TokenKind.Comma (DiagCode.Other 7)
    fuel TokenKind.OpenParenthesis.

Definition startOn (tokens : list Token) : ParserBase :=
  mkParser tokens None [].

(** [( a b )] written ["(a b)"] : the separator is missing. *)
Definition source_a_b : list Token :=
  [ lexeme TokenKind.OpenParenthesis 0 "" "(";
    lexeme TokenKind.Identifier 1 "" "a";
    lexeme TokenKind.Identifier 3 " " "b";
    lexeme TokenKind.CloseParenthesis 4 "" ")";
    lexeme TokenKind.EndOfFile 5 "" "" ].

(** ["(a, %, b)"] *)
Definition source_bad_token : list Token :=
  [ lexeme TokenKind.OpenParenthesis 0 "" "(";
    lexeme TokenKind.Identifier 1 "" "a";
    lexeme TokenKind.Comma 2 "" ",";
    lexeme TokenKind.Percent 4 " " "%";
    lexeme TokenKind.Comma 5 "" ",";
    lexeme TokenKind.Identifier 7 " " "b";
    lexeme TokenKind.CloseParenthesis 8 "" ")";
    lexeme TokenKind.EndOfFile 9 "" "" ].

(** ["()"] *)
Definition source_empty : list Token :=
  [ lexeme TokenKind.OpenParenthesis 0 "" "(";
    lexeme TokenKind.CloseParenthesis 1 "" ")";
    lexeme TokenKind.EndOfFile 2 "" "" ].

(** ["(;"] : the list is ended by a semicolon instead of its close token. *)
Definition source_open_semicolon : list Token :=
  [ lexeme TokenKind.OpenParenthesis 0 "" "(";
    lexeme TokenKind.Semicolon 1 "" ";";
    lexeme TokenKind.EndOfFile 2 "" "" ].

(** ["% % b"] *)
Definition source_percent_run : list Token :=
  [ lexeme TokenKind.Percent 0 "" "%";
    lexeme TokenKind.Percent 2 " " "%";
    lexeme TokenKind.Identifier 4 " " "b";
    lexeme TokenKind.EndOfFile 5 "" "" ].

(* ------------------------------------------------------------------ *)
(** ** Hierarchy symbols *)

(** The discriminator of [Symbol]; the enumerators are those the classes of
    [HierarchySymbols.h] pass to the [Symbol] constructor, and [ParameterKind]
    for the implicit parameter of a generate block. *)
Module SymbolKind.
Inductive t : Set :=
| CompilationUnit
| Package
| ModuleInstance
| InterfaceInstance
| SequentialBlock
| ProceduralBlock
| GenerateBlock
| GenerateBlockArray
| Root
| ParameterKind.

Definition eq_dec (a b : t) : {a = b} + {a <> b}.
Proof. decide equality. Defined.

Definition eqb (a b : t) : bool := if eq_dec a b then true else false.
End SymbolKind.

(** Modelled from the spec: [binding/ConstantValue.h] is not among the
    sources.  A constant is an integer, or the result of a failed evaluation. *)
Inductive ConstantValue : Set :=
| BadValue
| IntegerValue (z : Z).

(** Modelled from the spec: [symbols/Symbol.h] is not among the sources.  The
    base class carries [kind], [name] and [location], as the constructor calls
    [Symbol(kind, name, loc)] of the header show. *)
Record Symbol : Set := mkSymbol {
  symbolKind : SymbolKind.t;
  name : string;
  symbolLocation : SourceLocation
}.

(** Modelled from the spec: the members of a scope that the elaborators of
    this file create: a parameter bound to a constant, an instance of a
    definition, and a nested generate block. *)
Inductive Member : Set :=
| ParameterMember (base : Symbol) (isLocal : bool) (value : ConstantValue)
| InstanceMember (base : Symbol) (definition : string)
| BlockMember (base : Symbol) (members : list Member).

(** Modelled from the spec: a scope holds an ordered list of members and has
    one parent; [addMember] appends. *)
Inductive Scope : Set :=
| mkScope (members : list Member) (parent : option Scope).

Definition scopeMembers (s : Scope) : list Member :=
  match s with mkScope ms _ => ms end.

Definition addMember (s : Scope) (m : Member) : Scope :=
  match s with mkScope ms parent => mkScope (ms ++ [m]) parent end.

(** Modelled from the spec: a position within a scope. *)
Definition LookupLocation := nat.

(** Modelled from the spec: the binder is an external collaborator; the one
    operation used here evaluates a constant expression against a scope and a
    location. *)
Class Binder (Expr : Type) : Type := {
  evaluateConstant : Expr -> LookupLocation -> Scope -> ConstantValue
}.

(** Modelled from the spec: the syntax nodes the elaborators read. *)
Record HierarchyInstantiationSyntax : Set := mkInstantiation {
  definitionName : string;
  instanceNames : list (string * SourceLocation)
}.

Record GenerateBlockSyntax : Set := mkGenerateBlockSyntax {
  blockLabel : option string;
  blockLocation : SourceLocation;
  blockItems : list HierarchyInstantiationSyntax
}.

Record IfGenerateSyntax (Expr : Type) : Type := mkIfGenerate {
  condition : Expr;
  thenBlock : GenerateBlockSyntax;
  elseClause : option GenerateBlockSyntax
}.

Record LoopGenerateSyntax (Expr : Type) : Type := mkLoopGenerate {
  identifier : string;
  identifierLocation : SourceLocation;
  initialExpr : Expr;
  stopExpr : Expr;
  iterationExpr : Expr;
  loopBlock : GenerateBlockSyntax
}.

Record BlockStatementSyntax (Statement : Type) : Type := mkBlockStatement {
  label : option string;
  beginLocation : SourceLocation;
  items : list Statement
}.

(** Modelled from the spec: a block is named after its label or is anonymous. *)
Definition labelName (l : option string) : string :=
  match l with
  | Some n => n
  | None => EmptyString
  end.

(** Modelled from the spec: one instance member per instance name. *)
Definition instancesOf (s : HierarchyInstantiationSyntax) : list Member :=
  map (fun i => InstanceMember
                  (mkSymbol SymbolKind.ModuleInstance (fst i) (snd i))
                  (definitionName s))
      (instanceNames s).

Module SequentialBlockSymbol.
(** [class SequentialBlockSymbol : public Symbol, public StatementBodiedScope];
    [StatementBodiedScope.h] is not among the sources and is modelled from the
    spec:
    the statement-bodied scope owns the members and one statement tree. *)
Record t (Statement : Type) : Type := mk {
  base : Symbol;
  members : list Member;
  body : option (list Statement)
}.
Arguments mk {Statement} base members body.

(** The constructor of the header:
    [Symbol(SymbolKind::SequentialBlock, "", loc), StatementBodiedScope(compilation, this)]. *)
Definition make {Statement} (loc : SourceLocation) : t Statement :=
  mk (mkSymbol SymbolKind.SequentialBlock EmptyString loc) [] None.

Definition isKind (k : SymbolKind.t) : bool :=
  SymbolKind.eqb k SymbolKind.SequentialBlock.

(** Modelled from the spec: the header only declares [fromSyntax].  The name
    is taken from the optional label and the statement tree is stored on the
    statement-bodied scope. *)
Definition fromSyntax {Statement} (syntax : BlockStatementSyntax Statement)
  : t Statement :=
  let result : t Statement := make (beginLocation syntax) in
  mk (mkSymbol (symbolKind (base result)) (labelName (label syntax))
               (symbolLocation (base result)))
     (members result)
     (Some (items syntax)).
End SequentialBlockSymbol.

Module GenerateBlockSymbol.
(** [class GenerateBlockSymbol : public Symbol, public Scope] *)
Record t : Set := mk {
  base : Symbol;
  members : list Member
}.

(** The constructor of the header:
    [Symbol(SymbolKind::GenerateBlock, name, loc), Scope(compilation, this)]. *)
Definition make (name : string) (loc : SourceLocation) : t :=
  mk (mkSymbol SymbolKind.GenerateBlock name loc) [].

Definition isKind (k : SymbolKind.t) : bool :=
  SymbolKind.eqb k SymbolKind.GenerateBlock.

(** Modelled from the spec: the block of one branch, named after its label or
    anonymous, holding
    the members of the branch after [extra]. *)
Definition ofBlock (extra : list Member) (syntax : GenerateBlockSyntax) : t :=
  let result := make (labelName (blockLabel syntax)) (blockLocation syntax) in
  mk (base result)
     (members result ++ extra ++ flat_map instancesOf (blockItems syntax)).

(** Modelled from the spec: the truth of a constant guard. *)
Definition isTrue (v : ConstantValue) : bool :=
  match v with
  | IntegerValue z => negb (Z.eqb z 0)
  | BadValue => false
  end.

(** Modelled from the spec: the header only declares [fromSyntax], with the
    remark that it can return null if the condition is false and there is
    no else block.  [None] is the null result; it is also the result when
    the guard cannot be evaluated. *)
Definition fromSyntax {Expr} `{Binder Expr} (syntax : IfGenerateSyntax Expr)
           (location : LookupLocation) (parent : Scope) : option t :=
  match evaluateConstant (condition syntax) location parent with
  | BadValue => None
  | IntegerValue z =>
      if negb (Z.eqb z 0) then Some (ofBlock [] (thenBlock syntax))
      else match elseClause syntax with
           | Some block => Some (ofBlock [] block)
           | None => None
           end
  end.

Definition asMember (b : t) : Member := BlockMember (base b) (members b).
End GenerateBlockSymbol.

(** Modelled from the spec: the enclosing scope elaborates an if-generate
    member by calling the elaborator and adding what it returns, if anything. *)
Definition addIfGenerate {Expr} `{Binder Expr} (parent : Scope)
           (syntax : IfGenerateSyntax Expr) (location : LookupLocation) : Scope :=
  match GenerateBlockSymbol.fromSyntax syntax location parent with
  | Some block => addMember parent (GenerateBlockSymbol.asMember block)
  | None => parent
  end.

Module GenerateBlockArraySymbol.
(** [class GenerateBlockArraySymbol : public Symbol, public Scope]; its
    members are the generate blocks of the iterations. *)
Record t : Set := mk {
  base : Symbol;
  members : list GenerateBlockSymbol.t
}.

(** The constructor of the header:
    [Symbol(SymbolKind::GenerateBlockArray, name, loc), Scope(compilation, this)]. *)
Definition make (name : string) (loc : SourceLocation) : t :=
  mk (mkSymbol SymbolKind.GenerateBlockArray name loc) [].

Definition isKind (k : SymbolKind.t) : bool :=
  SymbolKind.eqb k SymbolKind.GenerateBlockArray.

(** Modelled from the spec: the two ways elaboration of a loop generate fails
    (section 7). *)
Inductive ElaborationError : Set :=
| ConstantEvaluationFailure
| IterationCapExceeded.

Section FromSyntax.

Context {Expr : Type} `{Binder Expr}.

(** Modelled from the spec: the implementation-defined iteration cap. *)
Variable maxIterations : nat.

Variable syntax : LoopGenerateSyntax Expr.
Variable location : LookupLocation.
Variable parent : Scope.

(** Modelled from the spec: the implicit parameter of one iteration, named
    after the genvar and
    bound to the value of that iteration. *)
Definition implicitParameter (value : Z) : Member :=
  ParameterMember
    (mkSymbol SymbolKind.ParameterKind (identifier syntax)
              (identifierLocation syntax))
    true (IntegerValue value).

(** Modelled from the spec: the scope in which the condition and the step
    are evaluated, the
    genvar with its current value, inside the parent scope. *)
Definition iterationScope (value : Z) : Scope :=
  mkScope [implicitParameter value] (Some parent).

(** Modelled from the spec: the generate block of one iteration. *)
Definition blockOfIteration (value : Z) : GenerateBlockSymbol.t :=
  GenerateBlockSymbol.ofBlock [implicitParameter value] (loopBlock syntax).

(** Modelled from the spec: the loop tests the condition, creates the block of
    this iteration and
    evaluate the step.  [budget] is what is left of the cap. *)
Fixpoint iterate (budget : nat) (genvar : Z) {struct budget}
  : ElaborationError + list GenerateBlockSymbol.t :=
  match evaluateConstant (stopExpr syntax) location (iterationScope genvar) with
  | BadValue => inl ConstantEvaluationFailure
  | IntegerValue z =>
      if Z.eqb z 0 then inr []
      else
        match budget with
        | O => inl IterationCapExceeded
        | S budget' =>
            match evaluateConstant (iterationExpr syntax) location
                                   (iterationScope genvar) with
            | BadValue => inl ConstantEvaluationFailure
            | IntegerValue next =>
                match iterate budget' next with
                | inl e => inl e
                | inr blocks => inr (blockOfIteration genvar :: blocks)
                end
            end
        end
  end.

(** Modelled from the spec: the header only declares [fromSyntax].  A
    failure publishes no array. *)
Definition fromSyntax : ElaborationError + t :=
  match evaluateConstant (initialExpr syntax) location parent with
  | BadValue => inl ConstantEvaluationFailure
  | IntegerValue initial =>
      match iterate maxIterations initial with
      | inl e => inl e
      | inr blocks =>
          inr (mk (base (make (labelName (blockLabel (loopBlock syntax)))
                              (blockLocation (loopBlock syntax))))
                  blocks)
      end
  end.

(** The condition holds at [value] and the step leads to [next]. *)
Definition stepsTo (value next : Z) : Prop :=
  GenerateBlockSymbol.isTrue
    (evaluateConstant (stopExpr syntax) location (iterationScope value)) = true
  /\ evaluateConstant (iterationExpr syntax) location (iterationScope value)
     = IntegerValue next.

(** The condition is false at [value]. *)
Definition stopsAt (value : Z) : Prop :=
  evaluateConstant (stopExpr syntax) location (iterationScope value)
  = IntegerValue 0.

(** [values] are the successive genvar values of a loop that starts at
    [value] and ends: the condition holds at each of them and is false at
    the value that follows the last. *)
Inductive Unrolls : Z -> list Z -> Prop :=
| unrolls_stop value : stopsAt value -> Unrolls value []
| unrolls_step value next values :
    stepsTo value next -> Unrolls next values ->
    Unrolls value (value :: values).

(** The loop runs for at least [n] iterations from [value]. *)
Inductive Runs : nat -> Z -> Prop :=
| runs_test value :
    GenerateBlockSymbol.isTrue
      (evaluateConstant (stopExpr syntax) location (iterationScope value)) = true ->
    Runs 0 value
| runs_step n value next :
    stepsTo value next -> Runs n next -> Runs (S n) value.

End FromSyntax.
End GenerateBlockArraySymbol.

(** A block exposes an implicit parameter named [n] bound to [v]. *)
Definition exposesParameter (b : GenerateBlockSymbol.t) (n : string) (v : Z)
  : Prop :=
  exists loc,
    In (ParameterMember (mkSymbol SymbolKind.ParameterKind n loc) true
                        (IntegerValue v))
       (GenerateBlockSymbol.members b).

(* ------------------------------------------------------------------ *)
(** ** A small binder used to run the elaborators *)

Inductive Expression : Set :=
| Literal (z : Z)
| NamedValue (n : string)
| LessThan (a b : Expression)
| Add (a b : Expression).

Definition parameterValue (n : string) (m : Member) : option ConstantValue :=
  match m with
  | ParameterMember base _ v => if String.eqb (name base) n then Some v else None
  | _ => None
  end.

Fixpoint lookupValue (n : string) (s : Scope) {struct s} : ConstantValue :=
  match s with
  | mkScope ms parent =>
      match flat_map (fun m => match parameterValue n m with
                               | Some v => [v]
                               | None => []
                               end) ms with
      | v :: _ => v
      | [] => match parent with
              | Some p => lookupValue n p
              | None => BadValue
              end
      end
  end.

Fixpoint evaluateExpression (e : Expression) (s : Scope) : ConstantValue :=
  match e with
  | Literal z => IntegerValue z
  | NamedValue n => lookupValue n s
  | LessThan a b =>
      match evaluateExpression a s, evaluateExpression b s with
      | IntegerValue x, IntegerValue y => IntegerValue (if Z.ltb x y then 1 else 0)
      | _, _ => BadValue
      end
  | Add a b =>
      match evaluateExpression a s, evaluateExpression b s with
      | IntegerValue x, IntegerValue y => IntegerValue (x + y)
      | _, _ => BadValue
      end
  end.

#[export] Instance expressionBinder : Binder Expression :=
  {| evaluateConstant := fun e _ s => evaluateExpression e s |}.

Definition emptyRoot : Scope := mkScope [] None.

(** [begin : g  M m();  end] *)
Definition block_g : GenerateBlockSyntax :=
  mkGenerateBlockSyntax (Some "g"%string) 30
    [mkInstantiation "M"%string [("m"%string, 40)]].

(** [for (genvar i = 0; i < 3; i++) begin : g M m(); end] *)
Definition loop_three : LoopGenerateSyntax Expression :=
  mkLoopGenerate "i"%string 12
    (Literal 0)
    (LessThan (NamedValue "i"%string) (Literal 3))
    (Add (NamedValue "i"%string) (Literal 1))
    block_g.

(** [for (genvar i = 0; 1; i++) ...] never ends. *)
Definition loop_forever : LoopGenerateSyntax Expression :=
  mkLoopGenerate "i"%string 12
    (Literal 0)
    (Literal 1)
    (Add (NamedValue "i"%string) (Literal 1))
    block_g.

(** [if (0) begin : g M m(); end] *)
Definition if_zero : IfGenerateSyntax Expression :=
  mkIfGenerate (Literal 0) block_g None.

(** [begin : work ... end] and [begin ... end] *)
Definition labelled_block : BlockStatementSyntax nat :=
  mkBlockStatement (Some "work"%string) 5 [1; 2].
Definition plain_block : BlockStatementSyntax nat :=
  mkBlockStatement None 5 [1; 2].

(* ------------------------------------------------------------------ *)
(** ** What the list recogniser asks of its item parser *)

(** The item parser returns. *)
Definition itemParserTotal (parseItem : bool -> Parse SyntaxNode) : Prop :=
  forall first p, parseItem first p <> None.

(** The item parser is lossless on lexed input: the node it returns holds a
    token and writes exactly the tokens the parser consumed. *)
Definition itemParserLossless (parseItem : bool -> Parse SyntaxNode) : Prop :=
  forall first p item p',
    Forall lexed (window p) ->
    parseItem first p = Some (item, p') ->
    hasToken item = true
    /\ exists consumed,
        window p = consumed ++ window p'
        /\ nodeText false item = tokensText false consumed.

(** A token that begins an item and is not the separator makes the item
    parser consume something. *)
Definition itemParserProgress (IsExpected IsEnd : TokenKind.t -> bool)
           (separatorKind : TokenKind.t)
           (parseItem : bool -> Parse SyntaxNode) : Prop :=
  forall p item p',
    IsExpected (kind (currentToken p)) = true ->
    IsEnd (kind (currentToken p)) = false ->
    kind (currentToken p) <> separatorKind ->
    parseItem false p = Some (item, p') ->
    List.length (window p') < List.length (window p).

(* ------------------------------------------------------------------ *)
(** ** The discipline of the accumulator *)

(** How one pass through the inner loop treats the accumulator.  A pass that
    goes round again has either attached the pending trivium to the separator
    it produced and cleared the accumulator, or found the accumulator empty and
    filled it with the run it skipped.  A pass that breaks leaves the buffer
    alone and hands on at most one trivium, the pending one if there was one. *)
Definition separatorPassKeeps (IsExpected : TokenKind.t -> bool)
           (buffer : list TokenOrSyntax) (skippedTokens : Trivia)
           (r : LoopControl (list TokenOrSyntax * Trivia)) (p' : ParserBase)
  : Prop :=
  match r with
  | Next (buffer', skippedTokens') =>
      slotReady IsExpected skippedTokens' p'
      /\ ((exists sep item,
              buffer' = buffer ++ [TokenElem (fst (prependTrivia sep skippedTokens));
                                   NodeElem item]
              /\ skippedTokens' = TriviaDefault)
          \/ (skippedTokens = TriviaDefault /\ buffer' = buffer))
  | Break (buffer', skippedTokens') =>
      buffer' = buffer
      /\ singleSlot skippedTokens'
      /\ (skippedTokens <> TriviaDefault -> skippedTokens' = skippedTokens)
  end.

(** The same for the outer loop.  A pass that goes round again found the
    accumulator empty and filled it; a pass that breaks has attached the
    pending trivium to the first item, or aborted on an empty accumulator. *)
Definition itemPassKeeps (IsExpected : TokenKind.t -> bool)
           (buffer : list TokenOrSyntax) (skippedTokens : Trivia)
           (r : LoopControl (Token * list TokenOrSyntax * Trivia)) (p' : ParserBase)
  : Prop :=
  match r with
  | Next (current', buffer', skippedTokens') =>
      current' = currentToken p'
      /\ slotReady IsExpected skippedTokens' p'
      /\ skippedTokens = TriviaDefault
      /\ buffer' = buffer
  | Break (_, buffer', skippedTokens') =>
      singleSlot skippedTokens'
      /\ ((exists item rest,
              buffer' = buffer ++ NodeElem (fst (prependTriviaNode item skippedTokens))
                               :: rest)
          \/ (skippedTokens = TriviaDefault /\ buffer' = buffer))
  end.

(* ------------------------------------------------------------------ *)
(** ** The other classes of HierarchySymbols.h *)

(** Modelled from the spec: [symbols/SemanticFacts.h] is not among the
    sources; the kinds of procedural block are those of section 4.F. *)
Module ProceduralBlockKind.
Inductive t : Set :=
| Initial
| Always
| AlwaysComb
| AlwaysLatch
| AlwaysFF
| Final.
End ProceduralBlockKind.

(** [SourceLocation()], the default location. *)
Definition noLocation : SourceLocation := 0.

Module CompilationUnitSymbol.
(** [class CompilationUnitSymbol : public Symbol, public Scope] *)
Record t : Set := mk {
  base : Symbol;
  members : list Member
}.

(** [Symbol(SymbolKind::CompilationUnit, "", SourceLocation()), Scope(compilation, this)] *)
Definition make : t :=
  mk (mkSymbol SymbolKind.CompilationUnit EmptyString noLocation) [].

Definition isKind (k : SymbolKind.t) : bool :=
  SymbolKind.eqb k SymbolKind.CompilationUnit.
End CompilationUnitSymbol.

Module PackageSymbol.
(** [class PackageSymbol : public Symbol, public Scope] *)
Record t : Set := mk {
  base : Symbol;
  members : list Member
}.

(** [Symbol(SymbolKind::Package, name, loc), Scope(compilation, this)] *)
Definition make (name : string) (loc : SourceLocation) : t :=
  mk (mkSymbol SymbolKind.Package name loc) [].

Definition isKind (k : SymbolKind.t) : bool :=
  SymbolKind.eqb k SymbolKind.Package.
End PackageSymbol.

Module InstanceSymbol.
(** [class InstanceSymbol : public Symbol, public Scope], the base of the
    module and interface instances. *)
Record t : Set := mk {
  base : Symbol;
  members : list Member
}.

(** The protected constructor:
    [Symbol(kind, name, loc), Scope(compilation, this)]. *)
Definition make (k : SymbolKind.t) (name : string) (loc : SourceLocation) : t :=
  mk (mkSymbol k name loc) [].
End InstanceSymbol.

Module ModuleInstanceSymbol.
(** [InstanceSymbol(SymbolKind::ModuleInstance, compilation, name, loc)] *)
Definition make (name : string) (loc : SourceLocation) : InstanceSymbol.t :=
  InstanceSymbol.make SymbolKind.ModuleInstance name loc.

Definition isKind (k : SymbolKind.t) : bool :=
  SymbolKind.eqb k SymbolKind.ModuleInstance.
End ModuleInstanceSymbol.

Module InterfaceInstanceSymbol.
(** [InstanceSymbol(SymbolKind::InterfaceInstance, compilation, name, loc)] *)
Definition make (name : string) (loc : SourceLocation) : InstanceSymbol.t :=
  InstanceSymbol.make SymbolKind.InterfaceInstance name loc.

Definition isKind (k : SymbolKind.t) : bool :=
  SymbolKind.eqb k SymbolKind.InterfaceInstance.
End InterfaceInstanceSymbol.

Module ProceduralBlockSymbol.
(** [class ProceduralBlockSymbol : public Symbol, public StatementBodiedScope]
    with its public field [procedureKind]. *)
Record t : Set := mk {
  base : Symbol;
  members : list Member;
  procedureKind : ProceduralBlockKind.t
}.

(** [Symbol(SymbolKind::ProceduralBlock, "", loc),
     StatementBodiedScope(compilation, this), procedureKind(procedureKind)] *)
Definition make (loc : SourceLocation) (procedureKind : ProceduralBlockKind.t) : t :=
  mk (mkSymbol SymbolKind.ProceduralBlock EmptyString loc) [] procedureKind.

Definition isKind (k : SymbolKind.t) : bool :=
  SymbolKind.eqb k SymbolKind.ProceduralBlock.
End ProceduralBlockSymbol.

Module RootSymbol.
(** [class RootSymbol : public Symbol, public Scope] with its two spans, which
    start empty. *)
Record t : Set := mk {
  base : Symbol;
  members : list Member;
  topInstances : list InstanceSymbol.t;
  compilationUnits : list CompilationUnitSymbol.t
}.

(** [Symbol(SymbolKind::Root, "$root", SourceLocation()), Scope(compilation, this)] *)
Definition make : t :=
  mk (mkSymbol SymbolKind.Root "$root"%string noLocation) [] [] [].

Definition isKind (k : SymbolKind.t) : bool :=
  SymbolKind.eqb k SymbolKind.Root.
End RootSymbol.

(** The kind each public constructor of the header gives its symbol, class by
    class in the order of the header, and the [isKind] test of each class in
    the same order. *)
Definition constructedKinds (name : string) (loc : SourceLocation)
           (pk : ProceduralBlockKind.t) : list SymbolKind.t :=
  [ symbolKind (CompilationUnitSymbol.base CompilationUnitSymbol.make);
    symbolKind (PackageSymbol.base (PackageSymbol.make name loc));
    symbolKind (InstanceSymbol.base (ModuleInstanceSymbol.make name loc));
    symbolKind (InstanceSymbol.base (InterfaceInstanceSymbol.make name loc));
    symbolKind (SequentialBlockSymbol.base
                  (SequentialBlockSymbol.make (Statement := unit) loc));
    symbolKind (ProceduralBlockSymbol.base (ProceduralBlockSymbol.make loc pk));
    symbolKind (GenerateBlockSymbol.base (GenerateBlockSymbol.make name loc));
    symbolKind (GenerateBlockArraySymbol.base
                  (GenerateBlockArraySymbol.make name loc));
    symbolKind (RootSymbol.base RootSymbol.make) ].

Definition isKindTests : list (SymbolKind.t -> bool) :=
  [ CompilationUnitSymbol.isKind;
    PackageSymbol.isKind;
    ModuleInstanceSymbol.isKind;
    InterfaceInstanceSymbol.isKind;
    SequentialBlockSymbol.isKind;
    ProceduralBlockSymbol.isKind;
    GenerateBlockSymbol.isKind;
    GenerateBlockArraySymbol.isKind;
    RootSymbol.isKind ].

(* ------------------------------------------------------------------ *)
(** ** More vocabulary for the list recogniser *)

(** The item parser only moves forward: what it leaves in the window follows
    what it consumed. *)
Definition itemParserForward (parseItem : bool -> Parse SyntaxNode) : Prop :=
  forall first p item p',
    parseItem first p = Some (item, p') ->
    exists consumed, window p = consumed ++ window p'.

(** The elements after the first item come in pairs: a token of the separator
    kind, then a node. *)
Fixpoint separatedTail (separatorKind : TokenKind.t) (l : list TokenOrSyntax)
  : bool :=
  match l with
  | [] => true
  | TokenElem t :: NodeElem _ :: rest =>
      TokenKind.eqb (kind t) separatorKind && separatedTail separatorKind rest
  | _ => false
  end.

(** A buffer is empty, or is [item (separator item)*]. *)
Definition separatedList (separatorKind : TokenKind.t) (l : list TokenOrSyntax)
  : bool :=
  match l with
  | [] => true
  | NodeElem _ :: rest => separatedTail separatorKind rest
  | TokenElem _ :: _ => false
  end.

(** The tokens of a well-formed list body: the tokens of the first item, then
    for every further item a separator and the tokens of the item. *)
Definition separatedTokens (first : list Token)
           (more : list (Token * list Token)) : list Token :=
  first ++ flat_map (fun sg => fst sg :: snd sg) more.

(** The elements the recogniser is to produce for it. *)
Definition separatedElements (nodeOf : list Token -> SyntaxNode)
           (first : list Token) (more : list (Token * list Token))
  : list TokenOrSyntax :=
  NodeElem (nodeOf first)
  :: flat_map (fun sg => [TokenElem (fst sg); NodeElem (nodeOf (snd sg))]) more.

(** The item parser turns the tokens [g] into the node [nodeOf g], consuming
    exactly them and raising no diagnostic. *)
Definition parsesGroup (parseItem : bool -> Parse SyntaxNode)
           (nodeOf : list Token -> SyntaxNode) (g : list Token) : Prop :=
  forall first p rest,
    window p = g ++ rest ->
    exists p',
      parseItem first p = Some (nodeOf g, p')
      /\ window p' = rest
      /\ diagnostics p' = diagnostics p.

(** The tokens [g] begin with a token that begins an item. *)
Definition beginsItem (IsExpected IsEnd : TokenKind.t -> bool)
           (g : list Token) : Prop :=
  exists t ts,
    g = t :: ts /\ IsExpected (kind t) = true /\ IsEnd (kind t) = false.

(** An item parser that returns an empty node and consumes nothing. *)
Definition parseNothing (first : bool) : Parse SyntaxNode :=
  ret (mkNode 0 []).

(** The node of one name. *)
Definition nameNode (g : list Token) : SyntaxNode :=
  mkNode 1 [TokenElem (hd endOfFileToken g)].

(** ["(a, b);"] *)
Definition source_a_comma_b : list Token :=
  [ lexeme TokenKind.OpenParenthesis 0 "" "(";
    lexeme TokenKind.Identifier 1 "" "a";
    lexeme TokenKind.Comma 2 "" ",";
    lexeme TokenKind.Identifier 4 " " "b";
    lexeme TokenKind.CloseParenthesis 5 "" ")";
    lexeme TokenKind.Semicolon 6 "" ";";
    lexeme TokenKind.EndOfFile 7 "" "" ].

(** ["(% %)"] *)
Definition source_only_bad : list Token :=
  [ lexeme TokenKind.OpenParenthesis 0 "" "(";
    lexeme TokenKind.Percent 1 "" "%";
    lexeme TokenKind.Percent 3 " " "%";
    lexeme TokenKind.CloseParenthesis 4 "" ")";
    lexeme TokenKind.EndOfFile 5 "" "" ].

(** Only identifiers begin an item: the comma is left out. *)
Definition isIdentifier (k : TokenKind.t) : bool :=
  match k with
  | TokenKind.Identifier => true
  | _ => false
  end.

(** Both kinds of token pass both tests. *)
Definition isCloseOrIdentifier (k : TokenKind.t) : bool :=
  match k with
  | TokenKind.Identifier | TokenKind.CloseParenthesis => true
  | _ => false
  end.

(** A separator followed by the tokens of an item, as the inner loop wants
    them: the separator has the separator kind, begins an item and does not
    end the list, and the item parser turns the tokens into their node. *)
Definition separatorAndItem (IsExpected IsEnd : TokenKind.t -> bool)
           (separatorKind : TokenKind.t)
           (parseItem : bool -> Parse SyntaxNode)
           (nodeOf : list Token -> SyntaxNode)
           (sg : Token * list Token) : Prop :=
  kind (fst sg) = separatorKind
  /\ IsExpected (kind (fst sg)) = true
  /\ IsEnd (kind (fst sg)) = false
  /\ parsesGroup parseItem nodeOf (snd sg).

(* ------------------------------------------------------------------ *)
(** ** The list recogniser over [expect] *)

(** The header declares [expect] and holds no body for it.  The two overloads
    of [parseSeparatedList] are written here once more, statement by statement
    as above, with [expect] as a parameter: what the recogniser does is then
    told apart from what [expect] does.  At the [expect] modelled above these
    are the definitions above. *)
Module OverExpect.
Section ParseSeparatedList.

(** [Token expect(TokenKind kind);] *)
Variable expect : TokenKind.t -> Parse Token.

Variable IsExpected : TokenKind.t -> bool.
Variable IsEnd : TokenKind.t -> bool.
Variable parseItem : bool -> Parse SyntaxNode.

Variable closeKind : TokenKind.t.
Variable separatorKind : TokenKind.t.
Variable c : DiagCode.t.

Definition separatorBody (buffer : list TokenOrSyntax) (skippedTokens : Trivia)
  : Parse (LoopControl (list TokenOrSyntax * Trivia)) :=
  current <- peek ;;
  if IsEnd (kind current) then ret (Break (buffer, skippedTokens))
  else if IsExpected (kind current) then
    sep <- expect separatorKind ;;
    let '(sep', skippedTokens) := prependTrivia sep skippedTokens in
    item <- parseItem false ;;
    let '(item', skippedTokens) := prependTriviaNode item skippedTokens in
    ret (Next (buffer ++ [TokenElem sep'; NodeElem item'], skippedTokens))
  else
    '(action, skippedTokens) <- skipBadTokens IsExpected IsEnd c ;;
    match action with
    | Abort => ret (Break (buffer, skippedTokens))
    | Continue => ret (Next (buffer, skippedTokens))
    end.

Fixpoint separatorLoop (fuel : nat) (buffer : list TokenOrSyntax)
         (skippedTokens : Trivia) {struct fuel}
  : Parse (list TokenOrSyntax * Trivia) :=
  match fuel with
  | O => diverge
  | S fuel' =>
      r <- separatorBody buffer skippedTokens ;;
      match r with
      | Break out => ret out
      | Next (buffer', skippedTokens') =>
          separatorLoop fuel' buffer' skippedTokens'
      end
  end.

Definition itemBody (fuel : nat) (current : Token)
           (buffer : list TokenOrSyntax) (skippedTokens : Trivia)
  : Parse (LoopControl (Token * list TokenOrSyntax * Trivia)) :=
  if IsExpected (kind current) then
    item <- parseItem true ;;
    let '(item', skippedTokens) := prependTriviaNode item skippedTokens in
    '(buffer', skippedTokens') <-
      separatorLoop fuel (buffer ++ [NodeElem item']) skippedTokens ;;
    ret (Break (current, buffer', skippedTokens'))
  else
    '(action, skippedTokens) <- skipBadTokens IsExpected IsEnd c ;;
    match action with
    | Abort => ret (Break (current, buffer, skippedTokens))
    | Continue =>
        current' <- peek ;;
        ret (Next (current', buffer, skippedTokens))
    end.

Fixpoint itemLoop (fuel : nat) (current : Token) (buffer : list TokenOrSyntax)
         (skippedTokens : Trivia) {struct fuel}
  : Parse (list TokenOrSyntax * Trivia) :=
  match fuel with
  | O => diverge
  | S fuel' =>
      r <- itemBody fuel' current buffer skippedTokens ;;
      match r with
      | Break (_, buffer', skippedTokens') => ret (buffer', skippedTokens')
      | Next (current', buffer', skippedTokens') =>
          itemLoop fuel' current' buffer' skippedTokens'
      end
  end.

Definition parseSeparatedListBuffer (fuel : nat) (buffer : list TokenOrSyntax)
  : Parse (list TokenOrSyntax * Token) :=
  let skippedTokens := TriviaDefault in
  current <- peek ;;
  '(buffer, skippedTokens) <-
    (if negb (IsEnd (kind current))
     then itemLoop fuel current buffer skippedTokens
     else ret (buffer, skippedTokens)) ;;
  closeToken <- expect closeKind ;;
  ret (buffer, fst (prependTrivia closeToken skippedTokens)).

Definition parseSeparatedList (fuel : nat) (openKind : TokenKind.t)
  : Parse (Token * list TokenOrSyntax * Token) :=
  openToken <- expect openKind ;;
  '(list, closeToken) <- parseSeparatedListBuffer fuel [] ;;
  ret (openToken, list, closeToken).

End ParseSeparatedList.
End OverExpect.

(** What the round trip asks of [expect]: a token of the expected kind is
    consumed and returned; otherwise the window is left where it is and the
    token returned in its place writes nothing. *)
Definition expectLossless (expect : TokenKind.t -> Parse Token) : Prop :=
  forall k p,
    (kind (currentToken p) = k -> expect k p = consume p)
    /\ (kind (currentToken p) <> k ->
        exists missing p',
          expect k p = Some (missing, p')
          /\ window p' = window p
          /\ tokenText true missing = []).

(** What it asks of the item parser: the node returned holds a token and,
    written in full, writes exactly the tokens the parser consumed. *)
Definition itemParserFaithful (parseItem : bool -> Parse SyntaxNode) : Prop :=
  forall first p item p',
    parseItem first p = Some (item, p') ->
    hasToken item = true
    /\ exists consumed,
        window p = consumed ++ window p'
        /\ nodeText true item = tokensText true consumed.

(** Every diagnostic a computation raises has a code among [codes]; the
    diagnostics raised before it are kept. *)
Definition raisesOnly {A} (codes : DiagCode.t -> Prop) (m : Parse A) : Prop :=
  forall p a p',
    m p = Some (a, p') ->
    exists raised,
      diagnostics p' = diagnostics p ++ raised
      /\ Forall (fun d => codes (code d)) raised.

(** An [expect] to run the recogniser with.  Its missing token is bare: the
    expected kind, empty text, the missing flag, and no trivia of its own. *)
Definition expectBare (k : TokenKind.t) : Parse Token :=
  result <- peek ;;
  if TokenKind.eqb (kind result) k then consume
  else
    addError DiagCode.ExpectedToken (location result) [k] ;;
    ret (mkToken k (location result) [] [] true).

(** The name parser over [expect]. *)
Definition parseNameBy (expect : TokenKind.t -> Parse Token) (first : bool)
  : Parse SyntaxNode :=
  t <- expect TokenKind.Identifier ;;
  ret (mkNode 1 [TokenElem t]).

(** ["% %"] and the end of the file. *)
Definition source_unterminated : list Token :=
  [ lexeme TokenKind.Percent 1 "" "%";
    lexeme TokenKind.Percent 3 " " "%";
    lexeme TokenKind.EndOfFile 5 " " "" ].

(* ================================================================== *)
(** * Properties *)

Unset Implicit Arguments.

(* ------------------------------------------------------------------ *)
(** ** The text functions *)

Lemma tokensText_app b xs ys :
  tokensText b (xs ++ ys) = tokensText b xs ++ tokensText b ys.
Proof. unfold tokensText. apply flat_map_app. Qed.

Lemma bufferText_app b xs ys :
  bufferText b (xs ++ ys) = bufferText b xs ++ bufferText b ys.
Proof. unfold bufferText. apply flat_map_app. Qed.

Lemma triviaText_skippedTrivia b ts :
  triviaText b (skippedTrivia ts) = tokensText b ts.
Proof. destruct ts; reflexivity. Qed.

Lemma singleSlot_skippedTrivia ts : singleSlot (skippedTrivia ts).
Proof.
  destruct ts as [|t ts]; [now left|].
  right. exists (t :: ts). split; [discriminate|reflexivity].
Qed.

Lemma singleSlot_present s :
  singleSlot s -> s = TriviaDefault \/ triviaPresent s = true.
Proof. intros [->|(run & _ & ->)]; [now left|now right]. Qed.

(** Prepending the accumulator to a token puts its text in front of the
    token's, whether or not the token is missing. *)
Lemma prependTrivia_text t s :
  singleSlot s ->
  tokenText false (fst (prependTrivia t s)) = triviaText false s ++ tokenText false t.
Proof.
  intros [->|(run & _ & ->)]; [reflexivity|].
  destruct t as [k l r tr m]. cbn [prependTrivia fst triviaPresent triviaKind].
  cbn. destruct m; cbn; now rewrite <- app_assoc.
Qed.

(* ------------------------------------------------------------------ *)
(** ** The window primitives *)

Lemma expect_run k p :
  exists t p',
    expect k p = Some (t, p')
    /\ ((kind (currentToken p) = k
         /\ t = currentToken p
         /\ p' = mkParser (tl (window p)) (Some t) (diagnostics p))
        \/ (kind (currentToken p) <> k
            /\ t = mkToken k (location (currentToken p)) []
                           (trivia (currentToken p)) true
            /\ p' = mkParser (window p) (lastConsumed p)
                      (diagnostics p ++
                       [mkDiagnostic DiagCode.ExpectedToken
                                     (location (currentToken p)) [k]]))).
Proof.
  unfold expect, bind, peek.
  destruct (TokenKind.eqb (kind (currentToken p)) k) eqn:E.
  - apply TokenKind.eqb_eq in E. eexists _, _. split; [reflexivity|].
    left. repeat split. exact E.
  - apply TokenKind.eqb_neq in E. eexists _, _. split; [reflexivity|].
    right. repeat split. exact E.
Qed.

Lemma currentToken_cons t rest p :
  window p = t :: rest -> currentToken p = t.
Proof. unfold currentToken. now intros ->. Qed.

Lemma currentToken_nil p :
  window p = [] -> currentToken p = endOfFileToken.
Proof. unfold currentToken. now intros ->. Qed.

(* ------------------------------------------------------------------ *)
(** ** skipBadTokens *)

Lemma lastOf_default t ts d d' : lastOf (t :: ts) d = lastOf (t :: ts) d'.
Proof.
  unfold lastOf. revert t. induction ts as [|u ts IH]; intros t; [reflexivity|].
  exact (IH u).
Qed.

Lemma lastOf_cons t ts d : lastOf (t :: ts) d = lastOf ts (Some t).
Proof.
  destruct ts as [|u ts]; [reflexivity|].
  exact (lastOf_default u ts d (Some t)).
Qed.

Section SkipBadTokensFacts.

Variable IsExpected : TokenKind.t -> bool.
Variable IsAbort : TokenKind.t -> bool.

(** The loop, run from any state in which [current] is the current token,
    with enough fuel for the tokens that are left. *)
Lemma skipLoop_run fuel :
  forall (c : DiagCode.t) (tokens : list Token) (error : bool) (p : ParserBase),
    List.length (window p) < fuel ->
    exists consumed p',
      skipLoop IsExpected IsAbort fuel c tokens (currentToken p) error p
      = Some ((if IsExpected (kind (currentToken p')) then Continue else Abort,
               tokens ++ consumed), p')
      /\ window p = consumed ++ window p'
      /\ Forall (fun t => skippable IsExpected IsAbort (kind t) = true) consumed
      /\ skippable IsExpected IsAbort (kind (currentToken p')) = false
      /\ diagnostics p' =
         diagnostics p ++
         (if error || IsExpected (kind (currentToken p)) then []
          else [mkDiagnostic c (location (currentToken p)) []])
      /\ lastConsumed p' = lastOf consumed (lastConsumed p).
Proof.
  induction fuel as [|fuel IH]; intros c tokens error p Hlen; [lia|].
  cbn [skipLoop].
  destruct (IsExpected (kind (currentToken p))) eqn:Hexp; cbn [negb].
  - exists [], p. rewrite Hexp, app_nil_r, orb_true_r, app_nil_r.
    repeat split; auto.
    unfold skippable. now rewrite Hexp.
  - rewrite orb_false_r.
    set (p1 := mkParser (window p) (lastConsumed p)
                 (diagnostics p ++
                  (if error then [] else [mkDiagnostic c (location (currentToken p)) []]))).
    assert (Hstep : forall B (k : unit -> Parse B),
               bind (if negb error then addError c (location (currentToken p)) []
                     else ret tt) k p = k tt p1).
    { intros B k. unfold bind, p1. destruct error; cbn.
      - rewrite app_nil_r. now destruct p.
      - reflexivity. }
    rewrite Hstep. clear Hstep.
    destruct (TokenKind.eqb (kind (currentToken p)) TokenKind.EndOfFile
              || IsAbort (kind (currentToken p))) eqn:Hstop.
    + exists [], p1.
      assert (Hcur : currentToken p1 = currentToken p) by reflexivity.
      rewrite Hcur, Hexp, app_nil_r. repeat split; auto.
      unfold skippable. now rewrite Hexp, Hstop.
    + (* the current token is consumed *)
      destruct (window p) as [|t rest] eqn:Hw.
      { exfalso. unfold currentToken in Hstop. rewrite Hw in Hstop.
        cbn in Hstop. discriminate. }
      assert (Hct : currentToken p = t) by (unfold currentToken; now rewrite Hw).
      set (p2 := mkParser rest (Some t) (diagnostics p1)).
      assert (Hrun : forall B (k : Token -> Parse B),
                 bind consume k p1 = k t p2).
      { intros B k. unfold bind, consume, p2, p1, currentToken; cbn.
        now rewrite Hw. }
      rewrite Hrun. clear Hrun.
      unfold bind at 1. unfold peek at 1.
      destruct (IH c (tokens ++ [t]) true p2)
        as (consumed & p' & Hrun & Hwin & Hall & Hend & Hdiag & Hlast).
      { cbn. cbn in Hlen. lia. }
      exists (t :: consumed), p'.
      rewrite Hrun, <- app_assoc. cbn [app].
      repeat split; auto.
      * cbn in Hwin. now rewrite Hwin.
      * constructor; [|exact Hall].
        unfold skippable.
        rewrite <- Hct, Hexp, Hstop. reflexivity.
      * rewrite Hdiag. cbn. now rewrite app_nil_r.
      * rewrite Hlast, lastOf_cons. reflexivity.
Qed.

(** The functional specification of [skipBadTokens]. *)
Lemma skipBadTokens_run (c : DiagCode.t) (p : ParserBase) :
  exists consumed p',
    skipBadTokens IsExpected IsAbort c p
    = Some ((if IsExpected (kind (currentToken p')) then Continue else Abort,
             skippedTrivia consumed), p')
    /\ window p = consumed ++ window p'
    /\ Forall (fun t => skippable IsExpected IsAbort (kind t) = true) consumed
    /\ skippable IsExpected IsAbort (kind (currentToken p')) = false
    /\ diagnostics p' =
       diagnostics p ++
       (if IsExpected (kind (currentToken p)) then []
        else [mkDiagnostic c (location (currentToken p)) []])
    /\ lastConsumed p' = lastOf consumed (lastConsumed p).
Proof.
  destruct (skipLoop_run (S (S (List.length (window p)))) c [] false p)
    as (consumed & p' & Hrun & Hrest); [lia|].
  exists consumed, p'. split; [|exact Hrest].
  unfold skipBadTokens. unfold bind at 1. unfold peek at 1.
  unfold bind. rewrite Hrun. cbn [app].
  destruct consumed; reflexivity.
Qed.

End SkipBadTokensFacts.

(** C10: called on a token that is already expected, [skipBadTokens] returns
    [Continue], leaves the parser exactly as it was (no diagnostic, nothing
    consumed) and assigns the empty trivium.  Nothing is assumed of [IsAbort]:
    the abort test is only reached for tokens that are not expected. *)
Theorem skipBadTokens_on_expected
        (IsExpected IsAbort : TokenKind.t -> bool) (c : DiagCode.t) (p : ParserBase) :
  IsExpected (kind (currentToken p)) = true ->
  skipBadTokens IsExpected IsAbort c p = Some ((Continue, TriviaDefault), p).
Proof.
  intros Hexp. unfold skipBadTokens, bind, peek. cbn [skipLoop].
  rewrite Hexp. reflexivity.
Qed.

(** A comma is both expected and an abort token here. *)
Lemma skipBadTokens_on_expected_witness :
  let p := startOn [lexeme TokenKind.Comma 0 "" ","; lexeme TokenKind.EndOfFile 1 "" ""] in
  isIdentifierOrComma (kind (currentToken p)) = true
  /\ skipBadTokens isIdentifierOrComma (fun _ => true) (DiagCode.Other 7) p
     = Some ((Continue, TriviaDefault), p).
Proof.
  split; [reflexivity|].
  apply (skipBadTokens_on_expected isIdentifierOrComma (fun _ => true)).
  reflexivity.
Defined.

(** C2: called on a token that is not expected, [skipBadTokens] emits exactly
    one diagnostic, of the given code and at the location of that first
    token; it consumes the tokens in front of the first token that is expected
    (result [Continue]) or that is an abort token or the end of the file
    (result [Abort]); and it assigns a [SkippedTokens] trivium holding exactly
    the consumed tokens, or the empty trivium when it consumed none. *)
Theorem skipBadTokens_on_unexpected
        (IsExpected IsAbort : TokenKind.t -> bool) (c : DiagCode.t) (p : ParserBase) :
  IsExpected (kind (currentToken p)) = false ->
  exists action skipped consumed p',
    skipBadTokens IsExpected IsAbort c p = Some ((action, skipped), p')
    /\ diagnostics p' = diagnostics p ++ [mkDiagnostic c (location (currentToken p)) []]
    /\ window p = consumed ++ window p'
    /\ Forall (fun t => IsExpected (kind t) = false
                        /\ kind t <> TokenKind.EndOfFile
                        /\ IsAbort (kind t) = false) consumed
    /\ ((action = Continue /\ IsExpected (kind (currentToken p')) = true)
        \/ (action = Abort
            /\ IsExpected (kind (currentToken p')) = false
            /\ (kind (currentToken p') = TokenKind.EndOfFile
                \/ IsAbort (kind (currentToken p')) = true)))
    /\ ((consumed = [] /\ skipped = TriviaDefault)
        \/ (consumed <> [] /\ skipped = TriviaSkipped consumed)).
Proof.
  intros Hexp.
  destruct (skipBadTokens_run IsExpected IsAbort c p)
    as (consumed & p' & Hrun & Hwin & Hall & Hend & Hdiag & _).
  rewrite Hexp in Hdiag.
  eexists _, _, consumed, p'. split; [exact Hrun|].
  split; [exact Hdiag|]. split; [exact Hwin|]. split; [|split].
  - eapply Forall_impl; [|exact Hall]. intros t Ht. unfold skippable in Ht.
    apply andb_true_iff in Ht as [H1 H2].
    apply negb_true_iff in H1, H2. apply orb_false_iff in H2 as [H2 H3].
    apply TokenKind.eqb_neq in H2. auto.
  - unfold skippable in Hend.
    destruct (IsExpected (kind (currentToken p'))); [left; auto|].
    right. split; [reflexivity|]. split; [reflexivity|].
    cbn in Hend. apply negb_false_iff, orb_true_iff in Hend as [H|H]; [left|right; exact H].
    now apply TokenKind.eqb_eq.
  - destruct consumed; [left; auto|right; split; [discriminate|reflexivity]].
Qed.

(** Two percent signs in front of an identifier. *)
Lemma skipBadTokens_on_unexpected_witness :
  let p := startOn source_percent_run in
  isIdentifierOrComma (kind (currentToken p)) = false
  /\ exists action skipped consumed p',
      skipBadTokens isIdentifierOrComma isEndOfParenList (DiagCode.Other 7) p
      = Some ((action, skipped), p')
      /\ diagnostics p' = diagnostics p
                          ++ [mkDiagnostic (DiagCode.Other 7) (location (currentToken p)) []]
      /\ window p = consumed ++ window p'
      /\ Forall (fun t => isIdentifierOrComma (kind t) = false
                          /\ kind t <> TokenKind.EndOfFile
                          /\ isEndOfParenList (kind t) = false) consumed
      /\ ((action = Continue /\ isIdentifierOrComma (kind (currentToken p')) = true)
          \/ (action = Abort
              /\ isIdentifierOrComma (kind (currentToken p')) = false
              /\ (kind (currentToken p') = TokenKind.EndOfFile
                  \/ isEndOfParenList (kind (currentToken p')) = true)))
      /\ ((consumed = [] /\ skipped = TriviaDefault)
          \/ (consumed <> [] /\ skipped = TriviaSkipped consumed)).
Proof.
  split; [reflexivity|].
  apply (skipBadTokens_on_unexpected isIdentifierOrComma isEndOfParenList).
  reflexivity.
Defined.

(** C9: [skipBadTokens] never consumes the token that ends the skip.  What is
    left of the window follows the consumed tokens; on [Continue] its first
    token is the first expected token of the window, on [Abort] it is an abort
    token or the end of the file. *)
Theorem skipBadTokens_keeps_terminator
        (IsExpected IsAbort : TokenKind.t -> bool) (c : DiagCode.t) (p : ParserBase) :
  exists action skipped consumed p',
    skipBadTokens IsExpected IsAbort c p = Some ((action, skipped), p')
    /\ window p = consumed ++ window p'
    /\ match action with
       | Continue =>
           IsExpected (kind (currentToken p')) = true
           /\ Forall (fun t => IsExpected (kind t) = false) consumed
       | Abort =>
           IsExpected (kind (currentToken p')) = false
           /\ (kind (currentToken p') = TokenKind.EndOfFile
               \/ IsAbort (kind (currentToken p')) = true)
       end.
Proof.
  destruct (skipBadTokens_run IsExpected IsAbort c p)
    as (consumed & p' & Hrun & Hwin & Hall & Hend & _).
  eexists _, _, consumed, p'. split; [exact Hrun|]. split; [exact Hwin|].
  unfold skippable in Hend.
  destruct (IsExpected (kind (currentToken p'))) eqn:Hexp.
  - split; [reflexivity|].
    eapply Forall_impl; [|exact Hall]. intros t Ht. unfold skippable in Ht.
    apply andb_true_iff in Ht as [H1 _]. now apply negb_true_iff in H1.
  - split; [reflexivity|].
    cbn in Hend. apply negb_false_iff, orb_true_iff in Hend as [H|H]; [left|right; exact H].
    now apply TokenKind.eqb_eq.
Qed.

(* ------------------------------------------------------------------ *)
(** ** Who raises which diagnostic *)

Lemma raisesOnly_ret {A} codes (a : A) : raisesOnly codes (ret a).
Proof.
  intros p a' p' [= <- <-]. exists []. now rewrite app_nil_r.
Qed.

Lemma raisesOnly_bind {A B} codes (m : Parse A) (f : A -> Parse B) :
  raisesOnly codes m ->
  (forall a, raisesOnly codes (f a)) ->
  raisesOnly codes (bind m f).
Proof.
  intros Hm Hf p b p'. unfold bind.
  destruct (m p) as [[a p1]|] eqn:Hrun; [|discriminate].
  intros Hrest.
  destruct (Hm _ _ _ Hrun) as (r1 & Hd1 & Hr1).
  destruct (Hf a _ _ _ Hrest) as (r2 & Hd2 & Hr2).
  exists (r1 ++ r2). rewrite Hd2, Hd1, app_assoc.
  split; [reflexivity|]. now apply Forall_app.
Qed.

Lemma raisesOnly_peek codes : raisesOnly codes peek.
Proof.
  intros p a p' [= <- <-]. exists []. now rewrite app_nil_r.
Qed.

(** [skipBadTokens] raises the code it is given and no other. *)
Lemma skipBadTokens_raises IsExpected IsAbort c (codes : DiagCode.t -> Prop) :
  codes c -> raisesOnly codes (skipBadTokens IsExpected IsAbort c).
Proof.
  intros Hc p a p' Hrun.
  destruct (skipBadTokens_run IsExpected IsAbort c p)
    as (consumed & p1 & Hrun1 & _ & _ & _ & Hdiag & _).
  rewrite Hrun in Hrun1. injection Hrun1 as _ <-.
  eexists. split; [exact Hdiag|].
  destruct (IsExpected (kind (currentToken p))); repeat constructor. exact Hc.
Qed.

Section WhoRaises.

Variable expect : TokenKind.t -> Parse Token.
Variable IsExpected : TokenKind.t -> bool.
Variable IsEnd : TokenKind.t -> bool.
Variable parseItem : bool -> Parse SyntaxNode.
Variable closeKind : TokenKind.t.
Variable separatorKind : TokenKind.t.
Variable c : DiagCode.t.
Variable codes : DiagCode.t -> Prop.

Hypothesis expect_raises : forall k, raisesOnly codes (expect k).
Hypothesis item_raises : forall first, raisesOnly codes (parseItem first).
Hypothesis own_code : codes c.

Lemma separatorBody_raises buffer s :
  raisesOnly codes
    (OverExpect.separatorBody expect IsExpected IsEnd parseItem separatorKind c
                              buffer s).
Proof.
  unfold OverExpect.separatorBody.
  apply raisesOnly_bind; [apply raisesOnly_peek|]. intros current.
  destruct (IsEnd (kind current)); [apply raisesOnly_ret|].
  destruct (IsExpected (kind current)).
  - apply raisesOnly_bind; [apply expect_raises|]. intros sep.
    cbn [prependTrivia].
    apply raisesOnly_bind; [apply item_raises|]. intros item.
    apply raisesOnly_ret.
  - apply raisesOnly_bind; [now apply skipBadTokens_raises|].
    intros [[|] s']; apply raisesOnly_ret.
Qed.

Lemma separatorLoop_raises fuel :
  forall buffer s,
    raisesOnly codes
      (OverExpect.separatorLoop expect IsExpected IsEnd parseItem separatorKind c
                                fuel buffer s).
Proof.
  induction fuel as [|fuel IH]; intros buffer s; [intros p a p'; discriminate|].
  cbn [OverExpect.separatorLoop].
  apply raisesOnly_bind; [apply separatorBody_raises|].
  intros [out|[b1 s1]]; [apply raisesOnly_ret|apply IH].
Qed.

Lemma itemLoop_raises fuel :
  forall current buffer s,
    raisesOnly codes
      (OverExpect.itemLoop expect IsExpected IsEnd parseItem separatorKind c
                           fuel current buffer s).
Proof.
  induction fuel as [|fuel IH]; intros current buffer s;
    [intros p a p'; discriminate|].
  cbn [OverExpect.itemLoop].
  apply raisesOnly_bind.
  - unfold OverExpect.itemBody. destruct (IsExpected (kind current)).
    + apply raisesOnly_bind; [apply item_raises|]. intros item.
      cbn [prependTriviaNode].
      apply raisesOnly_bind; [apply separatorLoop_raises|].
      intros [b1 s1]. apply raisesOnly_ret.
    + apply raisesOnly_bind; [now apply skipBadTokens_raises|].
      intros [[|] s']; [|apply raisesOnly_ret].
      apply raisesOnly_bind; [apply raisesOnly_peek|]. intros current'.
      apply raisesOnly_ret.
  - intros [[[cur b1] s1]|[[cur b1] s1]]; [apply raisesOnly_ret|apply IH].
Qed.

Lemma parseSeparatedList_raises fuel openKind :
  raisesOnly codes
    (OverExpect.parseSeparatedList expect IsExpected IsEnd parseItem
                                   closeKind separatorKind c fuel openKind).
Proof.
  unfold OverExpect.parseSeparatedList.
  apply raisesOnly_bind; [apply expect_raises|]. intros openToken.
  apply raisesOnly_bind; [|intros [list closeToken]; apply raisesOnly_ret].
  unfold OverExpect.parseSeparatedListBuffer.
  apply raisesOnly_bind; [apply raisesOnly_peek|]. intros current.
  apply raisesOnly_bind.
  - destruct (negb (IsEnd (kind current)));
      [apply itemLoop_raises|apply raisesOnly_ret].
  - intros [b1 s1]. apply raisesOnly_bind; [apply expect_raises|].
    intros closeToken. apply raisesOnly_ret.
Qed.

End WhoRaises.


Lemma consume_raises codes : raisesOnly codes consume.
Proof.
  intros p a p' [= <- <-]. exists []. cbn. now rewrite app_nil_r.
Qed.


(* ------------------------------------------------------------------ *)
(** ** parseSeparatedList: how one pass through each loop body ends *)

Lemma prependTriviaNode_default n :
  prependTriviaNode n TriviaDefault = (n, TriviaDefault).
Proof. reflexivity. Qed.

Lemma prependTrivia_clears t s : snd (prependTrivia t s) = TriviaDefault.
Proof. reflexivity. Qed.

Lemma prependTriviaNode_clears n s : snd (prependTriviaNode n s) = TriviaDefault.
Proof. reflexivity. Qed.

Section ParseSeparatedListSteps.

Variable IsExpected : TokenKind.t -> bool.
Variable IsEnd : TokenKind.t -> bool.
Variable parseItem : bool -> Parse SyntaxNode.
Variable closeKind : TokenKind.t.
Variable separatorKind : TokenKind.t.
Variable c : DiagCode.t.

Local Abbreviation sepBody := (separatorBody IsExpected IsEnd parseItem separatorKind c).
Local Abbreviation sepLoop := (separatorLoop IsExpected IsEnd parseItem separatorKind c).
Local Abbreviation outerBody := (itemBody IsExpected IsEnd parseItem separatorKind c).
Local Abbreviation outerLoop := (itemLoop IsExpected IsEnd parseItem separatorKind c).

(** The three ways through the inner body. *)
Lemma separatorBody_cases buffer s p r p' :
  sepBody buffer s p = Some (r, p') ->
  (IsEnd (kind (currentToken p)) = true
   /\ r = Break (buffer, s) /\ p' = p)
  \/ (IsEnd (kind (currentToken p)) = false
      /\ IsExpected (kind (currentToken p)) = true
      /\ exists sep p1 item,
          expect separatorKind p = Some (sep, p1)
          /\ parseItem false p1 = Some (item, p')
          /\ r = Next (buffer ++ [TokenElem (fst (prependTrivia sep s));
                                  NodeElem item], TriviaDefault))
  \/ (IsEnd (kind (currentToken p)) = false
      /\ IsExpected (kind (currentToken p)) = false
      /\ exists consumed,
          window p = consumed ++ window p'
          /\ Forall (fun t => skippable IsExpected IsEnd (kind t) = true) consumed
          /\ diagnostics p' = diagnostics p ++ [mkDiagnostic c (location (currentToken p)) []]
          /\ ((r = Break (buffer, skippedTrivia consumed)
               /\ IsExpected (kind (currentToken p')) = false)
              \/ (r = Next (buffer, skippedTrivia consumed)
                  /\ IsExpected (kind (currentToken p')) = true
                  /\ consumed <> []))).
Proof.
  unfold separatorBody. unfold bind at 1. unfold peek at 1.
  destruct (IsEnd (kind (currentToken p))) eqn:Hend.
  { intros H. inversion H. left. auto. }
  destruct (IsExpected (kind (currentToken p))) eqn:Hexp.
  - intros H. right. left. split; [reflexivity|]. split; [reflexivity|].
    unfold bind at 1 in H.
    destruct (expect separatorKind p) as [[sep p1]|] eqn:Hsep; [|discriminate].
    cbn [prependTrivia] in H. unfold bind in H.
    destruct (parseItem false p1) as [[item p2]|] eqn:Hitem; [|discriminate].
    cbn in H. inversion H. subst. exists sep, p1, item. auto.
  - intros H. right. right. split; [reflexivity|]. split; [reflexivity|].
    destruct (skipBadTokens_run IsExpected IsEnd c p)
      as (consumed & p2 & Hrun & Hwin & Hall & Hstop & Hdiag & _).
    unfold bind in H. rewrite Hrun in H. rewrite Hexp in Hdiag.
    exists consumed.
    destruct (IsExpected (kind (currentToken p2))) eqn:Hexp2;
      inversion H; subst; (split; [exact Hwin|]); (split; [exact Hall|]);
      (split; [exact Hdiag|]).
    + right. repeat split; auto.
      intros ->. cbn in Hwin. unfold currentToken in Hexp, Hexp2.
      rewrite Hwin in Hexp. congruence.
    + left. auto.
Qed.

(** The three ways through the outer body. *)
Lemma itemBody_cases fuel current buffer s p r p' :
  outerBody fuel current buffer s p = Some (r, p') ->
  (IsExpected (kind current) = true
   /\ exists item p1 buffer' s',
       parseItem true p = Some (item, p1)
       /\ sepLoop fuel (buffer ++ [NodeElem (fst (prependTriviaNode item s))])
                  TriviaDefault p1 = Some ((buffer', s'), p')
       /\ r = Break (current, buffer', s'))
  \/ (IsExpected (kind current) = false
      /\ exists action consumed,
          skipBadTokens IsExpected IsEnd c p
          = Some ((action, skippedTrivia consumed), p')
          /\ window p = consumed ++ window p'
          /\ ((action = Abort /\ r = Break (current, buffer, skippedTrivia consumed))
              \/ (action = Continue
                  /\ r = Next (currentToken p', buffer, skippedTrivia consumed)
                  /\ IsExpected (kind (currentToken p')) = true))).
Proof.
  unfold itemBody.
  destruct (IsExpected (kind current)) eqn:Hexp.
  - intros H. left. split; [reflexivity|].
    unfold bind at 1 in H.
    destruct (parseItem true p) as [[item p1]|] eqn:Hitem; [|discriminate].
    cbn [prependTriviaNode] in H. unfold bind in H.
    match type of H with
    | match ?X with _ => _ end = _ => destruct X as [[[b' s'] p2]|] eqn:Hloop
    end; [|discriminate].
    cbn in H. inversion H. subst. exists item, p1, b', s'. auto.
  - intros H. right. split; [reflexivity|].
    destruct (skipBadTokens_run IsExpected IsEnd c p)
      as (consumed & p2 & Hrun & Hwin & _ & Hstop & _).
    unfold bind in H. rewrite Hrun in H.
    exists (if IsExpected (kind (currentToken p2)) then Continue else Abort), consumed.
    destruct (IsExpected (kind (currentToken p2))) eqn:Hexp2;
      cbn in H; inversion H; subst; (split; [exact Hrun|]); (split; [exact Hwin|]).
    + right. auto.
    + left. auto.
Qed.

End ParseSeparatedListSteps.

(* ------------------------------------------------------------------ *)
(** ** Prepending trivia to a node *)

Lemma SyntaxNode_induction (P : SyntaxNode -> Prop) :
  (forall k cs,
      Forall (fun c => match c with
                       | TokenElem _ => True
                       | NodeElem m => P m
                       end) cs ->
      P (mkNode k cs)) ->
  forall n, P n.
Proof.
  intros H. fix IH 1. intros [k cs]. apply H.
  induction cs as [|c cs IHcs]; constructor; [|exact IHcs].
  destruct c as [t|m]; [exact I|apply IH].
Qed.

Lemma replaceFirstToken_node f k cs :
  replaceFirstToken f (mkNode k cs) = option_map (mkNode k) (replaceFirstIn f cs).
Proof.
  cbn [replaceFirstToken]. f_equal.
  induction cs as [|[t|m] cs IH]; [reflexivity|reflexivity|].
  cbn [replaceFirstIn]. rewrite <- IH. reflexivity.
Qed.

Lemma nodeText_node b k cs : nodeText b (mkNode k cs) = bufferText b cs.
Proof. reflexivity. Qed.

Lemma replaceFirstToken_text b f pre :
  (forall t, tokenText b (f t) = pre ++ tokenText b t) ->
  forall n n', replaceFirstToken f n = Some n' ->
               nodeText b n' = pre ++ nodeText b n.
Proof.
  intros Hf n. induction n as [k cs IH] using SyntaxNode_induction.
  intros n'. rewrite replaceFirstToken_node.
  destruct (replaceFirstIn f cs) as [cs'|] eqn:Hscan; [|discriminate].
  cbn [option_map]. intros [= <-]. rewrite !nodeText_node.
  revert cs' Hscan. induction IH as [|c cs Hc _ IHcs]; intros cs' Hscan.
  - discriminate.
  - destruct c as [t|m]; cbn [replaceFirstIn] in Hscan.
    + inversion Hscan. subst. unfold bufferText. cbn [flat_map elemText].
      rewrite Hf. now rewrite <- app_assoc.
    + destruct (replaceFirstToken f m) as [m'|] eqn:Hm.
      * inversion Hscan. subst. unfold bufferText. cbn [flat_map elemText].
        rewrite (Hc m' eq_refl). now rewrite <- app_assoc.
      * destruct (replaceFirstIn f cs) as [cs1|] eqn:Hcs; [|discriminate].
        inversion Hscan. subst. unfold bufferText in *. cbn [flat_map elemText].
        rewrite (IHcs cs1 eq_refl).
        (* a node without tokens writes nothing *)
        assert (Hempty : forall g, replaceFirstToken g m = None -> nodeText b m = []).
        { clear. intros g. induction m as [k cs IH] using SyntaxNode_induction.
          rewrite replaceFirstToken_node, nodeText_node.
          induction IH as [|c cs Hc _ IHcs]; [reflexivity|].
          destruct c as [t|m]; cbn [replaceFirstIn]; [discriminate|].
          destruct (replaceFirstToken g m) eqn:Hm; [discriminate|].
          destruct (replaceFirstIn g cs) eqn:Hcs; [discriminate|].
          intros _. unfold bufferText in *. cbn [flat_map elemText].
          rewrite (Hc eq_refl), (IHcs eq_refl). reflexivity. }
        rewrite (Hempty f Hm). reflexivity.
Qed.

(** Whether a token is found does not depend on the rewriting function. *)
Lemma replaceFirstToken_found f g :
  forall n, replaceFirstToken f n = None -> replaceFirstToken g n = None.
Proof.
  intros n. induction n as [k cs IH] using SyntaxNode_induction.
  rewrite !replaceFirstToken_node.
  induction IH as [|c cs Hc _ IHcs]; [reflexivity|].
  destruct c as [t|m]; cbn [replaceFirstIn]; [discriminate|].
  destruct (replaceFirstToken f m) eqn:Hm; [discriminate|].
  rewrite (Hc eq_refl).
  destruct (replaceFirstIn f cs) eqn:Hcs; [discriminate|].
  intros _. cbn in IHcs. specialize (IHcs eq_refl).
  destruct (replaceFirstIn g cs); [discriminate|reflexivity].
Qed.

Lemma prependTriviaNode_text n s :
  singleSlot s -> hasToken n = true ->
  nodeText false (fst (prependTriviaNode n s)) = triviaText false s ++ nodeText false n.
Proof.
  intros Hs Hn. destruct (singleSlot_present _ Hs) as [->|Hp]; [reflexivity|].
  unfold prependTriviaNode. rewrite Hp. cbn [fst].
  destruct (replaceFirstToken (fun t => fst (prependTrivia t s)) n) as [n'|] eqn:Hr.
  - apply (replaceFirstToken_text false (fun t => fst (prependTrivia t s))); [|exact Hr].
    intros t. now apply prependTrivia_text.
  - unfold hasToken in Hn.
    rewrite (replaceFirstToken_found _ (fun t => t) _ Hr) in Hn. discriminate.
Qed.

(** The same for both readings of the text. *)
Lemma prependTrivia_text_any b t s :
  singleSlot s ->
  tokenText b (fst (prependTrivia t s)) = triviaText b s ++ tokenText b t.
Proof.
  intros [->|(run & _ & ->)]; [reflexivity|].
  destruct t as [k l r tr m]. cbn [prependTrivia fst triviaPresent triviaKind].
  cbn. destruct (m && negb b); cbn; now rewrite <- app_assoc.
Qed.

Lemma prependTriviaNode_text_any b n s :
  singleSlot s -> hasToken n = true ->
  nodeText b (fst (prependTriviaNode n s)) = triviaText b s ++ nodeText b n.
Proof.
  intros Hs Hn. destruct (singleSlot_present _ Hs) as [->|Hp]; [reflexivity|].
  unfold prependTriviaNode. rewrite Hp. cbn [fst].
  destruct (replaceFirstToken (fun t => fst (prependTrivia t s)) n) as [n'|] eqn:Hr.
  - apply (replaceFirstToken_text b (fun t => fst (prependTrivia t s))); [|exact Hr].
    intros t. now apply prependTrivia_text_any.
  - unfold hasToken in Hn.
    rewrite (replaceFirstToken_found _ (fun t => t) _ Hr) in Hn. discriminate.
Qed.

(** A missing token built on a lexed token writes nothing. *)
Lemma missing_lexed_text k l trs :
  Forall (fun tr => triviaKind tr <> TriviaKind.SkippedTokens) trs ->
  tokenText false (mkToken k l [] trs true) = [].
Proof.
  intros H. cbn. rewrite app_nil_r.
  induction H as [|x trs Hx _ IH]; [reflexivity|].
  rewrite IH, app_nil_r. destruct x; try reflexivity.
  now contradiction Hx.
Qed.

Lemma lexed_endOfFileToken : lexed endOfFileToken.
Proof. split; [reflexivity|constructor]. Qed.

(** A lexed token writes the same text under both readings. *)
Lemma lexed_text b t : lexed t -> tokenText b t = tokenText true t.
Proof.
  destruct t as [k l r trs m]. intros [Hm Htr]. cbn in Hm, Htr. subst m.
  cbn. f_equal.
  induction Htr as [|x trs Hx _ IH]; [reflexivity|].
  rewrite IH. f_equal. destruct x; try reflexivity. now contradiction Hx.
Qed.

Lemma lexed_tokensText b ts :
  Forall lexed ts -> tokensText b ts = tokensText true ts.
Proof.
  unfold tokensText. induction 1 as [|t ts Ht _ IH]; [reflexivity|].
  cbn [flat_map]. now rewrite IH, (lexed_text b t Ht).
Qed.

Lemma lexed_currentToken p : Forall lexed (window p) -> lexed (currentToken p).
Proof.
  unfold currentToken. destruct (window p); intros H.
  - exact lexed_endOfFileToken.
  - now inversion H.
Qed.

(** What [expect] returns writes exactly the tokens it consumed. *)
Lemma expect_text k p t p' :
  Forall lexed (window p) ->
  expect k p = Some (t, p') ->
  exists consumed,
    window p = consumed ++ window p'
    /\ tokenText false t = tokensText false consumed
    /\ (kind (currentToken p) = k -> window p <> [] -> consumed <> [])
    /\ (kind (currentToken p) <> k -> window p' = window p).
Proof.
  intros Hlex Hrun.
  destruct (expect_run k p) as (t0 & p0 & Hrun0 & Hcase).
  rewrite Hrun in Hrun0. inversion Hrun0. subst t0 p0. clear Hrun0.
  destruct Hcase as [(Hk & -> & ->)|(Hk & -> & ->)].
  - destruct (window p) as [|t rest] eqn:Hw.
    + exists []. rewrite (currentToken_nil _ Hw) in *. cbn.
      repeat split; auto; intros; congruence.
    + exists [t]. rewrite (currentToken_cons _ _ _ Hw) in *. cbn [window tl app].
      unfold tokensText. cbn [flat_map]. rewrite app_nil_r.
      repeat split; auto; intros; congruence.
  - exists []. cbn [window app]. split; [reflexivity|].
    split; [|split; [congruence|reflexivity]].
    apply missing_lexed_text. exact (proj2 (lexed_currentToken _ Hlex)).
Qed.

(* ------------------------------------------------------------------ *)
(** ** parseSeparatedList returns and loses nothing *)

(** Here [expect] is the one modelled from the specification, the input is
    lexed, and the text is read with a token flagged as missing writing only
    the skipped tokens prepended to it, so that nothing depends on the trivia
    such a token is given. *)

Lemma lexed_suffix (consumed rest : list Token) :
  Forall lexed (consumed ++ rest) -> Forall lexed rest.
Proof. intros H. now apply Forall_app in H. Qed.

Section ParseSeparatedListRuns.

Variable IsExpected : TokenKind.t -> bool.
Variable IsEnd : TokenKind.t -> bool.
Variable parseItem : bool -> Parse SyntaxNode.
Variable closeKind : TokenKind.t.
Variable separatorKind : TokenKind.t.
Variable c : DiagCode.t.

Hypothesis item_total : itemParserTotal parseItem.
Hypothesis item_lossless : itemParserLossless parseItem.
Hypothesis item_progress :
  itemParserProgress IsExpected IsEnd separatorKind parseItem.
Hypothesis end_of_file_ends :
  IsExpected TokenKind.EndOfFile = true -> IsEnd TokenKind.EndOfFile = true.

Local Abbreviation sepBody := (separatorBody IsExpected IsEnd parseItem separatorKind c).
Local Abbreviation sepLoop := (separatorLoop IsExpected IsEnd parseItem separatorKind c).
Local Abbreviation outerBody := (itemBody IsExpected IsEnd parseItem separatorKind c).
Local Abbreviation outerLoop := (itemLoop IsExpected IsEnd parseItem separatorKind c).

Lemma separatorBody_total buffer s p :
  exists r p', sepBody buffer s p = Some (r, p').
Proof.
  unfold separatorBody. unfold bind at 1. unfold peek at 1.
  destruct (IsEnd (kind (currentToken p))); [unfold ret; eexists _, _; reflexivity|].
  destruct (IsExpected (kind (currentToken p))).
  - unfold bind at 1.
    destruct (expect_run separatorKind p) as (t & p1 & -> & _).
    cbn [prependTrivia]. unfold bind.
    destruct (parseItem false p1) as [[item p2]|] eqn:E;
      [unfold ret; eexists _, _; reflexivity|].
    exfalso. exact (item_total _ _ E).
  - unfold bind.
    destruct (skipBadTokens_run IsExpected IsEnd c p) as (consumed & p2 & -> & _).
    destruct (IsExpected (kind (currentToken p2))); unfold ret; eexists _, _; reflexivity.
Qed.

Lemma window_nonempty_when_item p :
  IsExpected (kind (currentToken p)) = true ->
  IsEnd (kind (currentToken p)) = false ->
  window p <> [].
Proof.
  intros Hexp Hend Hw. rewrite (currentToken_nil _ Hw) in Hexp, Hend.
  cbn in Hexp, Hend. rewrite (end_of_file_ends Hexp) in Hend. discriminate.
Qed.

(** The inner loop ends within the budget of one pass per pending token,
    and what it appends writes exactly what it consumed. *)
Lemma separatorLoop_run fuel :
  forall buffer s p,
    Forall lexed (window p) ->
    slotReady IsExpected s p ->
    List.length (window p) < fuel ->
    exists buffer' s' p' consumed,
      sepLoop fuel buffer s p = Some ((buffer', s'), p')
      /\ singleSlot s'
      /\ window p = consumed ++ window p'
      /\ bufferText false buffer' ++ triviaText false s'
         = bufferText false buffer ++ triviaText false s ++ tokensText false consumed.
Proof.
  induction fuel as [|fuel IH]; intros buffer s p Hlex Hslot Hlen; [lia|].
  cbn [separatorLoop]. unfold bind at 1.
  destruct (separatorBody_total buffer s p) as (r & p1 & Hbody).
  rewrite Hbody.
  pose proof Hbody as Hcases. apply separatorBody_cases in Hcases.
  destruct Hcases
    as [(Hend & -> & ->)|[(Hend & Hexp & sep & p0 & item & Hsep & Hitem & ->)
                         |(Hend & Hexp & consumed & Hwin & _ & _ & Hcase)]].
  - (* the end token *)
    exists buffer, s, p, []. cbn [app]. rewrite app_nil_r.
    repeat split; auto.
    destruct Hslot as [->|[(run & Hrun & ->) _]]; [now left|right; eauto].
  - (* a separator and an item *)
    assert (Hs : singleSlot s).
    { destruct Hslot as [->|[(run & Hrun & ->) _]]; [now left|right; eauto]. }
    destruct (expect_text _ _ _ _ Hlex Hsep) as (c1 & Hw1 & Ht1 & Hmatch & Hmiss).
    assert (Hlex0 : Forall lexed (window p0)).
    { rewrite Hw1 in Hlex. exact (lexed_suffix _ _ Hlex). }
    destruct (item_lossless _ _ _ _ Hlex0 Hitem) as (_ & c2 & Hw2 & Ht2).
    assert (Hshort : List.length (window p1) < List.length (window p)).
    { destruct (TokenKind.eq_dec (kind (currentToken p)) separatorKind) as [Heq|Hne].
      - specialize (Hmatch Heq (window_nonempty_when_item _ Hexp Hend)).
        rewrite Hw1, Hw2, !length_app. destruct c1; [congruence|cbn; lia].
      - specialize (Hmiss Hne).
        assert (Hcur : currentToken p0 = currentToken p)
          by (unfold currentToken; now rewrite Hmiss).
        rewrite <- Hmiss. apply (item_progress p0 item); rewrite ?Hcur; auto. }
    destruct (IH (buffer ++ [TokenElem (fst (prependTrivia sep s)); NodeElem item])
                 TriviaDefault p1)
      as (b' & s' & p' & c3 & Hrun & Hs' & Hw3 & Ht3).
    { rewrite Hw2 in Hlex0. exact (lexed_suffix _ _ Hlex0). }
    { now left. }
    { lia. }
    exists b', s', p', (c1 ++ c2 ++ c3). rewrite Hrun.
    split; [reflexivity|]. split; [exact Hs'|]. split.
    + rewrite Hw1, Hw2, Hw3. now rewrite !app_assoc.
    + rewrite Ht3, bufferText_app. unfold bufferText at 2. cbn [flat_map elemText].
      rewrite (prependTrivia_text sep _ Hs), Ht1, Ht2, !tokensText_app.
      cbn [triviaText]. rewrite !app_nil_r, <- !app_assoc. reflexivity.
  - (* bad tokens: the accumulator is empty, so nothing is overwritten *)
    assert (Hs : s = TriviaDefault).
    { destruct Hslot as [->|[_ Hexp']]; [reflexivity|congruence]. }
    subst s. cbn [triviaText app].
    destruct Hcase as [(-> & Hexp')|(-> & Hexp' & Hne)].
    + exists buffer, (skippedTrivia consumed), p1, consumed.
      repeat split; auto using singleSlot_skippedTrivia.
      now rewrite triviaText_skippedTrivia.
    + destruct (IH buffer (skippedTrivia consumed) p1)
        as (b' & s' & p' & c3 & Hrun & Hs' & Hw3 & Ht3).
      { rewrite Hwin in Hlex. exact (lexed_suffix _ _ Hlex). }
      { right. split; [|exact Hexp'].
        destruct consumed as [|t ts]; [congruence|].
        exists (t :: ts). split; [discriminate|reflexivity]. }
      { rewrite Hwin, length_app in Hlen. destruct consumed; [congruence|cbn in Hlen; lia]. }
      exists b', s', p', (consumed ++ c3). rewrite Hrun.
      split; [reflexivity|]. split; [exact Hs'|]. split.
      * rewrite Hwin, Hw3. now rewrite app_assoc.
      * rewrite Ht3, triviaText_skippedTrivia, tokensText_app. reflexivity.
Qed.

(** The outer loop. *)
Lemma itemLoop_run fuel :
  forall buffer s p,
    Forall lexed (window p) ->
    slotReady IsExpected s p ->
    List.length (window p) + 1 < fuel ->
    exists buffer' s' p' consumed,
      outerLoop fuel (currentToken p) buffer s p = Some ((buffer', s'), p')
      /\ singleSlot s'
      /\ window p = consumed ++ window p'
      /\ bufferText false buffer' ++ triviaText false s'
         = bufferText false buffer ++ triviaText false s ++ tokensText false consumed.
Proof.
  induction fuel as [|fuel IH]; intros buffer s p Hlex Hslot Hlen; [lia|].
  cbn [itemLoop]. unfold bind at 1. unfold itemBody.
  destruct (IsExpected (kind (currentToken p))) eqn:Hexp.
  - (* the first item, then the inner loop *)
    assert (Hs : singleSlot s).
    { destruct Hslot as [->|[(run & Hrun & ->) _]]; [now left|right; eauto]. }
    unfold bind at 1.
    destruct (parseItem true p) as [[item p1]|] eqn:Hitem;
      [|exfalso; exact (item_total _ _ Hitem)].
    destruct (item_lossless _ _ _ _ Hlex Hitem) as (Htok & c1 & Hw1 & Ht1).
    pose proof (prependTriviaNode_text item s Hs Htok) as Hpre.
    destruct (prependTriviaNode item s) as [item' s1] eqn:Hnode.
    assert (Hs1 : s1 = TriviaDefault).
    { change s1 with (snd (item', s1)). rewrite <- Hnode. reflexivity. }
    subst s1. cbn [fst] in Hpre.
    destruct (separatorLoop_run fuel (buffer ++ [NodeElem item']) TriviaDefault p1)
      as (b' & s' & p' & c2 & Hrun & Hs' & Hw2 & Ht2).
    { rewrite Hw1 in Hlex. exact (lexed_suffix _ _ Hlex). }
    { now left. }
    { rewrite Hw1, length_app in Hlen. lia. }
    unfold bind. rewrite Hrun. cbn.
    exists b', s', p', (c1 ++ c2).
    split; [reflexivity|]. split; [exact Hs'|]. split.
    + rewrite Hw1, Hw2. now rewrite app_assoc.
    + rewrite Ht2, bufferText_app. unfold bufferText at 2. cbn [flat_map elemText].
      rewrite Hpre, Ht1, tokensText_app.
      cbn [triviaText]. rewrite !app_nil_r, <- !app_assoc. reflexivity.
  - (* bad tokens in front of the first item *)
    assert (Hs : s = TriviaDefault).
    { destruct Hslot as [->|[_ Hexp']]; [reflexivity|congruence]. }
    subst s. cbn [triviaText app].
    destruct (skipBadTokens_run IsExpected IsEnd c p)
      as (consumed & p1 & Hrun & Hwin & _ & _ & _).
    unfold bind at 1. rewrite Hrun.
    destruct (IsExpected (kind (currentToken p1))) eqn:Hexp1.
    + unfold bind, peek. cbn [ret].
      destruct (IH buffer (skippedTrivia consumed) p1)
        as (b' & s' & p' & c3 & Hloop & Hs' & Hw3 & Ht3).
      { rewrite Hwin in Hlex. exact (lexed_suffix _ _ Hlex). }
      { right. split; [|exact Hexp1].
        destruct consumed as [|t ts].
        - cbn in Hwin. unfold currentToken in Hexp, Hexp1.
          rewrite Hwin in Hexp. congruence.
        - exists (t :: ts). split; [discriminate|reflexivity]. }
      { rewrite Hwin, length_app in Hlen. destruct consumed as [|t ts]; [|cbn in Hlen; lia].
        cbn in Hwin. unfold currentToken in Hexp, Hexp1.
        rewrite Hwin in Hexp. congruence. }
      exists b', s', p', (consumed ++ c3). rewrite Hloop.
      split; [reflexivity|]. split; [exact Hs'|]. split.
      * rewrite Hwin, Hw3. now rewrite app_assoc.
      * rewrite Ht3, triviaText_skippedTrivia, tokensText_app. reflexivity.
    + cbn. exists buffer, (skippedTrivia consumed), p1, consumed.
      repeat split; auto using singleSlot_skippedTrivia.
      now rewrite triviaText_skippedTrivia.
Qed.

(** The overload that fills a buffer. *)
Lemma parseSeparatedListBuffer_run fuel buffer p :
  Forall lexed (window p) ->
  List.length (window p) + 1 < fuel ->
  exists buffer' closeToken p' consumed,
    parseSeparatedListBuffer IsExpected IsEnd parseItem closeKind separatorKind c
                             fuel buffer p
    = Some ((buffer', closeToken), p')
    /\ window p = consumed ++ window p'
    /\ bufferText false buffer' ++ tokenText false closeToken
       = bufferText false buffer ++ tokensText false consumed.
Proof.
  intros Hlex Hlen. unfold parseSeparatedListBuffer.
  unfold bind at 1. unfold peek at 1.
  assert (Hloop : exists b' s' p1 c1,
             (if negb (IsEnd (kind (currentToken p)))
              then outerLoop fuel (currentToken p) buffer TriviaDefault
              else ret (buffer, TriviaDefault)) p = Some ((b', s'), p1)
             /\ singleSlot s'
             /\ window p = c1 ++ window p1
             /\ bufferText false b' ++ triviaText false s'
                = bufferText false buffer ++ tokensText false c1).
  { destruct (IsEnd (kind (currentToken p))); cbn [negb].
    - exists buffer, TriviaDefault, p, []. cbn. rewrite !app_nil_r.
      repeat split. now left.
    - destruct (itemLoop_run fuel buffer TriviaDefault p Hlex (or_introl eq_refl) Hlen)
        as (b' & s' & p1 & c1 & Hrun & Hrest).
      exists b', s', p1, c1. split; [exact Hrun|exact Hrest]. }
  destruct Hloop as (b' & s' & p1 & c1 & Hrun & Hs' & Hw1 & Ht1).
  unfold bind at 1. rewrite Hrun.
  destruct (expect_run closeKind p1) as (t & p2 & Hclose & _).
  unfold bind. rewrite Hclose. cbn [ret].
  assert (Hlex1 : Forall lexed (window p1)).
  { rewrite Hw1 in Hlex. exact (lexed_suffix _ _ Hlex). }
  destruct (expect_text _ _ _ _ Hlex1 Hclose) as (c2 & Hw2 & Ht2 & _).
  exists b', (fst (prependTrivia t s')), p2, (c1 ++ c2).
  split; [reflexivity|]. split.
  - rewrite Hw1, Hw2. now rewrite app_assoc.
  - rewrite (prependTrivia_text t _ Hs'), Ht2, tokensText_app.
    rewrite app_assoc, Ht1, <- app_assoc. reflexivity.
Qed.

End ParseSeparatedListRuns.

(** With the [expect] modelled from the specification, whose missing token
    carries the leading trivia of the token it stands in front of: on lexed
    input the walk of the result writes the source exactly when a token
    flagged as missing writes only the skipped tokens prepended to it. *)
Lemma round_trip_with_modelled_expect
        (IsExpected IsEnd : TokenKind.t -> bool)
        (parseItem : bool -> Parse SyntaxNode)
        (closeKind separatorKind : TokenKind.t) (c : DiagCode.t)
        (fuel : nat) (openKind : TokenKind.t) (p : ParserBase) :
  itemParserTotal parseItem ->
  itemParserLossless parseItem ->
  itemParserProgress IsExpected IsEnd separatorKind parseItem ->
  (IsExpected TokenKind.EndOfFile = true -> IsEnd TokenKind.EndOfFile = true) ->
  Forall lexed (window p) ->
  List.length (window p) + 2 <= fuel ->
  exists openToken list closeToken p',
    parseSeparatedList IsExpected IsEnd parseItem closeKind separatorKind c
                       fuel openKind p
    = Some ((openToken, list, closeToken), p')
    /\ tokenText false openToken ++ bufferText false list
       ++ tokenText false closeToken ++ pendingText true p'
       = pendingText true p.
Proof.
  intros Htotal Hlossless Hprogress Heof Hlex Hfuel.
  unfold parseSeparatedList. unfold bind at 1.
  destruct (expect_run openKind p) as (openToken & p1 & Hopen & _).
  rewrite Hopen.
  destruct (expect_text _ _ _ _ Hlex Hopen) as (c1 & Hw1 & Ht1 & _).
  assert (Hlex1 : Forall lexed (window p1)).
  { rewrite Hw1 in Hlex. exact (lexed_suffix _ _ Hlex). }
  destruct (parseSeparatedListBuffer_run IsExpected IsEnd parseItem closeKind
              separatorKind c Htotal Hlossless Hprogress Heof fuel [] p1 Hlex1)
    as (list & closeToken & p' & c2 & Hrun & Hw2 & Ht2).
  { rewrite Hw1, length_app in Hfuel. lia. }
  unfold bind. rewrite Hrun. cbn [ret].
  exists openToken, list, closeToken, p'. split; [reflexivity|].
  unfold pendingText. rewrite Hw1, Hw2, !tokensText_app.
  rewrite Hw1, Hw2 in Hlex.
  apply Forall_app in Hlex as [Hl1 Hl23]. apply Forall_app in Hl23 as [Hl2 _].
  rewrite <- (lexed_tokensText false c1 Hl1), <- (lexed_tokensText false c2 Hl2).
  rewrite Ht1. f_equal. rewrite app_assoc, Ht2. reflexivity.
Qed.

(** The name parser meets what the list recogniser asks of it. *)
Lemma parseName_total : itemParserTotal parseName.
Proof.
  intros first p. unfold parseName, bind.
  destruct (expect_run TokenKind.Identifier p) as (t & p1 & -> & _).
  discriminate.
Qed.

Lemma parseName_lossless : itemParserLossless parseName.
Proof.
  intros first p item p' Hlex. unfold parseName, bind.
  destruct (expect TokenKind.Identifier p) as [[t p1]|] eqn:Hrun; [|discriminate].
  intros [= <- <-]. split; [reflexivity|].
  destruct (expect_text _ _ _ _ Hlex Hrun) as (consumed & Hw & Ht & _).
  exists consumed. split; [exact Hw|].
  rewrite nodeText_node. unfold bufferText. cbn [flat_map elemText].
  now rewrite app_nil_r.
Qed.

Lemma parseName_progress :
  itemParserProgress isIdentifierOrComma isEndOfParenList TokenKind.Comma parseName.
Proof.
  intros p item p' Hexp _ Hsep. unfold parseName, bind.
  destruct (expect_run TokenKind.Identifier p) as (t & p1 & -> & Hcase).
  intros [= <- <-].
  destruct Hcase as [(Hk & _ & ->)|(Hk & _)].
  - cbn [window]. destruct (window p) as [|t0 rest] eqn:Hw; [|cbn; lia].
    rewrite (currentToken_nil _ Hw) in Hk. discriminate.
  - destruct (kind (currentToken p)); cbn in Hexp; congruence.
Qed.

(* ------------------------------------------------------------------ *)
(** ** The empty list *)

(** C3, as amended.  When the token after the open token ends the list, the
    loop is skipped whatever the budget: the result is the token
    [expect(openKind)] returns, an empty buffer and the token
    [expect(closeKind)] returns, and the only diagnostics are those of the two
    [expect] calls, so there is none when both tokens are present. *)
Theorem parseSeparatedList_empty_list
        (IsExpected IsEnd : TokenKind.t -> bool)
        (parseItem : bool -> Parse SyntaxNode)
        (closeKind separatorKind : TokenKind.t) (c : DiagCode.t)
        (fuel : nat) (openKind : TokenKind.t)
        (p : ParserBase) (openToken : Token) (p1 : ParserBase) :
  expect openKind p = Some (openToken, p1) ->
  IsEnd (kind (currentToken p1)) = true ->
  exists closeToken p2,
    expect closeKind p1 = Some (closeToken, p2)
    /\ parseSeparatedList IsExpected IsEnd parseItem closeKind separatorKind c
                          fuel openKind p
       = Some ((openToken, [], closeToken), p2)
    /\ diagnostics p2 =
       diagnostics p
       ++ (if TokenKind.eqb (kind (currentToken p)) openKind then []
           else [mkDiagnostic DiagCode.ExpectedToken (location (currentToken p))
                              [openKind]])
       ++ (if TokenKind.eqb (kind (currentToken p1)) closeKind then []
           else [mkDiagnostic DiagCode.ExpectedToken (location (currentToken p1))
                              [closeKind]]).
Proof.
  intros Hopen Hend.
  destruct (expect_run closeKind p1) as (closeToken & p2 & Hclose & Hc2).
  exists closeToken, p2. split; [exact Hclose|]. split.
  - unfold parseSeparatedList. unfold bind at 1. rewrite Hopen.
    unfold parseSeparatedListBuffer, bind, peek.
    rewrite Hend. cbn [negb]. unfold ret. rewrite Hclose. reflexivity.
  - destruct (expect_run openKind p) as (t & p0 & Hopen' & Hc1).
    rewrite Hopen in Hopen'. inversion Hopen'. subst t p0. clear Hopen'.
    destruct Hc1 as [(Hk1 & _ & ->)|(Hk1 & _ & ->)];
      destruct Hc2 as [(Hk2 & _ & ->)|(Hk2 & _ & ->)];
      cbn [diagnostics window] in *;
      repeat match goal with
             | H : _ = _ |- _ => apply TokenKind.eqb_eq in H; rewrite H
             | H : _ <> _ |- _ => apply TokenKind.eqb_neq in H; rewrite H
             end;
      rewrite ?app_nil_r, <- ?app_assoc; reflexivity.
Qed.

(** ["()"] : no diagnostic. *)
Lemma parseSeparatedList_empty_list_witness :
  let p := startOn source_empty in
  exists openToken p1 closeToken p2,
    expect TokenKind.OpenParenthesis p = Some (openToken, p1)
    /\ isEndOfParenList (kind (currentToken p1)) = true
    /\ expect TokenKind.CloseParenthesis p1 = Some (closeToken, p2)
    /\ parseNameList 0 p = Some ((openToken, [], closeToken), p2)
    /\ diagnostics p2 = [].
Proof.
  cbn zeta.
  destruct (expect TokenKind.OpenParenthesis (startOn source_empty))
    as [[openToken p1]|] eqn:Hopen; [|discriminate].
  assert (Hend : isEndOfParenList (kind (currentToken p1)) = true).
  { vm_compute in Hopen. inversion Hopen. reflexivity. }
  destruct (parseSeparatedList_empty_list
              isIdentifierOrComma isEndOfParenList parseName
              TokenKind.CloseParenthesis TokenKind.Comma (DiagCode.Other 7)
              0 TokenKind.OpenParenthesis (startOn source_empty) openToken p1
              Hopen Hend)
    as (closeToken & p2 & Hclose & Hrun & Hdiag).
  exists openToken, p1, closeToken, p2.
  split; [reflexivity|]. split; [exact Hend|]. split; [exact Hclose|].
  split; [exact Hrun|].
  rewrite Hdiag. vm_compute in Hopen. inversion Hopen. reflexivity.
Defined.

(** C3, as stated, fails on ["(;"] with a semicolon among the end tokens: the
    token after the open token ends the list, but it is not the close token,
    so [expect] returns a missing close token and raises a diagnostic. *)
Lemma empty_list_with_other_end_token_has_diagnostic :
  let p := startOn source_open_semicolon in
  exists openToken p1 closeToken p2,
    expect TokenKind.OpenParenthesis p = Some (openToken, p1)
    /\ isEndOfParenList (kind (currentToken p1)) = true
    /\ parseNameList 0 p = Some ((openToken, [], closeToken), p2)
    /\ isMissing closeToken = true
    /\ diagnostics p2
       = [mkDiagnostic DiagCode.ExpectedToken 1 [TokenKind.CloseParenthesis]]
    /\ diagnostics p2 <> diagnostics p.
Proof.
  cbn zeta. eexists _, _, _, _.
  split; [vm_compute; reflexivity|].
  split; [reflexivity|].
  split; [vm_compute; reflexivity|].
  split; [reflexivity|].
  split; [reflexivity|discriminate].
Qed.

(* ------------------------------------------------------------------ *)
(** ** The accumulator of parseSeparatedList *)

Lemma slotReady_single IsExpected s p : slotReady IsExpected s p -> singleSlot s.
Proof. intros [->|[(run & Hrun & ->) _]]; [now left|right; eauto]. Qed.

Lemma slotReady_unexpected IsExpected s p :
  slotReady IsExpected s p ->
  IsExpected (kind (currentToken p)) = false ->
  s = TriviaDefault.
Proof. intros [->|[_ Hexp]] H; [reflexivity|congruence]. Qed.

Lemma slotReady_skipped IsExpected consumed p :
  consumed <> [] ->
  IsExpected (kind (currentToken p)) = true ->
  slotReady IsExpected (skippedTrivia consumed) p.
Proof.
  intros Hne Hexp. right. split; [|exact Hexp].
  destruct consumed as [|t ts]; [congruence|].
  exists (t :: ts). split; [discriminate|reflexivity].
Qed.

Section Accumulator.

Variable IsExpected : TokenKind.t -> bool.
Variable IsEnd : TokenKind.t -> bool.
Variable parseItem : bool -> Parse SyntaxNode.
Variable closeKind : TokenKind.t.
Variable separatorKind : TokenKind.t.
Variable c : DiagCode.t.

Local Abbreviation sepBody := (separatorBody IsExpected IsEnd parseItem separatorKind c).
Local Abbreviation sepLoop := (separatorLoop IsExpected IsEnd parseItem separatorKind c).
Local Abbreviation outerBody := (itemBody IsExpected IsEnd parseItem separatorKind c).
Local Abbreviation outerLoop := (itemLoop IsExpected IsEnd parseItem separatorKind c).

Lemma separatorBody_keeps buffer s p r p' :
  slotReady IsExpected s p ->
  sepBody buffer s p = Some (r, p') ->
  separatorPassKeeps IsExpected buffer s r p'.
Proof.
  intros Hslot Hbody. apply separatorBody_cases in Hbody.
  destruct Hbody
    as [(Hend & -> & ->)|[(Hend & Hexp & sep & p0 & item & Hsep & Hitem & ->)
                         |(Hend & Hexp & consumed & Hwin & _ & _ & Hcase)]];
    cbn [separatorPassKeeps].
  - split; [reflexivity|]. split; [exact (slotReady_single _ _ _ Hslot)|auto].
  - split; [now left|]. left. exists sep, item. auto.
  - pose proof (slotReady_unexpected _ _ _ Hslot Hexp) as ->.
    destruct Hcase as [(-> & _)|(-> & Hexp' & Hne)]; cbn [separatorPassKeeps].
    + split; [reflexivity|]. split; [apply singleSlot_skippedTrivia|congruence].
    + split; [now apply slotReady_skipped|]. right. auto.
Qed.

(** Whatever the inner loop returns, it hands on at most one trivium and
    has only appended to the buffer. *)
Lemma separatorLoop_keeps fuel :
  forall buffer s p buffer' s' p',
    slotReady IsExpected s p ->
    sepLoop fuel buffer s p = Some ((buffer', s'), p') ->
    singleSlot s' /\ exists rest, buffer' = buffer ++ rest.
Proof.
  induction fuel as [|fuel IH]; intros buffer s p buffer' s' p' Hslot; [discriminate|].
  cbn [separatorLoop]. unfold bind at 1.
  destruct (sepBody buffer s p) as [[r p1]|] eqn:Hbody; [|discriminate].
  pose proof (separatorBody_keeps _ _ _ _ _ Hslot Hbody) as Hkeep.
  destruct r as [[b1 s1]|[b1 s1]]; cbn [separatorPassKeeps] in Hkeep.
  - intros [= <- <- <-]. destruct Hkeep as (-> & Hs & _).
    split; [exact Hs|]. exists []. now rewrite app_nil_r.
  - intros Hrun. destruct Hkeep as (Hready & Hbuf).
    destruct (IH _ _ _ _ _ _ Hready Hrun) as (Hs & rest & ->).
    split; [exact Hs|].
    destruct Hbuf as [(sep & item & -> & _)|(_ & ->)].
    + eexists. rewrite <- app_assoc. reflexivity.
    + eauto.
Qed.

Lemma itemBody_keeps fuel buffer s p r p' :
  slotReady IsExpected s p ->
  outerBody fuel (currentToken p) buffer s p = Some (r, p') ->
  itemPassKeeps IsExpected buffer s r p'.
Proof.
  intros Hslot Hbody. apply itemBody_cases in Hbody.
  destruct Hbody
    as [(Hexp & item & p1 & b' & s' & Hitem & Hloop & ->)
       |(Hexp & action & consumed & Hskip & Hwin & Hcase)];
    cbn [itemPassKeeps].
  - destruct (separatorLoop_keeps _ _ _ _ _ _ _ (or_introl eq_refl) Hloop)
      as (Hs & rest & ->).
    split; [exact Hs|]. left. exists item, rest.
    rewrite <- app_assoc. reflexivity.
  - pose proof (slotReady_unexpected _ _ _ Hslot Hexp) as ->.
    destruct Hcase as [(-> & ->)|(-> & -> & Hexp')]; cbn [itemPassKeeps].
    + split; [apply singleSlot_skippedTrivia|]. right. auto.
    + split; [reflexivity|]. split; [|auto].
      apply slotReady_skipped; [|exact Hexp'].
      intros ->. cbn in Hwin. unfold currentToken in Hexp, Hexp'.
      rewrite Hwin in Hexp. congruence.
Qed.

Lemma itemLoop_keeps fuel :
  forall buffer s p buffer' s' p',
    slotReady IsExpected s p ->
    outerLoop fuel (currentToken p) buffer s p = Some ((buffer', s'), p') ->
    singleSlot s'.
Proof.
  induction fuel as [|fuel IH]; intros buffer s p buffer' s' p' Hslot; [discriminate|].
  cbn [itemLoop]. unfold bind at 1.
  destruct (outerBody fuel (currentToken p) buffer s p) as [[r p1]|] eqn:Hbody;
    [|discriminate].
  pose proof (itemBody_keeps _ _ _ _ _ _ Hslot Hbody) as Hkeep.
  destruct r as [[[cur b1] s1]|[[cur b1] s1]]; cbn [itemPassKeeps] in Hkeep.
  - intros [= <- <- <-]. exact (proj1 Hkeep).
  - intros Hrun. destruct Hkeep as (-> & Hready & _ & ->).
    exact (IH _ _ _ _ _ _ Hready Hrun).
Qed.

(** The close token receives what is left in the accumulator. *)
Lemma parseSeparatedListBuffer_close fuel buffer p buffer' closeToken p' :
  parseSeparatedListBuffer IsExpected IsEnd parseItem closeKind separatorKind c
                           fuel buffer p
  = Some ((buffer', closeToken), p') ->
  exists residual token p1,
    ((IsEnd (kind (currentToken p)) = true
      /\ residual = TriviaDefault /\ buffer' = buffer /\ p1 = p)
     \/ (IsEnd (kind (currentToken p)) = false
         /\ outerLoop fuel (currentToken p) buffer TriviaDefault p
            = Some ((buffer', residual), p1)))
    /\ singleSlot residual
    /\ expect closeKind p1 = Some (token, p')
    /\ closeToken = fst (prependTrivia token residual).
Proof.
  unfold parseSeparatedListBuffer. unfold bind at 1. unfold peek at 1.
  unfold bind at 1.
  destruct (IsEnd (kind (currentToken p))) eqn:Hend; cbn [negb].
  - cbn [ret]. unfold bind.
    destruct (expect closeKind p) as [[token p2]|] eqn:Hclose; [|discriminate].
    intros [= <- <- <-]. exists TriviaDefault, token, p.
    split; [left; auto|]. split; [now left|]. auto.
  - destruct (outerLoop fuel (currentToken p) buffer TriviaDefault p)
      as [[[b1 s1] p1]|] eqn:Hloop; [|discriminate].
    unfold bind.
    destruct (expect closeKind p1) as [[token p2]|] eqn:Hclose; [|discriminate].
    intros [= <- <- <-]. exists s1, token, p1.
    split; [right; auto|].
    split; [exact (itemLoop_keeps _ _ _ _ _ _ _ (or_introl eq_refl) Hloop)|auto].
Qed.

End Accumulator.

(** C4: the accumulator of [parseSeparatedList] holds at most one pending
    [SkippedTokens] trivium, and every pending trivium is attached once.  With
    an item parser that returns, is lossless and makes progress:
    - a pass through the inner loop always returns.  In front of an end token
      it breaks and leaves the pending trivium for the close token; in front
      of a token that begins an item it prepends the pending trivium to the
      separator [expect] returns, clears the accumulator, and appends the item
      as [parseItem] returned it; otherwise nothing was pending, and the run
      [skipBadTokens] consumed becomes the pending trivium, in front of a
      token that begins an item if the loop goes round again;
    - a pass through the outer loop, in front of a token that begins an item,
      prepends the pending trivium to the node [parseItem] returned, which
      holds a token, and enters the inner loop with an empty accumulator;
      otherwise nothing was pending and the run skipped becomes pending;
    - the whole list returns within a budget of one pass per token; the close
      token is the token [expect] returned with what was left in the
      accumulator prepended; and the elements appended and the close token
      write, in order, every token consumed exactly once, the skipped tokens
      through the [SkippedTokens] trivia they were put in;
    - prepending puts a run in front of the leading trivia of a token, or of
      the left-most token of a node, and clears the accumulator; prepending
      the empty trivium changes nothing. *)
Theorem skippedTokens_accumulator_discipline
        (IsExpected IsEnd : TokenKind.t -> bool)
        (parseItem : bool -> Parse SyntaxNode)
        (closeKind separatorKind : TokenKind.t) (c : DiagCode.t) :
  itemParserTotal parseItem ->
  itemParserLossless parseItem ->
  itemParserProgress IsExpected IsEnd separatorKind parseItem ->
  (IsExpected TokenKind.EndOfFile = true -> IsEnd TokenKind.EndOfFile = true) ->
  (forall buffer s p,
      slotReady IsExpected s p ->
      exists r p',
        separatorBody IsExpected IsEnd parseItem separatorKind c buffer s p
        = Some (r, p')
        /\ (if IsEnd (kind (currentToken p)) then
              r = Break (buffer, s) /\ p' = p
            else if IsExpected (kind (currentToken p)) then
              exists sep p1 item,
                expect separatorKind p = Some (sep, p1)
                /\ parseItem false p1 = Some (item, p')
                /\ r = Next (buffer ++ [TokenElem (fst (prependTrivia sep s));
                                        NodeElem item], TriviaDefault)
            else
              s = TriviaDefault
              /\ exists consumed,
                  window p = consumed ++ window p'
                  /\ if IsExpected (kind (currentToken p'))
                     then consumed <> []
                          /\ r = Next (buffer, TriviaSkipped consumed)
                     else r = Break (buffer, skippedTrivia consumed))
        /\ match r with
           | Next (_, s') => slotReady IsExpected s' p'
           | Break (_, s') => singleSlot s'
           end)
  /\ (forall fuel buffer s p,
         Forall lexed (window p) ->
         slotReady IsExpected s p ->
         if IsExpected (kind (currentToken p)) then
           exists item p1,
             parseItem true p = Some (item, p1)
             /\ hasToken item = true
             /\ itemBody IsExpected IsEnd parseItem separatorKind c
                         fuel (currentToken p) buffer s p
                = match separatorLoop IsExpected IsEnd parseItem separatorKind c fuel
                          (buffer ++ [NodeElem (fst (prependTriviaNode item s))])
                          TriviaDefault p1
                  with
                  | Some ((buffer', s'), p') =>
                      Some (Break (currentToken p, buffer', s'), p')
                  | None => None
                  end
         else
           s = TriviaDefault
           /\ exists consumed p',
               window p = consumed ++ window p'
               /\ itemBody IsExpected IsEnd parseItem separatorKind c
                           fuel (currentToken p) buffer s p
                  = Some (if IsExpected (kind (currentToken p'))
                          then Next (currentToken p', buffer, TriviaSkipped consumed)
                          else Break (currentToken p, buffer, skippedTrivia consumed),
                          p')
               /\ (IsExpected (kind (currentToken p')) = true -> consumed <> []))
  /\ (forall fuel buffer p,
         Forall lexed (window p) ->
         List.length (window p) + 1 < fuel ->
         exists buffer' residual token p1 p' consumed,
           parseSeparatedListBuffer IsExpected IsEnd parseItem closeKind
                                    separatorKind c fuel buffer p
           = Some ((buffer', fst (prependTrivia token residual)), p')
           /\ singleSlot residual
           /\ expect closeKind p1 = Some (token, p')
           /\ window p = consumed ++ window p'
           /\ bufferText false buffer'
              ++ tokenText false (fst (prependTrivia token residual))
              = bufferText false buffer ++ tokensText false consumed)
  /\ (forall token run,
         prependTrivia token (TriviaSkipped run)
         = (withTrivia token (TriviaSkipped run :: trivia token), TriviaDefault))
  /\ (forall token, prependTrivia token TriviaDefault = (token, TriviaDefault))
  /\ (forall item run,
         hasToken item = true ->
         exists item',
           replaceFirstToken
             (fun t => withTrivia t (TriviaSkipped run :: trivia t)) item
           = Some item'
           /\ prependTriviaNode item (TriviaSkipped run) = (item', TriviaDefault))
  /\ (forall item, prependTriviaNode item TriviaDefault = (item, TriviaDefault)).
Proof.
  intros Htotal Hlossless Hprogress Heof.
  split; [|split; [|split; [|split; [|split; [|split]]]]].
  - (* the inner loop *)
    intros buffer s p Hslot.
    destruct (separatorBody_total IsExpected IsEnd parseItem separatorKind c
                Htotal buffer s p) as (r & p' & Hbody).
    exists r, p'. split; [exact Hbody|].
    pose proof (separatorBody_keeps IsExpected IsEnd parseItem separatorKind c
                  _ _ _ _ _ Hslot Hbody) as Hkeep.
    apply separatorBody_cases in Hbody.
    destruct Hbody
      as [(Hend & -> & ->)|[(Hend & Hexp & sep & p0 & item & Hsep & Hitem & ->)
                           |(Hend & Hexp & consumed & Hwin & _ & _ & Hcase)]];
      rewrite Hend; try rewrite Hexp.
    + split; [auto|]. exact (slotReady_single _ _ _ Hslot).
    + split; [exists sep, p0, item; auto|]. now left.
    + pose proof (slotReady_unexpected _ _ _ Hslot Hexp) as ->.
      destruct Hcase as [(-> & Hexp')|(-> & Hexp' & Hne)]; rewrite Hexp'.
      * split; [|apply singleSlot_skippedTrivia].
        split; [reflexivity|]. exists consumed. auto.
      * split; [|now apply slotReady_skipped].
        split; [reflexivity|]. exists consumed. split; [exact Hwin|].
        split; [exact Hne|]. destruct consumed; [congruence|reflexivity].
  - (* the outer loop *)
    intros fuel buffer s p Hlex Hslot. unfold itemBody.
    destruct (IsExpected (kind (currentToken p))) eqn:Hexp.
    + destruct (parseItem true p) as [[item p1]|] eqn:Hitem;
        [|exfalso; exact (Htotal _ _ Hitem)].
      exists item, p1. split; [reflexivity|].
      split; [exact (proj1 (Hlossless _ _ _ _ Hlex Hitem))|].
      unfold bind at 1. rewrite Hitem. cbn [prependTriviaNode]. unfold bind.
      cbn [fst].
      match goal with
      | |- match ?X with _ => _ end = match ?Y with _ => _ end =>
          change X with Y; destruct Y as [[[b' s'] p']|]
      end; reflexivity.
    + pose proof (slotReady_unexpected _ _ _ Hslot Hexp) as ->.
      split; [reflexivity|].
      destruct (skipBadTokens_run IsExpected IsEnd c p)
        as (consumed & p' & Hrun & Hwin & _ & _ & _).
      exists consumed, p'. split; [exact Hwin|].
      unfold bind at 1. rewrite Hrun.
      destruct (IsExpected (kind (currentToken p'))) eqn:Hexp'.
      * assert (Hne : consumed <> []).
        { intros ->. cbn in Hwin. unfold currentToken in Hexp, Hexp'.
          rewrite Hwin in Hexp. congruence. }
        split; [|auto]. unfold bind, peek. cbn [ret].
        destruct consumed; [congruence|reflexivity].
      * split; [reflexivity|discriminate].
  - (* the whole list *)
    intros fuel buffer p Hlex Hfuel.
    destruct (parseSeparatedListBuffer_run IsExpected IsEnd parseItem closeKind
                separatorKind c Htotal Hlossless Hprogress Heof fuel buffer p
                Hlex Hfuel)
      as (buffer' & closeToken & p' & consumed & Hrun & Hwin & Htext).
    destruct (parseSeparatedListBuffer_close IsExpected IsEnd parseItem closeKind
                separatorKind c _ _ _ _ _ _ Hrun)
      as (residual & token & p1 & _ & Hs & Hclose & ->).
    exists buffer', residual, token, p1, p', consumed. auto.
  - reflexivity.
  - reflexivity.
  - intros item run Htok.
    destruct (replaceFirstToken
                (fun t => withTrivia t (TriviaSkipped run :: trivia t)) item)
      as [item'|] eqn:Hr.
    + exists item'. split; [reflexivity|].
      unfold prependTriviaNode. cbn [triviaPresent triviaKind].
      change (fun t => fst (prependTrivia t (TriviaSkipped run)))
        with (fun t => withTrivia t (TriviaSkipped run :: trivia t)).
      now rewrite Hr.
    + unfold hasToken in Htok.
      rewrite (replaceFirstToken_found _ (fun t => t) _ Hr) in Htok. discriminate.
  - reflexivity.
Qed.

(** After [%] was skipped in ["(a, %, b)"]: the pending run goes to the comma,
    the name after it gets none, and the accumulator is empty. *)
Lemma skippedTokens_accumulator_discipline_witness :
  let percent := lexeme TokenKind.Percent 4 " " "%" in
  let comma := lexeme TokenKind.Comma 5 "" "," in
  let b := lexeme TokenKind.Identifier 7 " " "b" in
  let close := lexeme TokenKind.CloseParenthesis 8 "" ")" in
  let p := startOn [comma; b; close] in
  slotReady isIdentifierOrComma (TriviaSkipped [percent]) p
  /\ separatorBody isIdentifierOrComma isEndOfParenList parseName TokenKind.Comma
                   (DiagCode.Other 7) [] (TriviaSkipped [percent]) p
     = Some (Next ([TokenElem (withTrivia comma [TriviaSkipped [percent]]);
                    NodeElem (mkNode 1 [TokenElem b])], TriviaDefault),
             mkParser [close] (Some b) []).
Proof.
  cbn zeta.
  assert (Hready : slotReady isIdentifierOrComma
                     (TriviaSkipped [lexeme TokenKind.Percent 4 " " "%"])
                     (startOn [lexeme TokenKind.Comma 5 "" ",";
                               lexeme TokenKind.Identifier 7 " " "b";
                               lexeme TokenKind.CloseParenthesis 8 "" ")"])).
  { right. split; [|reflexivity]. eexists. split; [|reflexivity]. discriminate. }
  split; [exact Hready|].
  destruct (skippedTokens_accumulator_discipline
              isIdentifierOrComma isEndOfParenList parseName
              TokenKind.CloseParenthesis TokenKind.Comma (DiagCode.Other 7)
              parseName_total parseName_lossless parseName_progress)
    as (Hinner & _); [discriminate|].
  destruct (Hinner [] _ _ Hready) as (r & p' & Hrun & Hpass & _).
  rewrite Hrun. cbn in Hpass.
  destruct Hpass as (sep & p1 & item & Hsep & Hitem & ->).
  vm_compute in Hsep. injection Hsep as <- <-.
  vm_compute in Hitem. injection Hitem as <- <-.
  reflexivity.
Defined.

(* ------------------------------------------------------------------ *)
(** ** The recogniser over [expect] and the recogniser above *)

Section OverTheModelledExpect.

Variable IsExpected : TokenKind.t -> bool.
Variable IsEnd : TokenKind.t -> bool.
Variable parseItem : bool -> Parse SyntaxNode.
Variable closeKind : TokenKind.t.
Variable separatorKind : TokenKind.t.
Variable c : DiagCode.t.

Lemma OverExpect_separatorLoop fuel :
  forall buffer s p,
    OverExpect.separatorLoop expect IsExpected IsEnd parseItem separatorKind c
                             fuel buffer s p
    = separatorLoop IsExpected IsEnd parseItem separatorKind c fuel buffer s p.
Proof.
  induction fuel as [|fuel IH]; intros buffer s p; [reflexivity|].
  cbn [OverExpect.separatorLoop separatorLoop]. unfold bind.
  change (OverExpect.separatorBody expect IsExpected IsEnd parseItem
                                   separatorKind c buffer s p)
    with (separatorBody IsExpected IsEnd parseItem separatorKind c buffer s p).
  destruct (separatorBody IsExpected IsEnd parseItem separatorKind c buffer s p)
    as [[[out|[b1 s1]] p1]|]; auto.
Qed.

Lemma OverExpect_itemLoop fuel :
  forall current buffer s p,
    OverExpect.itemLoop expect IsExpected IsEnd parseItem separatorKind c
                        fuel current buffer s p
    = itemLoop IsExpected IsEnd parseItem separatorKind c fuel current buffer s p.
Proof.
  induction fuel as [|fuel IH]; intros current buffer s p; [reflexivity|].
  cbn [OverExpect.itemLoop itemLoop]. unfold bind.
  assert (Hbody : OverExpect.itemBody expect IsExpected IsEnd parseItem
                                      separatorKind c fuel current buffer s p
                  = itemBody IsExpected IsEnd parseItem separatorKind c
                             fuel current buffer s p).
  { unfold OverExpect.itemBody, itemBody.
    destruct (IsExpected (kind current)); [|reflexivity].
    unfold bind. destruct (parseItem true p) as [[item p1]|]; [|reflexivity].
    cbn [prependTriviaNode]. now rewrite OverExpect_separatorLoop. }
  rewrite Hbody.
  destruct (itemBody IsExpected IsEnd parseItem separatorKind c
                     fuel current buffer s p)
    as [[[[[cur b1] s1]|[[cur b1] s1]] p1]|]; auto.
Qed.

Lemma OverExpect_parseSeparatedListBuffer fuel buffer p :
  OverExpect.parseSeparatedListBuffer expect IsExpected IsEnd parseItem
                                      closeKind separatorKind c fuel buffer p
  = parseSeparatedListBuffer IsExpected IsEnd parseItem closeKind separatorKind c
                             fuel buffer p.
Proof.
  unfold OverExpect.parseSeparatedListBuffer, parseSeparatedListBuffer.
  unfold bind, peek.
  destruct (negb (IsEnd (kind (currentToken p)))); [|reflexivity].
  now rewrite OverExpect_itemLoop.
Qed.

(** At the [expect] modelled from the specification, the recogniser over
    [expect] is the recogniser above. *)
Lemma OverExpect_parseSeparatedList fuel openKind p :
  OverExpect.parseSeparatedList expect IsExpected IsEnd parseItem
                                closeKind separatorKind c fuel openKind p
  = parseSeparatedList IsExpected IsEnd parseItem closeKind separatorKind c
                       fuel openKind p.
Proof.
  unfold OverExpect.parseSeparatedList, parseSeparatedList.
  unfold bind. destruct (expect openKind p) as [[t p1]|]; [|reflexivity].
  now rewrite OverExpect_parseSeparatedListBuffer.
Qed.

End OverTheModelledExpect.

(* ------------------------------------------------------------------ *)
(** ** The round trip of parseSeparatedList *)

(** What a lossless [expect] returns writes exactly the tokens it consumed: one
    token when the kind matches and the window is not exhausted, none
    otherwise. *)
Lemma expectLossless_writes expect k p :
  expectLossless expect ->
  exists t p' consumed,
    expect k p = Some (t, p')
    /\ window p = consumed ++ window p'
    /\ tokenText true t = tokensText true consumed
    /\ (kind (currentToken p) = k -> window p <> [] -> consumed <> [])
    /\ (kind (currentToken p) <> k -> window p' = window p).
Proof.
  intros Hexpect. destruct (Hexpect k p) as [Hmatch Hmiss].
  destruct (TokenKind.eq_dec (kind (currentToken p)) k) as [Hk|Hk].
  - rewrite (Hmatch Hk). unfold consume.
    destruct (window p) as [|t rest] eqn:Hw.
    + exists endOfFileToken, (mkParser [] (Some endOfFileToken) (diagnostics p)), [].
      rewrite (currentToken_nil _ Hw) in *. cbn [tl window app].
      repeat split; try reflexivity; intros; congruence.
    + exists t, (mkParser rest (Some t) (diagnostics p)), [t].
      rewrite (currentToken_cons _ _ _ Hw) in *. cbn [tl window app].
      unfold tokensText. cbn [flat_map]. rewrite app_nil_r.
      repeat split; try reflexivity; intros; congruence.
  - destruct (Hmiss Hk) as (missing & p' & Hrun & Hw & Ht).
    exists missing, p', []. rewrite Hrun, Hw, Ht.
    repeat split; auto; intros; congruence.
Qed.

Section RoundTrip.

Variable expect : TokenKind.t -> Parse Token.
Variable IsExpected : TokenKind.t -> bool.
Variable IsEnd : TokenKind.t -> bool.
Variable parseItem : bool -> Parse SyntaxNode.
Variable closeKind : TokenKind.t.
Variable separatorKind : TokenKind.t.
Variable c : DiagCode.t.

Hypothesis expect_lossless : expectLossless expect.
Hypothesis item_total : itemParserTotal parseItem.
Hypothesis item_faithful : itemParserFaithful parseItem.
Hypothesis item_progress :
  itemParserProgress IsExpected IsEnd separatorKind parseItem.
Hypothesis end_of_file_ends :
  IsExpected TokenKind.EndOfFile = true -> IsEnd TokenKind.EndOfFile = true.

Local Abbreviation sepLoop :=
  (OverExpect.separatorLoop expect IsExpected IsEnd parseItem separatorKind c).
Local Abbreviation outerLoop :=
  (OverExpect.itemLoop expect IsExpected IsEnd parseItem separatorKind c).

(** The inner loop ends within a budget of one pass per pending token; what
    it appends and what it leaves in the accumulator write exactly what was
    pending and what it consumed. *)
Lemma separatorLoop_round_trip fuel :
  forall buffer s p,
    slotReady IsExpected s p ->
    List.length (window p) < fuel ->
    exists buffer' s' p' consumed,
      sepLoop fuel buffer s p = Some ((buffer', s'), p')
      /\ singleSlot s'
      /\ window p = consumed ++ window p'
      /\ bufferText true buffer' ++ triviaText true s'
         = bufferText true buffer ++ triviaText true s ++ tokensText true consumed.
Proof.
  induction fuel as [|fuel IH]; intros buffer s p Hslot Hlen; [lia|].
  cbn [OverExpect.separatorLoop]. unfold bind at 1.
  unfold OverExpect.separatorBody. unfold bind at 1. unfold peek at 1.
  destruct (IsEnd (kind (currentToken p))) eqn:Hend.
  - (* the end token: what is pending stays pending *)
    cbn [ret]. exists buffer, s, p, []. cbn [app]. rewrite app_nil_r.
    repeat split; auto. exact (slotReady_single _ _ _ Hslot).
  - destruct (IsExpected (kind (currentToken p))) eqn:Hexp.
    + (* a separator and an item *)
      pose proof (slotReady_single _ _ _ Hslot) as Hs.
      destruct (expectLossless_writes expect separatorKind p expect_lossless)
        as (sep & p0 & c1 & Hsep & Hw1 & Ht1 & Hmatch & Hmiss).
      unfold bind at 1. rewrite Hsep. cbn [prependTrivia]. unfold bind at 1.
      destruct (parseItem false p0) as [[item p1]|] eqn:Hitem;
        [|exfalso; exact (item_total _ _ Hitem)].
      destruct (item_faithful _ _ _ _ Hitem) as (_ & c2 & Hw2 & Ht2).
      assert (Hshort : List.length (window p1) < List.length (window p)).
      { destruct (TokenKind.eq_dec (kind (currentToken p)) separatorKind) as [Heq|Hne].
        - specialize (Hmatch Heq
                        (window_nonempty_when_item IsExpected IsEnd end_of_file_ends
                           p Hexp Hend)).
          rewrite Hw1, Hw2, !length_app. destruct c1; [congruence|cbn; lia].
        - specialize (Hmiss Hne).
          assert (Hcur : currentToken p0 = currentToken p)
            by (unfold currentToken; now rewrite Hmiss).
          rewrite <- Hmiss. apply (item_progress p0 item); rewrite ?Hcur; auto. }
      cbn [prependTriviaNode triviaPresent triviaKind]. cbn [ret].
      destruct (IH (buffer ++ [TokenElem (fst (prependTrivia sep s)); NodeElem item])
                   TriviaDefault p1)
        as (b' & s' & p' & c3 & Hrun & Hs' & Hw3 & Ht3); [now left|lia|].
      exists b', s', p', (c1 ++ c2 ++ c3).
      split; [exact Hrun|]. split; [exact Hs'|]. split.
      * rewrite Hw1, Hw2, Hw3. now rewrite !app_assoc.
      * rewrite Ht3, bufferText_app. unfold bufferText at 2. cbn [flat_map elemText].
        rewrite (prependTrivia_text_any true sep _ Hs), Ht1, Ht2, !tokensText_app.
        cbn [triviaText]. rewrite !app_nil_r, <- !app_assoc. reflexivity.
    + (* bad tokens: nothing is pending, so nothing is overwritten *)
      pose proof (slotReady_unexpected _ _ _ Hslot Hexp) as ->.
      cbn [triviaText app].
      destruct (skipBadTokens_run IsExpected IsEnd c p)
        as (consumed & p1 & Hrun & Hwin & _ & _ & _).
      unfold bind at 1. rewrite Hrun.
      destruct (IsExpected (kind (currentToken p1))) eqn:Hexp1; cbn [ret].
      * assert (Hne : consumed <> []).
        { intros ->. cbn in Hwin. unfold currentToken in Hexp, Hexp1.
          rewrite Hwin in Hexp. congruence. }
        destruct (IH buffer (skippedTrivia consumed) p1)
          as (b' & s' & p' & c3 & Hloop & Hs' & Hw3 & Ht3).
        { now apply slotReady_skipped. }
        { rewrite Hwin, length_app in Hlen.
          destruct consumed; [congruence|cbn in Hlen; lia]. }
        exists b', s', p', (consumed ++ c3).
        split; [exact Hloop|]. split; [exact Hs'|]. split.
        -- rewrite Hwin, Hw3. now rewrite app_assoc.
        -- rewrite Ht3, triviaText_skippedTrivia, tokensText_app. reflexivity.
      * exists buffer, (skippedTrivia consumed), p1, consumed.
        repeat split; auto using singleSlot_skippedTrivia.
        now rewrite triviaText_skippedTrivia.
Qed.

(** The outer loop. *)
Lemma itemLoop_round_trip fuel :
  forall buffer s p,
    slotReady IsExpected s p ->
    List.length (window p) + 1 < fuel ->
    exists buffer' s' p' consumed,
      outerLoop fuel (currentToken p) buffer s p = Some ((buffer', s'), p')
      /\ singleSlot s'
      /\ window p = consumed ++ window p'
      /\ bufferText true buffer' ++ triviaText true s'
         = bufferText true buffer ++ triviaText true s ++ tokensText true consumed.
Proof.
  induction fuel as [|fuel IH]; intros buffer s p Hslot Hlen; [lia|].
  cbn [OverExpect.itemLoop]. unfold bind at 1. unfold OverExpect.itemBody.
  destruct (IsExpected (kind (currentToken p))) eqn:Hexp.
  - (* the first item, then the inner loop *)
    pose proof (slotReady_single _ _ _ Hslot) as Hs.
    unfold bind at 1.
    destruct (parseItem true p) as [[item p1]|] eqn:Hitem;
      [|exfalso; exact (item_total _ _ Hitem)].
    destruct (item_faithful _ _ _ _ Hitem) as (Htok & c1 & Hw1 & Ht1).
    pose proof (prependTriviaNode_text_any true item s Hs Htok) as Hpre.
    destruct (prependTriviaNode item s) as [item' s1] eqn:Hnode.
    assert (Hs1 : s1 = TriviaDefault).
    { change s1 with (snd (item', s1)). rewrite <- Hnode. reflexivity. }
    subst s1. cbn [fst] in Hpre.
    destruct (separatorLoop_round_trip fuel (buffer ++ [NodeElem item'])
                                       TriviaDefault p1)
      as (b' & s' & p' & c2 & Hrun & Hs' & Hw2 & Ht2).
    { now left. }
    { rewrite Hw1, length_app in Hlen. lia. }
    unfold bind. rewrite Hrun. cbn [ret].
    exists b', s', p', (c1 ++ c2).
    split; [reflexivity|]. split; [exact Hs'|]. split.
    + rewrite Hw1, Hw2. now rewrite app_assoc.
    + rewrite Ht2, bufferText_app. unfold bufferText at 2. cbn [flat_map elemText].
      rewrite Hpre, Ht1, tokensText_app.
      cbn [triviaText]. rewrite !app_nil_r, <- !app_assoc. reflexivity.
  - (* bad tokens in front of the first item *)
    pose proof (slotReady_unexpected _ _ _ Hslot Hexp) as ->.
    cbn [triviaText app].
    destruct (skipBadTokens_run IsExpected IsEnd c p)
      as (consumed & p1 & Hrun & Hwin & _ & _ & _).
    unfold bind at 1. rewrite Hrun.
    destruct (IsExpected (kind (currentToken p1))) eqn:Hexp1.
    + unfold bind, peek. cbn [ret].
      assert (Hne : consumed <> []).
      { intros ->. cbn in Hwin. unfold currentToken in Hexp, Hexp1.
        rewrite Hwin in Hexp. congruence. }
      destruct (IH buffer (skippedTrivia consumed) p1)
        as (b' & s' & p' & c3 & Hloop & Hs' & Hw3 & Ht3).
      { now apply slotReady_skipped. }
      { rewrite Hwin, length_app in Hlen.
        destruct consumed; [congruence|cbn in Hlen; lia]. }
      exists b', s', p', (consumed ++ c3). rewrite Hloop.
      split; [reflexivity|]. split; [exact Hs'|]. split.
      * rewrite Hwin, Hw3. now rewrite app_assoc.
      * rewrite Ht3, triviaText_skippedTrivia, tokensText_app. reflexivity.
    + cbn [ret]. exists buffer, (skippedTrivia consumed), p1, consumed.
      repeat split; auto using singleSlot_skippedTrivia.
      now rewrite triviaText_skippedTrivia.
Qed.

(** The overload that fills a buffer. *)
Lemma parseSeparatedListBuffer_round_trip fuel buffer p :
  List.length (window p) + 1 < fuel ->
  exists buffer' closeToken p' consumed,
    OverExpect.parseSeparatedListBuffer expect IsExpected IsEnd parseItem
                                        closeKind separatorKind c fuel buffer p
    = Some ((buffer', closeToken), p')
    /\ window p = consumed ++ window p'
    /\ bufferText true buffer' ++ tokenText true closeToken
       = bufferText true buffer ++ tokensText true consumed.
Proof.
  intros Hlen. unfold OverExpect.parseSeparatedListBuffer.
  unfold bind at 1. unfold peek at 1.
  assert (Hloop : exists b' s' p1 c1,
             (if negb (IsEnd (kind (currentToken p)))
              then outerLoop fuel (currentToken p) buffer TriviaDefault
              else ret (buffer, TriviaDefault)) p = Some ((b', s'), p1)
             /\ singleSlot s'
             /\ window p = c1 ++ window p1
             /\ bufferText true b' ++ triviaText true s'
                = bufferText true buffer ++ tokensText true c1).
  { destruct (IsEnd (kind (currentToken p))); cbn [negb].
    - exists buffer, TriviaDefault, p, []. cbn. rewrite !app_nil_r.
      repeat split. now left.
    - destruct (itemLoop_round_trip fuel buffer TriviaDefault p (or_introl eq_refl) Hlen)
        as (b' & s' & p1 & c1 & Hrun & Hrest).
      exists b', s', p1, c1. split; [exact Hrun|exact Hrest]. }
  destruct Hloop as (b' & s' & p1 & c1 & Hrun & Hs' & Hw1 & Ht1).
  unfold bind at 1. rewrite Hrun.
  destruct (expectLossless_writes expect closeKind p1 expect_lossless)
    as (t & p2 & c2 & Hclose & Hw2 & Ht2 & _).
  unfold bind. rewrite Hclose. cbn [ret].
  exists b', (fst (prependTrivia t s')), p2, (c1 ++ c2).
  split; [reflexivity|]. split.
  - rewrite Hw1, Hw2. now rewrite app_assoc.
  - rewrite (prependTrivia_text_any true t _ Hs'), Ht2, tokensText_app.
    rewrite app_assoc, Ht1, <- app_assoc. reflexivity.
Qed.

End RoundTrip.


(** The bare [expect] and the name parser over it meet what the round trip
    asks of them. *)
Lemma expectBare_lossless : expectLossless expectBare.
Proof.
  intros k p. unfold expectBare, bind, peek. split; intros Hk.
  - apply TokenKind.eqb_eq in Hk. now rewrite Hk.
  - apply TokenKind.eqb_neq in Hk. rewrite Hk. cbn.
    eexists _, _. repeat split.
Qed.

Lemma parseNameBy_total expect :
  expectLossless expect -> itemParserTotal (parseNameBy expect).
Proof.
  intros Hexpect first p. unfold parseNameBy, bind.
  destruct (expectLossless_writes expect TokenKind.Identifier p Hexpect)
    as (t & p1 & consumed & -> & _).
  discriminate.
Qed.

Lemma parseNameBy_faithful expect :
  expectLossless expect -> itemParserFaithful (parseNameBy expect).
Proof.
  intros Hexpect first p item p'. unfold parseNameBy, bind.
  destruct (expectLossless_writes expect TokenKind.Identifier p Hexpect)
    as (t & p1 & consumed & -> & Hw & Ht & _).
  intros [= <- <-]. split; [reflexivity|].
  exists consumed. split; [exact Hw|].
  rewrite nodeText_node. unfold bufferText. cbn [flat_map elemText].
  now rewrite app_nil_r.
Qed.

Lemma parseNameBy_progress expect :
  expectLossless expect ->
  itemParserProgress isIdentifierOrComma isEndOfParenList TokenKind.Comma
                     (parseNameBy expect).
Proof.
  intros Hexpect p item p' Hexp Hend Hsep. unfold parseNameBy, bind.
  destruct (expectLossless_writes expect TokenKind.Identifier p Hexpect)
    as (t & p1 & consumed & -> & Hw & _ & Hmatch & _).
  intros [= <- <-].
  assert (Hk : kind (currentToken p) = TokenKind.Identifier).
  { destruct (kind (currentToken p)); cbn in Hexp; congruence. }
  assert (Hne : window p <> []).
  { intros Hnil. rewrite (currentToken_nil _ Hnil) in Hk. discriminate. }
  specialize (Hmatch Hk Hne).
  rewrite Hw, length_app. destruct consumed; [congruence|cbn; lia].
Qed.


(** ["(a b)"], where the separator is missing: the list is [a], a missing
    comma, [b], and the walk writes the source. *)
Example round_trip_missing_separator :
  exists openToken list closeToken p',
    OverExpect.parseSeparatedList expectBare isIdentifierOrComma isEndOfParenList
      (parseNameBy expectBare) TokenKind.CloseParenthesis TokenKind.Comma
      (DiagCode.Other 7) 10 TokenKind.OpenParenthesis (startOn source_a_b)
    = Some ((openToken, list, closeToken), p')
    /\ list
       = [NodeElem (mkNode 1 [TokenElem (lexeme TokenKind.Identifier 1 "" "a")]);
          TokenElem (mkToken TokenKind.Comma 3 [] [] true);
          NodeElem (mkNode 1 [TokenElem (lexeme TokenKind.Identifier 3 " " "b")])]
    /\ tokenText true openToken ++ bufferText true list
       ++ tokenText true closeToken ++ pendingText true p'
       = textOf "(a b)".
Proof.
  eexists _, _, _, _. split; [vm_compute; reflexivity|]. split; reflexivity.
Qed.

(* ------------------------------------------------------------------ *)
(** ** Elaboration of blocks *)

(** C8: the sequential block takes its name from the optional label of the
    block statement, the empty name when there is none, and stores the
    statement tree on its statement-bodied scope. *)
Theorem SequentialBlockSymbol_fromSyntax_label
        (Statement : Type) (syntax : BlockStatementSyntax Statement) :
  name (SequentialBlockSymbol.base (SequentialBlockSymbol.fromSyntax syntax))
  = match label syntax with
    | Some l => l
    | None => EmptyString
    end
  /\ SequentialBlockSymbol.body (SequentialBlockSymbol.fromSyntax syntax)
     = Some (items syntax)
  /\ SequentialBlockSymbol.isKind
       (symbolKind (SequentialBlockSymbol.base (SequentialBlockSymbol.fromSyntax syntax)))
     = true
  /\ symbolLocation (SequentialBlockSymbol.base (SequentialBlockSymbol.fromSyntax syntax))
     = beginLocation syntax.
Proof. repeat split. Qed.

(** C7: the if-generate elaborator evaluates the guard as a constant; it
    returns the block of the then branch when the guard is true, the block of
    the else branch when the guard is false and there is one, and the null
    result in every other case; on a null result the parent scope is left as
    it was. *)
Theorem GenerateBlockSymbol_fromSyntax_branches
        (Expr : Type) (B : Binder Expr) (syntax : IfGenerateSyntax Expr)
        (location : LookupLocation) (parent : Scope) :
  let guard := evaluateConstant (condition syntax) location parent in
  let result := GenerateBlockSymbol.fromSyntax syntax location parent in
  (GenerateBlockSymbol.isTrue guard = true ->
   result = Some (GenerateBlockSymbol.ofBlock [] (thenBlock syntax)))
  /\ (forall block,
         guard = IntegerValue 0 -> elseClause syntax = Some block ->
         result = Some (GenerateBlockSymbol.ofBlock [] block))
  /\ (GenerateBlockSymbol.isTrue guard = false ->
      ~ (guard = IntegerValue 0 /\ elseClause syntax <> None) ->
      result = None)
  /\ (result = None -> addIfGenerate parent syntax location = parent)
  /\ (forall block,
         result = Some block ->
         scopeMembers (addIfGenerate parent syntax location)
         = scopeMembers parent ++ [GenerateBlockSymbol.asMember block]).
Proof.
  cbn zeta. unfold addIfGenerate, GenerateBlockSymbol.fromSyntax.
  destruct (evaluateConstant (condition syntax) location parent) as [|z];
    cbn [GenerateBlockSymbol.isTrue].
  - repeat split; try discriminate; auto.
  - destruct (Z.eqb z 0) eqn:Hz; cbn [negb].
    + apply Z.eqb_eq in Hz. subst z.
      destruct (elseClause syntax) as [e|] eqn:He.
      * repeat split; try discriminate; auto.
        -- intros block _ [= ->]. reflexivity.
        -- intros _ Hn. exfalso. apply Hn. split; [reflexivity|discriminate].
        -- intros block [= <-]. destruct parent. reflexivity.
      * repeat split; try discriminate; auto.
    + repeat split; try discriminate; auto.
      * intros block [= ->]. rewrite Z.eqb_refl in Hz. discriminate.
      * intros block [= <-]. destruct parent. reflexivity.
Qed.

(** [if (0) begin : g M m(); end] in an empty scope. *)
Lemma GenerateBlockSymbol_fromSyntax_branches_witness :
  GenerateBlockSymbol.fromSyntax if_zero 0 emptyRoot = None
  /\ addIfGenerate emptyRoot if_zero 0 = emptyRoot.
Proof.
  destruct (GenerateBlockSymbol_fromSyntax_branches
              Expression expressionBinder if_zero 0 emptyRoot)
    as (_ & _ & Hnull & Hparent & _).
  assert (Hnone : GenerateBlockSymbol.fromSyntax if_zero 0 emptyRoot = None).
  { apply Hnull; [reflexivity|]. intros [_ Helse]. now apply Helse. }
  split; [exact Hnone|exact (Hparent Hnone)].
Defined.

Section LoopGenerate.

Context {Expr : Type} {B : Binder Expr}.
Variable syntax : LoopGenerateSyntax Expr.
Variable location : LookupLocation.
Variable parent : Scope.

Local Abbreviation iterate := (GenerateBlockArraySymbol.iterate syntax location parent).
Local Abbreviation Unrolls := (GenerateBlockArraySymbol.Unrolls syntax location parent).
Local Abbreviation Runs := (GenerateBlockArraySymbol.Runs syntax location parent).
Local Abbreviation blockOf := (GenerateBlockArraySymbol.blockOfIteration syntax).

Lemma isTrue_integer v :
  GenerateBlockSymbol.isTrue v = true ->
  exists z, v = IntegerValue z /\ Z.eqb z 0 = false.
Proof.
  destruct v as [|z]; cbn; [discriminate|].
  intros Hz. exists z. split; [reflexivity|]. now apply negb_true_iff.
Qed.

(** A loop that ends within the budget yields one block per iteration. *)
Lemma iterate_unrolls budget value values :
  Unrolls value values ->
  List.length values <= budget ->
  iterate budget value = inr (map blockOf values).
Proof.
  intros Hloop. revert budget.
  induction Hloop as [value Hstop|value next values [Htrue Hnext] _ IH];
    intros budget Hlen.
  - unfold GenerateBlockArraySymbol.stopsAt in Hstop.
    destruct budget; cbn [GenerateBlockArraySymbol.iterate];
      rewrite Hstop; reflexivity.
  - destruct budget as [|budget]; [cbn in Hlen; lia|].
    cbn [GenerateBlockArraySymbol.iterate].
    destruct (isTrue_integer _ Htrue) as (z & -> & ->).
    rewrite Hnext, IH by (cbn in Hlen; lia). reflexivity.
Qed.

(** A loop that needs more than the budget is refused. *)
Lemma iterate_runs budget value :
  Runs budget value ->
  iterate budget value = inl GenerateBlockArraySymbol.IterationCapExceeded.
Proof.
  induction 1 as [value Htrue|n value next [Htrue Hnext] _ IH];
    cbn [GenerateBlockArraySymbol.iterate];
    destruct (isTrue_integer _ Htrue) as (z & -> & ->); [reflexivity|].
  rewrite Hnext, IH. reflexivity.
Qed.

(** Whatever the loop returns, it ran for at most the budget. *)
Lemma iterate_blocks budget :
  forall value blocks,
    iterate budget value = inr blocks ->
    exists values,
      Unrolls value values
      /\ List.length values <= budget
      /\ blocks = map blockOf values.
Proof.
  induction budget as [|budget IH]; intros value blocks;
    cbn [GenerateBlockArraySymbol.iterate];
    destruct (evaluateConstant (stopExpr syntax) location
                (GenerateBlockArraySymbol.iterationScope syntax parent value))
      as [|z] eqn:Hstop; try discriminate;
    destruct (Z.eqb z 0) eqn:Hz; try discriminate.
  - intros [= <-]. apply Z.eqb_eq in Hz. subst z.
    exists []. split; [now constructor|]. split; [cbn; lia|reflexivity].
  - intros [= <-]. apply Z.eqb_eq in Hz. subst z.
    exists []. split; [now constructor|]. split; [cbn; lia|reflexivity].
  - destruct (evaluateConstant (iterationExpr syntax) location
                (GenerateBlockArraySymbol.iterationScope syntax parent value))
      as [|next] eqn:Hnext; [discriminate|].
    destruct (iterate budget next) as [e|rest] eqn:Hrest; [discriminate|].
    intros [= <-].
    destruct (IH next rest Hrest) as (values & Hloop & Hlen & ->).
    exists (value :: values). split; [|split; [cbn; lia|reflexivity]].
    econstructor; [|exact Hloop]. split; [|exact Hnext].
    rewrite Hstop. cbn. now rewrite Hz.
Qed.

Lemma blockOf_exposes value :
  exposesParameter (blockOf value) (identifier syntax) value.
Proof. exists (identifierLocation syntax). left. reflexivity. Qed.

End LoopGenerate.

(** C6: the loop-generate elaborator evaluates the initial value, the
    condition and the step as constants and creates one block per iteration
    while the condition is true, each exposing an implicit parameter named
    after the genvar and bound to the value of that iteration.  The number of
    iterations is bounded by the cap: a loop that needs more is refused with
    the iteration-cap error and publishes no array, and a loop of at most
    2^16 iterations is never refused.  The elaborator always returns, with an
    array of at most as many blocks as the cap allows or with an error. *)
Theorem GenerateBlockArraySymbol_fromSyntax_iterates
        (Expr : Type) (B : Binder Expr) (maxIterations : nat)
        (syntax : LoopGenerateSyntax Expr)
        (location : LookupLocation) (parent : Scope) :
  2 ^ 16 <= maxIterations ->
  let result :=
    GenerateBlockArraySymbol.fromSyntax maxIterations syntax location parent in
  (forall initial values,
      evaluateConstant (initialExpr syntax) location parent = IntegerValue initial ->
      GenerateBlockArraySymbol.Unrolls syntax location parent initial values ->
      List.length values <= maxIterations ->
      exists array,
        result = inr array
        /\ GenerateBlockArraySymbol.members array
           = map (GenerateBlockArraySymbol.blockOfIteration syntax) values
        /\ Forall2 (fun block value =>
                      exposesParameter block (identifier syntax) value)
                   (GenerateBlockArraySymbol.members array) values)
  /\ (forall initial values,
         evaluateConstant (initialExpr syntax) location parent = IntegerValue initial ->
         GenerateBlockArraySymbol.Unrolls syntax location parent initial values ->
         List.length values <= 2 ^ 16 ->
         exists array,
           result = inr array
           /\ List.length (GenerateBlockArraySymbol.members array)
              = List.length values)
  /\ (forall initial,
         evaluateConstant (initialExpr syntax) location parent = IntegerValue initial ->
         GenerateBlockArraySymbol.Runs syntax location parent maxIterations initial ->
         result = inl GenerateBlockArraySymbol.IterationCapExceeded)
  /\ ((exists array,
          result = inr array
          /\ List.length (GenerateBlockArraySymbol.members array) <= maxIterations)
      \/ exists e, result = inl e).
Proof.
  intros Hcap. cbn zeta.
  unfold GenerateBlockArraySymbol.fromSyntax.
  split; [|split; [|split]].
  - intros initial values Hinit Hloop Hlen. rewrite Hinit.
    rewrite (iterate_unrolls syntax location parent _ _ _ Hloop Hlen).
    eexists. split; [reflexivity|]. split; [reflexivity|].
    cbn [GenerateBlockArraySymbol.members].
    clear. induction values as [|v values IH]; constructor; [|exact IH].
    apply blockOf_exposes.
  - intros initial values Hinit Hloop Hlen. rewrite Hinit.
    rewrite (iterate_unrolls syntax location parent _ _ _ Hloop
               (Nat.le_trans _ _ _ Hlen Hcap)).
    eexists. split; [reflexivity|].
    cbn [GenerateBlockArraySymbol.members]. apply length_map.
  - intros initial Hinit Hruns. rewrite Hinit.
    now rewrite (iterate_runs syntax location parent _ _ Hruns).
  - destruct (evaluateConstant (initialExpr syntax) location parent)
      as [|initial]; [right; eauto|].
    destruct (GenerateBlockArraySymbol.iterate syntax location parent
                maxIterations initial) as [e|blocks] eqn:Hrun.
    + right. eauto.
    + left. eexists. split; [reflexivity|].
      destruct (iterate_blocks syntax location parent _ _ _ Hrun)
        as (values & _ & Hlen & ->).
      cbn [GenerateBlockArraySymbol.members]. now rewrite length_map.
Qed.

(** [for (genvar i = 0; i < 3; i++) begin : g M m(); end] with a cap of 2^16. *)
Lemma GenerateBlockArraySymbol_fromSyntax_iterates_witness :
  2 ^ 16 <= 2 ^ 16
  /\ exists array,
      GenerateBlockArraySymbol.fromSyntax (2 ^ 16) loop_three 0 emptyRoot = inr array
      /\ name (GenerateBlockArraySymbol.base array) = "g"%string
      /\ GenerateBlockArraySymbol.members array
         = map (GenerateBlockArraySymbol.blockOfIteration loop_three) [0; 1; 2]%Z
      /\ Forall2 (fun block value => exposesParameter block "i"%string value)
                 (GenerateBlockArraySymbol.members array) [0; 1; 2]%Z.
Proof.
  split; [apply Nat.le_refl|].
  destruct (GenerateBlockArraySymbol_fromSyntax_iterates
              Expression expressionBinder (2 ^ 16) loop_three 0 emptyRoot
              (Nat.le_refl _))
    as (Hwithin & _).
  destruct (Hwithin 0%Z [0; 1; 2]%Z) as (array & Hrun & Hmembers & Hexposed).
  - reflexivity.
  - repeat (econstructor; [split; reflexivity|]). constructor. reflexivity.
  - cbn [List.length]. apply (Nat.le_trans _ 16); [lia|].
    apply Nat.lt_le_incl, (Nat.pow_gt_lin_r 2 16). lia.
  - exists array. split; [exact Hrun|]. split; [|split; assumption].
    vm_compute in Hrun. injection Hrun as <-. reflexivity.
Defined.

(** A loop whose condition never becomes false is refused at the cap. *)
Lemma loop_forever_is_refused :
  GenerateBlockArraySymbol.fromSyntax 5 loop_forever 0 emptyRoot
  = inl GenerateBlockArraySymbol.IterationCapExceeded.
Proof. reflexivity. Qed.

(** The two block statements: with a label, and without. *)
Example SequentialBlockSymbol_labelled :
  name (SequentialBlockSymbol.base (SequentialBlockSymbol.fromSyntax labelled_block))
  = "work"%string.
Proof. reflexivity. Qed.

Example SequentialBlockSymbol_anonymous :
  name (SequentialBlockSymbol.base (SequentialBlockSymbol.fromSyntax plain_block))
  = EmptyString.
Proof. reflexivity. Qed.

(* ================================================================== *)
(** * Further properties of the code *)

(* ------------------------------------------------------------------ *)
(** ** skipBadTokens, beyond the first call *)

(** On an expected token the loop condition fails at once. *)
Lemma skipBadTokens_silent_when_expected
      (IsExpected IsAbort : TokenKind.t -> bool) (c : DiagCode.t) (p : ParserBase) :
  IsExpected (kind (currentToken p)) = true ->
  skipBadTokens IsExpected IsAbort c p = Some ((Continue, TriviaDefault), p).
Proof.
  intros Hexp. unfold skipBadTokens, bind, peek. cbn [skipLoop].
  rewrite Hexp. reflexivity.
Qed.

(** X1: [skipBadTokens] loses no text.  Whatever the predicates and the
    window, what the trivium it assigns writes, followed by what the window
    still holds, is what the window held before, under either reading of
    missing tokens. *)
Theorem skipBadTokens_lossless
        (IsExpected IsAbort : TokenKind.t -> bool) (c : DiagCode.t)
        (p : ParserBase) (b : bool) :
  exists action skipped p',
    skipBadTokens IsExpected IsAbort c p = Some ((action, skipped), p')
    /\ triviaText b skipped ++ pendingText b p' = pendingText b p.
Proof.
  destruct (skipBadTokens_run IsExpected IsAbort c p)
    as (consumed & p' & Hrun & Hwin & _).
  eexists _, _, p'. split; [exact Hrun|].
  unfold pendingText. rewrite Hwin, tokensText_app, triviaText_skippedTrivia.
  reflexivity.
Qed.

(** X2: calling [skipBadTokens] a second time makes no progress.  It reports
    the same action, consumes nothing and assigns the empty trivium, so the
    run skipped by the first call is lost unless the caller attached it in
    between; after [Abort] it raises a second diagnostic at the token that
    stopped the first call, after [Continue] it raises none. *)
Theorem skipBadTokens_again
        (IsExpected IsAbort : TokenKind.t -> bool) (c : DiagCode.t)
        (p : ParserBase) (action : SkipAction) (skipped : Trivia)
        (p1 : ParserBase) :
  skipBadTokens IsExpected IsAbort c p = Some ((action, skipped), p1) ->
  skipBadTokens IsExpected IsAbort c p1
  = Some ((action, TriviaDefault),
          mkParser (window p1) (lastConsumed p1)
                   (diagnostics p1
                    ++ match action with
                       | Continue => []
                       | Abort => [mkDiagnostic c (location (currentToken p1)) []]
                       end)).
Proof.
  intros Hfirst.
  destruct (skipBadTokens_run IsExpected IsAbort c p)
    as (consumed & p' & Hrun & _ & _ & Hstop & _).
  rewrite Hfirst in Hrun. injection Hrun as Haction _ Hp. subst p'.
  unfold skippable in Hstop.
  destruct (IsExpected (kind (currentToken p1))) eqn:Hexp; subst action.
  - rewrite (skipBadTokens_silent_when_expected IsExpected IsAbort c p1 Hexp).
    rewrite app_nil_r. now destruct p1.
  - cbn [negb andb] in Hstop. apply negb_false_iff in Hstop.
    unfold skipBadTokens, bind, peek. cbn [skipLoop].
    rewrite Hexp. cbn [negb]. unfold bind, addError. cbn [window].
    assert (Hcur : currentToken
                     (mkParser (window p1) (lastConsumed p1)
                        (diagnostics p1 ++ [mkDiagnostic c (location (currentToken p1)) []]))
                   = currentToken p1) by reflexivity.
    rewrite Hstop. reflexivity.
Qed.

(** The second call after [Continue], and after [Abort] at the end of the
    file. *)
Lemma skipBadTokens_again_witness :
  let p := startOn source_percent_run in
  exists skipped p1,
    skipBadTokens isIdentifierOrComma isEndOfParenList (DiagCode.Other 7) p
    = Some ((Continue, skipped), p1)
    /\ skipBadTokens isIdentifierOrComma isEndOfParenList (DiagCode.Other 7) p1
       = Some ((Continue, TriviaDefault),
               mkParser (window p1) (lastConsumed p1) (diagnostics p1 ++ [])).
Proof.
  cbn zeta. eexists _, _. split; [vm_compute; reflexivity|].
  eapply (skipBadTokens_again isIdentifierOrComma isEndOfParenList
            (DiagCode.Other 7) (startOn source_percent_run)).
  vm_compute. reflexivity.
Defined.

(* ------------------------------------------------------------------ *)
(** ** What skipBadTokens does on a window of known shape *)

Lemma skippable_endOfFile IsExpected IsAbort :
  skippable IsExpected IsAbort TokenKind.EndOfFile = false.
Proof. unfold skippable. cbn. now rewrite andb_false_r. Qed.

(** The bad tokens in front of a token that stops the skip are determined by
    the window. *)
Lemma skipped_prefix_unique IsExpected IsAbort :
  forall bad consumed w w',
    bad ++ w = consumed ++ w' ->
    Forall (fun t => skippable IsExpected IsAbort (kind t) = true) bad ->
    Forall (fun t => skippable IsExpected IsAbort (kind t) = true) consumed ->
    skippable IsExpected IsAbort (kind (hd endOfFileToken w)) = false ->
    skippable IsExpected IsAbort (kind (hd endOfFileToken w')) = false ->
    bad = consumed /\ w = w'.
Proof.
  induction bad as [|b0 bs IH]; intros [|c0 cs] w w' Heq Hbad Hcons Hw Hw'.
  - cbn in Heq. auto.
  - cbn in Heq. subst w. cbn in Hw. inversion Hcons. congruence.
  - cbn in Heq. subst w'. cbn in Hw'. inversion Hbad. congruence.
  - cbn in Heq. injection Heq as -> Heq.
    inversion Hbad. inversion Hcons. subst.
    destruct (IH cs w w' Heq) as [-> ->]; auto.
Qed.

Lemma currentToken_hd p : currentToken p = hd endOfFileToken (window p).
Proof. unfold currentToken. now destruct (window p). Qed.

(** [skipBadTokens] on a window that is a run of bad tokens followed by a
    token that stops the skip. *)
Lemma skipBadTokens_exact IsExpected IsAbort c p bad w :
  window p = bad ++ w ->
  Forall (fun t => skippable IsExpected IsAbort (kind t) = true) bad ->
  skippable IsExpected IsAbort (kind (hd endOfFileToken w)) = false ->
  skipBadTokens IsExpected IsAbort c p
  = Some ((if IsExpected (kind (hd endOfFileToken w)) then Continue else Abort,
           skippedTrivia bad),
          mkParser w (lastOf bad (lastConsumed p))
                   (diagnostics p
                    ++ (if IsExpected (kind (currentToken p)) then []
                        else [mkDiagnostic c (location (currentToken p)) []]))).
Proof.
  intros Hw Hbad Hstop.
  destruct (skipBadTokens_run IsExpected IsAbort c p)
    as (consumed & p' & Hrun & Hwin & Hall & Hstop' & Hdiag & Hlast).
  rewrite currentToken_hd in Hstop'.
  destruct (skipped_prefix_unique IsExpected IsAbort bad consumed w (window p'))
    as [<- Hw']; auto; [congruence|].
  rewrite Hrun, currentToken_hd, <- Hw'.
  destruct p' as [w1 l1 d1]. cbn in *. subst. reflexivity.
Qed.

(** [expect] on a token of the expected kind. *)
Lemma expect_consumes k p t rest :
  window p = t :: rest -> kind t = k ->
  expect k p = Some (t, mkParser rest (Some t) (diagnostics p)).
Proof.
  intros Hw Hk. unfold expect, bind, peek.
  rewrite (currentToken_cons _ _ _ Hw), <- Hk, TokenKind.eqb_refl.
  unfold consume. now rewrite (currentToken_cons _ _ _ Hw), Hw.
Qed.

Lemma expect_kind k p t p' : expect k p = Some (t, p') -> kind t = k.
Proof.
  intros Hrun. destruct (expect_run k p) as (t0 & p0 & Hrun0 & Hcase).
  rewrite Hrun in Hrun0. injection Hrun0 as <- <-.
  destruct Hcase as [(Hk & -> & _)|(_ & -> & _)]; [exact Hk|reflexivity].
Qed.

Lemma prependTrivia_kind t s : kind (fst (prependTrivia t s)) = kind t.
Proof. destruct t. cbn. now destruct (triviaPresent s). Qed.

(* ------------------------------------------------------------------ *)
(** ** The shape of what parseSeparatedList returns and where it stops *)

Lemma separatedTail_app k ys :
  forall n xs,
    List.length xs <= n ->
    separatedTail k xs = true ->
    separatedTail k (xs ++ ys) = separatedTail k ys.
Proof.
  induction n as [|n IH]; intros xs Hlen Hxs.
  - destruct xs; [reflexivity|cbn in Hlen; lia].
  - destruct xs as [|[t|m] [|[t'|m'] xs]]; try discriminate; [reflexivity|].
    cbn [separatedTail] in Hxs. apply andb_true_iff in Hxs as [Hk Hrest].
    cbn [app separatedTail]. rewrite Hk. cbn [andb].
    apply IH; [cbn in Hlen; lia|exact Hrest].
Qed.

Lemma separatedList_snoc k l t n :
  l <> [] -> separatedList k l = true -> kind t = k ->
  separatedList k (l ++ [TokenElem t; NodeElem n]) = true.
Proof.
  intros Hne Hl Hk. destruct l as [|[t0|m] rest]; [congruence|discriminate|].
  cbn [separatedList app] in *.
  rewrite (separatedTail_app k _ (List.length rest) rest (Nat.le_refl _) Hl).
  cbn. now rewrite <- Hk, TokenKind.eqb_refl.
Qed.

Section ListRecogniserShape.

Variable IsExpected : TokenKind.t -> bool.
Variable IsEnd : TokenKind.t -> bool.
Variable parseItem : bool -> Parse SyntaxNode.
Variable closeKind : TokenKind.t.
Variable separatorKind : TokenKind.t.
Variable c : DiagCode.t.

Local Abbreviation sepBody := (separatorBody IsExpected IsEnd parseItem separatorKind c).
Local Abbreviation sepLoop := (separatorLoop IsExpected IsEnd parseItem separatorKind c).
Local Abbreviation outerLoop := (itemLoop IsExpected IsEnd parseItem separatorKind c).

(** Where a token stops the skip with [Abort]. *)
Lemma abort_stops_at_end p :
  skippable IsExpected IsEnd (kind (currentToken p)) = false ->
  IsExpected (kind (currentToken p)) = false ->
  IsEnd (kind (currentToken p)) = true
  \/ kind (currentToken p) = TokenKind.EndOfFile.
Proof.
  unfold skippable. intros Hstop Hexp. rewrite Hexp in Hstop. cbn in Hstop.
  apply negb_false_iff, orb_true_iff in Hstop as [H|H]; [right|left; exact H].
  now apply TokenKind.eqb_eq.
Qed.

(** One pass of the inner loop: a break happens in front of an end token or
    at the end of the file, and a further round keeps the buffer shaped. *)
Lemma separatorBody_shape buffer s p r p' :
  buffer <> [] ->
  separatedList separatorKind buffer = true ->
  sepBody buffer s p = Some (r, p') ->
  match r with
  | Break (buffer', _) =>
      buffer' = buffer
      /\ (IsEnd (kind (currentToken p')) = true
          \/ kind (currentToken p') = TokenKind.EndOfFile)
  | Next (buffer', _) =>
      buffer' <> [] /\ separatedList separatorKind buffer' = true
  end.
Proof.
  intros Hne Hshape. unfold separatorBody. unfold bind at 1. unfold peek at 1.
  destruct (IsEnd (kind (currentToken p))) eqn:Hend.
  { intros [= <- <-]. auto. }
  destruct (IsExpected (kind (currentToken p))) eqn:Hexp.
  - unfold bind at 1.
    destruct (expect separatorKind p) as [[sep p1]|] eqn:Hsep; [|discriminate].
    cbn [prependTrivia]. unfold bind.
    destruct (parseItem false p1) as [[item p2]|]; [|discriminate].
    cbn. intros [= <- <-]. split.
    + destruct buffer; [congruence|discriminate].
    + apply separatedList_snoc; auto.
      change (kind (fst (prependTrivia sep s)) = separatorKind).
      rewrite prependTrivia_kind. exact (expect_kind _ _ _ _ Hsep).
  - destruct (skipBadTokens_run IsExpected IsEnd c p)
      as (consumed & p2 & Hrun & _ & _ & Hstop & _).
    unfold bind. rewrite Hrun.
    destruct (IsExpected (kind (currentToken p2))) eqn:Hexp2;
      intros [= <- <-]; [auto|].
    split; [reflexivity|]. now apply abort_stops_at_end.
Qed.

Lemma separatorLoop_shape fuel :
  forall buffer s p buffer' s' p',
    buffer <> [] ->
    separatedList separatorKind buffer = true ->
    sepLoop fuel buffer s p = Some ((buffer', s'), p') ->
    separatedList separatorKind buffer' = true
    /\ (IsEnd (kind (currentToken p')) = true
        \/ kind (currentToken p') = TokenKind.EndOfFile).
Proof.
  induction fuel as [|fuel IH]; intros buffer s p buffer' s' p' Hne Hshape;
    [discriminate|].
  cbn [separatorLoop]. unfold bind at 1.
  destruct (sepBody buffer s p) as [[r p1]|] eqn:Hbody; [|discriminate].
  pose proof (separatorBody_shape _ _ _ _ _ Hne Hshape Hbody) as Hstep.
  destruct r as [[b1 s1]|[b1 s1]].
  - intros [= <- <- <-]. destruct Hstep as [-> Hstop]. auto.
  - intros Hrun. destruct Hstep as [Hne1 Hshape1].
    exact (IH _ _ _ _ _ _ Hne1 Hshape1 Hrun).
Qed.

Lemma itemLoop_shape fuel :
  forall s p buffer' s' p',
    outerLoop fuel (currentToken p) [] s p = Some ((buffer', s'), p') ->
    separatedList separatorKind buffer' = true
    /\ (IsEnd (kind (currentToken p')) = true
        \/ kind (currentToken p') = TokenKind.EndOfFile).
Proof.
  induction fuel as [|fuel IH]; intros s p buffer' s' p'; [discriminate|].
  cbn [itemLoop]. unfold bind at 1. unfold itemBody.
  destruct (IsExpected (kind (currentToken p))) eqn:Hexp.
  - unfold bind at 1.
    destruct (parseItem true p) as [[item p1]|]; [|discriminate].
    cbn [prependTriviaNode app]. unfold bind at 1.
    match goal with
    | |- context [separatorLoop _ _ _ _ _ ?f ?b ?t ?q] =>
        destruct (separatorLoop IsExpected IsEnd parseItem separatorKind c f b t q)
          as [[[b1 s1] p2]|] eqn:Hloop
    end; [|discriminate].
    cbn. intros [= <- <- <-].
    eapply separatorLoop_shape; [| |exact Hloop]; [discriminate|reflexivity].
  - destruct (skipBadTokens_run IsExpected IsEnd c p)
      as (consumed & p2 & Hrun & _ & _ & Hstop & _).
    unfold bind at 1. rewrite Hrun.
    destruct (IsExpected (kind (currentToken p2))) eqn:Hexp2.
    + unfold bind, peek. cbn [ret]. apply IH.
    + cbn. intros [= <- <- <-]. split; [reflexivity|].
      now apply abort_stops_at_end.
Qed.

End ListRecogniserShape.

(** X3: what [parseSeparatedList] returns is well formed whatever the input
    and the item parser: the open token has the open kind, the close token the
    close kind, and the element list is empty or is a node followed by pairs of
    a token of the separator kind and a node. *)
Theorem parseSeparatedList_shape
        (IsExpected IsEnd : TokenKind.t -> bool)
        (parseItem : bool -> Parse SyntaxNode)
        (closeKind separatorKind : TokenKind.t) (c : DiagCode.t)
        (fuel : nat) (openKind : TokenKind.t) (p : ParserBase)
        (openToken : Token) (list : list TokenOrSyntax) (closeToken : Token)
        (p' : ParserBase) :
  parseSeparatedList IsExpected IsEnd parseItem closeKind separatorKind c
                     fuel openKind p
  = Some ((openToken, list, closeToken), p') ->
  kind openToken = openKind
  /\ kind closeToken = closeKind
  /\ separatedList separatorKind list = true.
Proof.
  unfold parseSeparatedList. unfold bind at 1.
  destruct (expect openKind p) as [[o p0]|] eqn:Hopen; [|discriminate].
  unfold bind.
  destruct (parseSeparatedListBuffer IsExpected IsEnd parseItem closeKind
              separatorKind c fuel [] p0) as [[[l cl] p2]|] eqn:Hbuf;
    [|discriminate].
  cbn. intros [= <- <- <- <-].
  split; [exact (expect_kind _ _ _ _ Hopen)|].
  apply parseSeparatedListBuffer_close in Hbuf.
  destruct Hbuf as (residual & token & p1 & Hbody & _ & Hclose & ->).
  split; [rewrite prependTrivia_kind; exact (expect_kind _ _ _ _ Hclose)|].
  destruct Hbody as [(_ & _ & -> & _)|(_ & Hloop)]; [reflexivity|].
  exact (proj1 (itemLoop_shape _ _ _ _ _ _ _ _ _ _ _ Hloop)).
Qed.

(** ["(a, %, b)"] *)
Lemma parseSeparatedList_shape_witness :
  exists openToken list closeToken p',
    parseNameList 10 (startOn source_bad_token)
    = Some ((openToken, list, closeToken), p')
    /\ kind openToken = TokenKind.OpenParenthesis
    /\ kind closeToken = TokenKind.CloseParenthesis
    /\ separatedList TokenKind.Comma list = true.
Proof.
  destruct (parseNameList 10 (startOn source_bad_token))
    as [[[[openToken list] closeToken] p']|] eqn:Hrun; [|discriminate].
  exists openToken, list, closeToken, p'. split; [reflexivity|].
  exact (parseSeparatedList_shape _ _ _ _ _ _ _ _ _ _ _ _ _ Hrun).
Defined.

Section ListRecogniserStops.

Variable IsExpected : TokenKind.t -> bool.
Variable IsEnd : TokenKind.t -> bool.
Variable parseItem : bool -> Parse SyntaxNode.
Variable closeKind : TokenKind.t.
Variable separatorKind : TokenKind.t.
Variable c : DiagCode.t.

Local Abbreviation sepBody := (separatorBody IsExpected IsEnd parseItem separatorKind c).
Local Abbreviation sepLoop := (separatorLoop IsExpected IsEnd parseItem separatorKind c).
Local Abbreviation outerLoop := (itemLoop IsExpected IsEnd parseItem separatorKind c).

Lemma separatorBody_stops buffer s p out p' :
  sepBody buffer s p = Some (Break out, p') ->
  IsEnd (kind (currentToken p')) = true
  \/ kind (currentToken p') = TokenKind.EndOfFile.
Proof.
  unfold separatorBody. unfold bind at 1. unfold peek at 1.
  destruct (IsEnd (kind (currentToken p))) eqn:Hend.
  { intros [= <- <-]. auto. }
  destruct (IsExpected (kind (currentToken p))) eqn:Hexp.
  - unfold bind at 1.
    destruct (expect separatorKind p) as [[sep p1]|]; [|discriminate].
    cbn [prependTrivia]. unfold bind.
    destruct (parseItem false p1) as [[item p2]|]; discriminate.
  - destruct (skipBadTokens_run IsExpected IsEnd c p)
      as (consumed & p2 & Hrun & _ & _ & Hstop & _).
    unfold bind. rewrite Hrun.
    destruct (IsExpected (kind (currentToken p2))) eqn:Hexp2;
      intros [= <- <-].
    now apply (abort_stops_at_end IsExpected IsEnd).
Qed.

Lemma separatorLoop_stops fuel :
  forall buffer s p out p',
    sepLoop fuel buffer s p = Some (out, p') ->
    IsEnd (kind (currentToken p')) = true
    \/ kind (currentToken p') = TokenKind.EndOfFile.
Proof.
  induction fuel as [|fuel IH]; intros buffer s p out p'; [discriminate|].
  cbn [separatorLoop]. unfold bind at 1.
  destruct (sepBody buffer s p) as [[r p1]|] eqn:Hbody; [|discriminate].
  destruct r as [out1|[b1 s1]].
  - intros [= <- <-]. exact (separatorBody_stops _ _ _ _ _ Hbody).
  - apply IH.
Qed.

Lemma itemLoop_stops fuel :
  forall buffer s p out p',
    outerLoop fuel (currentToken p) buffer s p = Some (out, p') ->
    IsEnd (kind (currentToken p')) = true
    \/ kind (currentToken p') = TokenKind.EndOfFile.
Proof.
  induction fuel as [|fuel IH]; intros buffer s p out p'; [discriminate|].
  cbn [itemLoop]. unfold bind at 1. unfold itemBody.
  destruct (IsExpected (kind (currentToken p))) eqn:Hexp.
  - unfold bind at 1.
    destruct (parseItem true p) as [[item p1]|]; [|discriminate].
    cbn [prependTriviaNode]. unfold bind at 1.
    match goal with
    | |- context [separatorLoop _ _ _ _ _ ?f ?b ?t ?q] =>
        destruct (separatorLoop IsExpected IsEnd parseItem separatorKind c f b t q)
          as [[[b1 s1] p2]|] eqn:Hloop
    end; [|discriminate].
    cbn. intros [= <- <-]. exact (separatorLoop_stops _ _ _ _ _ _ Hloop).
  - destruct (skipBadTokens_run IsExpected IsEnd c p)
      as (consumed & p2 & Hrun & _ & _ & Hstop & _).
    unfold bind at 1. rewrite Hrun.
    destruct (IsExpected (kind (currentToken p2))) eqn:Hexp2.
    + unfold bind, peek. cbn [ret]. apply IH.
    + cbn. intros [= <- <-]. now apply (abort_stops_at_end IsExpected IsEnd).
Qed.

End ListRecogniserStops.

(** X4: the list body stops only in front of an end token or at the end of
    the file: that is where [parseSeparatedList] looks for the close token. *)
Theorem parseSeparatedList_stops_at_end
        (IsExpected IsEnd : TokenKind.t -> bool)
        (parseItem : bool -> Parse SyntaxNode)
        (closeKind separatorKind : TokenKind.t) (c : DiagCode.t)
        (fuel : nat) (buffer : list TokenOrSyntax) (p : ParserBase)
        (buffer' : list TokenOrSyntax) (closeToken : Token) (p' : ParserBase) :
  parseSeparatedListBuffer IsExpected IsEnd parseItem closeKind separatorKind c
                           fuel buffer p
  = Some ((buffer', closeToken), p') ->
  exists residual token p1,
    expect closeKind p1 = Some (token, p')
    /\ closeToken = fst (prependTrivia token residual)
    /\ (IsEnd (kind (currentToken p1)) = true
        \/ kind (currentToken p1) = TokenKind.EndOfFile).
Proof.
  intros Hbuf. apply parseSeparatedListBuffer_close in Hbuf.
  destruct Hbuf as (residual & token & p1 & Hbody & _ & Hclose & ->).
  exists residual, token, p1. split; [exact Hclose|]. split; [reflexivity|].
  destruct Hbody as [(Hend & _ & _ & ->)|(_ & Hloop)]; [now left|].
  exact (itemLoop_stops _ _ _ _ _ _ _ _ _ _ _ Hloop).
Qed.

(** ["% %)"] after the open token. *)
Lemma parseSeparatedList_stops_at_end_witness :
  let p := startOn (tl source_only_bad) in
  exists buffer' closeToken p' residual token p1,
    parseSeparatedListBuffer isIdentifierOrComma isEndOfParenList parseName
      TokenKind.CloseParenthesis TokenKind.Comma (DiagCode.Other 7) 10 [] p
    = Some ((buffer', closeToken), p')
    /\ expect TokenKind.CloseParenthesis p1 = Some (token, p')
    /\ closeToken = fst (prependTrivia token residual)
    /\ (isEndOfParenList (kind (currentToken p1)) = true
        \/ kind (currentToken p1) = TokenKind.EndOfFile).
Proof.
  cbn zeta.
  destruct (parseSeparatedListBuffer isIdentifierOrComma isEndOfParenList parseName
              TokenKind.CloseParenthesis TokenKind.Comma (DiagCode.Other 7) 10 []
              (startOn (tl source_only_bad)))
    as [[[buffer' closeToken] p']|] eqn:Hrun; [|discriminate].
  destruct (parseSeparatedList_stops_at_end _ _ _ _ _ _ _ _ _ _ _ _ Hrun)
    as (residual & token & p1 & H).
  exists buffer', closeToken, p', residual, token, p1.
  split; [reflexivity|exact H].
Defined.

(* ------------------------------------------------------------------ *)
(** ** parseSeparatedList returns, given an item parser that makes progress *)

Lemma expect_forward k p t p' :
  expect k p = Some (t, p') ->
  exists consumed,
    window p = consumed ++ window p'
    /\ (kind (currentToken p) = k -> window p <> [] -> consumed <> [])
    /\ (kind (currentToken p) <> k -> window p' = window p).
Proof.
  intros Hrun. destruct (expect_run k p) as (t0 & p0 & Hrun0 & Hcase).
  rewrite Hrun in Hrun0. injection Hrun0 as <- <-.
  destruct Hcase as [(Hk & -> & ->)|(Hk & -> & ->)]; cbn [window].
  - destruct (window p) as [|t rest] eqn:Hw.
    + exists []. repeat split; auto; intros; congruence.
    + exists [t]. repeat split; auto; intros; congruence.
  - exists []. repeat split; auto; intros; congruence.
Qed.

Section ListRecogniserReturns.

Variable IsExpected : TokenKind.t -> bool.
Variable IsEnd : TokenKind.t -> bool.
Variable parseItem : bool -> Parse SyntaxNode.
Variable closeKind : TokenKind.t.
Variable separatorKind : TokenKind.t.
Variable c : DiagCode.t.

Hypothesis item_total : itemParserTotal parseItem.
Hypothesis item_forward : itemParserForward parseItem.
Hypothesis item_progress :
  itemParserProgress IsExpected IsEnd separatorKind parseItem.
Hypothesis end_of_file_ends :
  IsExpected TokenKind.EndOfFile = true -> IsEnd TokenKind.EndOfFile = true.

Local Abbreviation sepBody := (separatorBody IsExpected IsEnd parseItem separatorKind c).
Local Abbreviation sepLoop := (separatorLoop IsExpected IsEnd parseItem separatorKind c).
Local Abbreviation outerLoop := (itemLoop IsExpected IsEnd parseItem separatorKind c).

Lemma separatorLoop_returns fuel :
  forall buffer s p,
    List.length (window p) < fuel ->
    exists out p' consumed,
      sepLoop fuel buffer s p = Some (out, p')
      /\ window p = consumed ++ window p'.
Proof.
  induction fuel as [|fuel IH]; intros buffer s p Hlen; [lia|].
  cbn [separatorLoop]. unfold bind at 1.
  destruct (separatorBody_total IsExpected IsEnd parseItem separatorKind c
              item_total buffer s p) as (r & p1 & Hbody).
  rewrite Hbody.
  pose proof Hbody as Hcases. apply separatorBody_cases in Hcases.
  destruct Hcases
    as [(Hend & -> & ->)|[(Hend & Hexp & sep & p0 & item & Hsep & Hitem & ->)
                         |(Hend & Hexp & consumed & Hwin & _ & _ & Hcase)]].
  - exists (buffer, s), p, []. auto.
  - destruct (expect_forward _ _ _ _ Hsep) as (c1 & Hw1 & Hmatch & Hmiss).
    destruct (item_forward _ _ _ _ Hitem) as (c2 & Hw2).
    assert (Hshort : List.length (window p1) < List.length (window p)).
    { destruct (TokenKind.eq_dec (kind (currentToken p)) separatorKind) as [Heq|Hne].
      - specialize (Hmatch Heq
                      (window_nonempty_when_item IsExpected IsEnd end_of_file_ends
                         p Hexp Hend)).
        rewrite Hw1, Hw2, !length_app. destruct c1; [congruence|cbn; lia].
      - specialize (Hmiss Hne).
        assert (Hcur : currentToken p0 = currentToken p)
          by (unfold currentToken; now rewrite Hmiss).
        rewrite <- Hmiss. apply (item_progress p0 item); rewrite ?Hcur; auto. }
    destruct (IH (buffer ++ [TokenElem (fst (prependTrivia sep s)); NodeElem item])
                 TriviaDefault p1) as (out & p' & c3 & Hrun & Hw3); [lia|].
    exists out, p', (c1 ++ c2 ++ c3). split; [exact Hrun|].
    rewrite Hw1, Hw2, Hw3. now rewrite !app_assoc.
  - destruct Hcase as [(-> & _)|(-> & _ & Hne)].
    + exists (buffer, skippedTrivia consumed), p1, consumed. auto.
    + destruct (IH buffer (skippedTrivia consumed) p1) as (out & p' & c3 & Hrun & Hw3).
      { rewrite Hwin, length_app in Hlen.
        destruct consumed; [congruence|cbn in Hlen; lia]. }
      exists out, p', (consumed ++ c3). split; [exact Hrun|].
      rewrite Hwin, Hw3. now rewrite app_assoc.
Qed.

Lemma itemLoop_returns fuel :
  forall buffer s p,
    List.length (window p) + 1 < fuel ->
    exists out p' consumed,
      outerLoop fuel (currentToken p) buffer s p = Some (out, p')
      /\ window p = consumed ++ window p'.
Proof.
  induction fuel as [|fuel IH]; intros buffer s p Hlen; [lia|].
  cbn [itemLoop]. unfold bind at 1. unfold itemBody.
  destruct (IsExpected (kind (currentToken p))) eqn:Hexp.
  - unfold bind at 1.
    destruct (parseItem true p) as [[item p1]|] eqn:Hitem;
      [|exfalso; exact (item_total _ _ Hitem)].
    destruct (item_forward _ _ _ _ Hitem) as (c1 & Hw1).
    cbn [prependTriviaNode]. unfold bind at 1.
    match goal with
    | |- context [separatorLoop _ _ _ _ _ fuel ?b ?t p1] =>
        destruct (separatorLoop_returns fuel b t p1)
          as ([b' s'] & p' & c2 & Hrun & Hw2)
    end.
    { rewrite Hw1, length_app in Hlen. lia. }
    rewrite Hrun. cbn.
    eexists _, p', (c1 ++ c2). split; [reflexivity|].
    rewrite Hw1, Hw2. now rewrite app_assoc.
  - destruct (skipBadTokens_run IsExpected IsEnd c p)
      as (consumed & p1 & Hrun & Hwin & _ & _ & _).
    unfold bind at 1. rewrite Hrun.
    destruct (IsExpected (kind (currentToken p1))) eqn:Hexp1.
    + unfold bind, peek. cbn [ret].
      destruct (IH buffer (skippedTrivia consumed) p1)
        as (out & p' & c3 & Hloop & Hw3).
      { rewrite Hwin, length_app in Hlen. destruct consumed as [|t ts]; [|cbn in Hlen; lia].
        cbn in Hwin. unfold currentToken in Hexp, Hexp1.
        rewrite Hwin in Hexp. congruence. }
      exists out, p', (consumed ++ c3). rewrite Hloop. split; [reflexivity|].
      rewrite Hwin, Hw3. now rewrite app_assoc.
    + cbn. eexists _, p1, consumed. split; [reflexivity|exact Hwin].
Qed.

End ListRecogniserReturns.

(** X5: [parseSeparatedList] returns, and only moves forward, whenever the
    item parser returns, only moves forward and consumes a token when handed
    one that begins an item and is not the separator (and the end of the file
    ends the list if it can begin an item).  One pass per token of the window,
    plus two, is budget enough, text and trivia playing no part. *)
Theorem parseSeparatedList_returns
        (IsExpected IsEnd : TokenKind.t -> bool)
        (parseItem : bool -> Parse SyntaxNode)
        (closeKind separatorKind : TokenKind.t) (c : DiagCode.t)
        (fuel : nat) (openKind : TokenKind.t) (p : ParserBase) :
  itemParserTotal parseItem ->
  itemParserForward parseItem ->
  itemParserProgress IsExpected IsEnd separatorKind parseItem ->
  (IsExpected TokenKind.EndOfFile = true -> IsEnd TokenKind.EndOfFile = true) ->
  List.length (window p) + 2 <= fuel ->
  exists result p' consumed,
    parseSeparatedList IsExpected IsEnd parseItem closeKind separatorKind c
                       fuel openKind p
    = Some (result, p')
    /\ window p = consumed ++ window p'.
Proof.
  intros Htotal Hforward Hprogress Heof Hfuel.
  unfold parseSeparatedList. unfold bind at 1.
  destruct (expect_run openKind p) as (openToken & p0 & Hopen & _).
  rewrite Hopen.
  destruct (expect_forward _ _ _ _ Hopen) as (c0 & Hw0 & _).
  unfold parseSeparatedListBuffer, bind, peek.
  assert (Hbody : exists out p1 c1,
             (if negb (IsEnd (kind (currentToken p0)))
              then itemLoop IsExpected IsEnd parseItem separatorKind c
                            fuel (currentToken p0) [] TriviaDefault
              else ret ([], TriviaDefault)) p0 = Some (out, p1)
             /\ window p0 = c1 ++ window p1).
  { destruct (IsEnd (kind (currentToken p0))); cbn [negb].
    - exists ([], TriviaDefault), p0, []. auto.
    - apply itemLoop_returns; auto.
      rewrite Hw0, length_app in Hfuel. lia. }
  destruct Hbody as ([b1 s1] & p1 & c1 & Hrun & Hw1).
  rewrite Hrun.
  destruct (expect_run closeKind p1) as (closeToken & p2 & Hclose & _).
  rewrite Hclose. cbn [ret].
  destruct (expect_forward _ _ _ _ Hclose) as (c2 & Hw2 & _).
  eexists _, p2, (c0 ++ c1 ++ c2). split; [reflexivity|].
  rewrite Hw0, Hw1, Hw2. now rewrite !app_assoc.
Qed.

Lemma parseName_forward : itemParserForward parseName.
Proof.
  intros first p item p'. unfold parseName, bind.
  destruct (expect TokenKind.Identifier p) as [[t p1]|] eqn:Hrun; [|discriminate].
  intros [= <- <-].
  destruct (expect_forward _ _ _ _ Hrun) as (consumed & Hw & _). eauto.
Qed.

(** ["(a b)"] *)
Lemma parseSeparatedList_returns_witness :
  exists result p' consumed,
    parseNameList 7 (startOn source_a_b) = Some (result, p')
    /\ window (startOn source_a_b) = consumed ++ window p'.
Proof.
  apply (parseSeparatedList_returns
           isIdentifierOrComma isEndOfParenList parseName
           TokenKind.CloseParenthesis TokenKind.Comma (DiagCode.Other 7)
           7 TokenKind.OpenParenthesis (startOn source_a_b)
           parseName_total parseName_forward parseName_progress).
  - discriminate.
  - cbn. lia.
Defined.

(* ------------------------------------------------------------------ *)
(** ** What the loops do not guard against *)

Section ListRecogniserSpins.

Variable IsExpected : TokenKind.t -> bool.
Variable IsEnd : TokenKind.t -> bool.
Variable parseItem : bool -> Parse SyntaxNode.
Variable separatorKind : TokenKind.t.
Variable c : DiagCode.t.
Variable p : ParserBase.

Hypothesis begins_item : IsExpected (kind (currentToken p)) = true.
Hypothesis not_end : IsEnd (kind (currentToken p)) = false.
Hypothesis not_separator : kind (currentToken p) <> separatorKind.
Hypothesis item_stays :
  forall first q,
    window q = window p ->
    exists item q', parseItem first q = Some (item, q') /\ window q' = window p.

Lemma separatorLoop_spins fuel :
  forall buffer s q,
    window q = window p ->
    separatorLoop IsExpected IsEnd parseItem separatorKind c fuel buffer s q = None.
Proof.
  induction fuel as [|fuel IH]; intros buffer s q Hq; [reflexivity|].
  assert (Hcur : currentToken q = currentToken p)
    by (unfold currentToken; now rewrite Hq).
  cbn [separatorLoop]. unfold bind at 1. unfold separatorBody.
  unfold bind at 1. unfold peek at 1.
  rewrite Hcur, not_end, begins_item. unfold bind at 1.
  destruct (expect_run separatorKind q) as (sep & q1 & Hsep & Hcase).
  rewrite Hsep.
  assert (Hq1 : window q1 = window p).
  { destruct Hcase as [(Hk & _)|(_ & _ & ->)]; [congruence|exact Hq]. }
  cbn [prependTrivia]. unfold bind at 1.
  destruct (item_stays false q1 Hq1) as (item & q2 & -> & Hq2).
  cbn. apply IH. exact Hq2.
Qed.

Lemma itemLoop_spins fuel buffer s :
  itemLoop IsExpected IsEnd parseItem separatorKind c
           fuel (currentToken p) buffer s p = None.
Proof.
  destruct fuel as [|fuel]; [reflexivity|].
  cbn [itemLoop]. unfold bind at 1. unfold itemBody.
  rewrite begins_item. unfold bind at 1.
  destruct (item_stays true p eq_refl) as (item & q1 & -> & Hq1).
  cbn [prependTriviaNode]. unfold bind at 1.
  now rewrite separatorLoop_spins.
Qed.

End ListRecogniserSpins.

(** X6: the loops have no guard against an item parser that consumes
    nothing.  In front of a token that begins an item, does not end the list
    and is not the separator, with an item parser that returns and leaves the
    window as it is, [parseSeparatedList] never returns: every budget is used
    up. *)
Theorem parseSeparatedList_needs_progress
        (IsExpected IsEnd : TokenKind.t -> bool)
        (parseItem : bool -> Parse SyntaxNode)
        (closeKind separatorKind : TokenKind.t) (c : DiagCode.t)
        (p : ParserBase) :
  IsExpected (kind (currentToken p)) = true ->
  IsEnd (kind (currentToken p)) = false ->
  kind (currentToken p) <> separatorKind ->
  (forall first q,
      window q = window p ->
      exists item q', parseItem first q = Some (item, q') /\ window q' = window p) ->
  forall fuel buffer,
    parseSeparatedListBuffer IsExpected IsEnd parseItem closeKind separatorKind c
                             fuel buffer p
    = None.
Proof.
  intros Hexp Hend Hsep Hstays fuel buffer.
  unfold parseSeparatedListBuffer. unfold bind at 1. unfold peek at 1.
  rewrite Hend. cbn [negb]. unfold bind at 1.
  now rewrite (itemLoop_spins IsExpected IsEnd parseItem separatorKind c p
                 Hexp Hend Hsep Hstays).
Qed.

(** ["a b)"] with an item parser that consumes nothing. *)
Lemma parseSeparatedList_needs_progress_witness :
  parseSeparatedListBuffer isIdentifierOrComma isEndOfParenList parseNothing
    TokenKind.CloseParenthesis TokenKind.Comma (DiagCode.Other 7)
    1000 [] (startOn (tl source_a_b))
  = None.
Proof.
  refine (parseSeparatedList_needs_progress
            isIdentifierOrComma isEndOfParenList parseNothing
            TokenKind.CloseParenthesis TokenKind.Comma (DiagCode.Other 7)
            (startOn (tl source_a_b)) _ _ _ _ 1000 []).
  - reflexivity.
  - reflexivity.
  - discriminate.
  - intros first q Hq. exists (mkNode 0 []), q. split; [reflexivity|exact Hq].
Defined.

(** X7: a separator is recognised only if [IsExpected] accepts its kind.
    When it does not (and the separator does not end the list), a separator in
    front of the inner loop is treated as a bad token: [skipBadTokens] raises
    the list's diagnostic at it and consumes it into the skipped run, and the
    buffer receives no separator. *)
Theorem separator_must_be_expected
        (IsExpected IsEnd : TokenKind.t -> bool)
        (parseItem : bool -> Parse SyntaxNode)
        (separatorKind : TokenKind.t) (c : DiagCode.t)
        (buffer : list TokenOrSyntax) (s : Trivia) (p : ParserBase) :
  IsExpected separatorKind = false ->
  IsEnd separatorKind = false ->
  separatorKind <> TokenKind.EndOfFile ->
  kind (currentToken p) = separatorKind ->
  exists r p' more,
    separatorBody IsExpected IsEnd parseItem separatorKind c buffer s p
    = Some (r, p')
    /\ (r = Break (buffer, TriviaSkipped (currentToken p :: more))
        \/ r = Next (buffer, TriviaSkipped (currentToken p :: more)))
    /\ window p = currentToken p :: more ++ window p'
    /\ diagnostics p' = diagnostics p ++ [mkDiagnostic c (location (currentToken p)) []].
Proof.
  intros Hexp Hend Heof Hk.
  unfold separatorBody. unfold bind at 1. unfold peek at 1.
  rewrite Hk, Hend, Hexp.
  destruct (skipBadTokens_run IsExpected IsEnd c p)
    as (consumed & p' & Hrun & Hwin & _ & Hstop & Hdiag & _).
  unfold bind. rewrite Hrun. rewrite Hk, Hexp in Hdiag.
  assert (Hskip : skippable IsExpected IsEnd (kind (currentToken p)) = true).
  { unfold skippable. rewrite Hk, Hexp, Hend.
    apply TokenKind.eqb_neq in Heof. now rewrite Heof. }
  destruct consumed as [|t more].
  { exfalso. cbn in Hwin. rewrite !currentToken_hd in *. rewrite Hwin in Hskip.
    congruence. }
  assert (Ht : currentToken p = t).
  { rewrite currentToken_hd, Hwin. reflexivity. }
  rewrite Ht. exists (if IsExpected (kind (currentToken p'))
                      then Next (buffer, TriviaSkipped (t :: more))
                      else Break (buffer, TriviaSkipped (t :: more))), p', more.
  split; [destruct (IsExpected (kind (currentToken p'))); reflexivity|].
  split; [destruct (IsExpected (kind (currentToken p'))); auto|].
  split; [exact Hwin|]. rewrite <- Ht. exact Hdiag.
Qed.

(** [", b)"] after the first item, when only identifiers are expected. *)
Lemma separator_must_be_expected_witness :
  let p := startOn (tl (tl source_a_comma_b)) in
  exists r p' more,
    separatorBody isIdentifier isEndOfParenList parseName TokenKind.Comma
                  (DiagCode.Other 7) [] TriviaDefault p
    = Some (r, p')
    /\ (r = Break ([], TriviaSkipped (currentToken p :: more))
        \/ r = Next ([], TriviaSkipped (currentToken p :: more)))
    /\ window p = currentToken p :: more ++ window p'
    /\ diagnostics p' = diagnostics p
                        ++ [mkDiagnostic (DiagCode.Other 7) (location (currentToken p)) []].
Proof.
  apply (separator_must_be_expected isIdentifier isEndOfParenList parseName
           TokenKind.Comma (DiagCode.Other 7) [] TriviaDefault
           (startOn (tl (tl source_a_comma_b))));
    try reflexivity; discriminate.
Defined.

(* ------------------------------------------------------------------ *)
(** ** The well-formed list *)

Section WellFormedList.

Variable IsExpected : TokenKind.t -> bool.
Variable IsEnd : TokenKind.t -> bool.
Variable parseItem : bool -> Parse SyntaxNode.
Variable closeKind : TokenKind.t.
Variable separatorKind : TokenKind.t.
Variable c : DiagCode.t.
Variable nodeOf : list Token -> SyntaxNode.

Lemma separatorLoop_wellformed :
  forall more fuel buffer p e rest,
    window p = flat_map (fun sg => fst sg :: snd sg) more ++ e :: rest ->
    IsEnd (kind e) = true ->
    Forall (separatorAndItem IsExpected IsEnd separatorKind parseItem nodeOf) more ->
    List.length more < fuel ->
    exists p',
      separatorLoop IsExpected IsEnd parseItem separatorKind c
                    fuel buffer TriviaDefault p
      = Some ((buffer
               ++ flat_map (fun sg => [TokenElem (fst sg); NodeElem (nodeOf (snd sg))])
                           more,
               TriviaDefault), p')
      /\ window p' = e :: rest
      /\ diagnostics p' = diagnostics p.
Proof.
  induction more as [|[s0 g] more IH]; intros fuel buffer p e rest Hw He Hmore Hfuel;
    (destruct fuel as [|fuel]; [cbn in Hfuel; lia|]);
    cbn [separatorLoop]; unfold bind at 1; unfold separatorBody;
    unfold bind at 1; unfold peek at 1.
  - cbn [flat_map app] in Hw. rewrite (currentToken_cons _ _ _ Hw), He.
    cbn. rewrite app_nil_r. exists p. auto.
  - pose proof (Forall_inv Hmore) as (Hk & Hexp & Hend & Hgroup).
    pose proof (Forall_inv_tail Hmore) as Hrest.
    cbn [fst snd] in Hk, Hexp, Hend, Hgroup.
    cbn [flat_map fst snd] in Hw. rewrite <- !app_assoc in Hw. cbn [app] in Hw.
    rewrite (currentToken_cons _ _ _ Hw), Hend, Hexp.
    unfold bind at 1. rewrite (expect_consumes _ _ _ _ Hw Hk).
    cbn [prependTrivia triviaPresent triviaKind]. cbn [TriviaKind.eq_dec].
    unfold bind at 1.
    destruct (Hgroup false
                (mkParser (g ++ flat_map (fun sg => fst sg :: snd sg) more ++ e :: rest)
                          (Some s0) (diagnostics p))
                (flat_map (fun sg => fst sg :: snd sg) more ++ e :: rest) eq_refl)
      as (p2 & Hitem & Hw2 & Hd2).
    cbn in Hitem. rewrite Hitem. cbn.
    destruct (IH fuel (buffer ++ [TokenElem s0; NodeElem (nodeOf g)]) p2 e rest
                Hw2 He Hrest) as (p' & Hrun & Hw' & Hd'); [cbn in Hfuel; lia|].
    exists p'. rewrite Hrun, <- app_assoc. cbn [app].
    split; [reflexivity|]. split; [exact Hw'|]. now rewrite Hd', Hd2.
Qed.

Lemma parseSeparatedListBuffer_wellformed fuel p t ts more e rest :
  window p = (t :: ts) ++ flat_map (fun sg => fst sg :: snd sg) more ++ e :: rest ->
  IsExpected (kind t) = true ->
  IsEnd (kind t) = false ->
  parsesGroup parseItem nodeOf (t :: ts) ->
  Forall (separatorAndItem IsExpected IsEnd separatorKind parseItem nodeOf) more ->
  IsEnd (kind e) = true ->
  kind e = closeKind ->
  List.length more + 2 <= fuel ->
  exists p',
    parseSeparatedListBuffer IsExpected IsEnd parseItem closeKind separatorKind c
                             fuel [] p
    = Some ((separatedElements nodeOf (t :: ts) more, e), p')
    /\ window p' = rest
    /\ diagnostics p' = diagnostics p.
Proof.
  intros Hw Hexp Hend Hfirst Hmore He Hclose Hfuel.
  assert (Hcur : currentToken p = t) by exact (currentToken_cons _ _ _ Hw).
  destruct (Hfirst true p _ Hw) as (p1 & Hitem & Hw1 & Hd1).
  destruct fuel as [|fuel]; [lia|].
  destruct (separatorLoop_wellformed more fuel [NodeElem (nodeOf (t :: ts))] p1 e rest
              Hw1 He Hmore) as (p2 & Hrun & Hw2 & Hd2); [lia|].
  unfold parseSeparatedListBuffer. unfold bind at 1. unfold peek at 1.
  rewrite Hcur, Hend. cbn [negb]. unfold bind at 1.
  cbn [itemLoop]. unfold bind at 1. unfold itemBody.
  rewrite Hexp. unfold bind at 1. rewrite Hitem.
  rewrite prependTriviaNode_default. cbn [app].
  unfold bind at 1. rewrite Hrun. cbn [ret].
  unfold bind. rewrite (expect_consumes _ _ _ _ Hw2 Hclose).
  eexists. split; [reflexivity|]. cbn. split; [reflexivity|].
  now rewrite Hd2, Hd1.
Qed.

End WellFormedList.

(** X8: on a well-formed list the recogniser is exact and silent.  When the
    window holds the open token, the tokens of a first item, then separators
    each followed by the tokens of an item, then the close token, and the item
    parser turns each group of tokens into its node, [parseSeparatedList]
    returns the open token, the nodes with the separators between them and the
    close token, leaves the window just after the close token and raises no
    diagnostic.  The separator kind has to be accepted by [IsExpected]. *)
Theorem parseSeparatedList_wellformed
        (IsExpected IsEnd : TokenKind.t -> bool)
        (parseItem : bool -> Parse SyntaxNode)
        (closeKind separatorKind : TokenKind.t) (c : DiagCode.t)
        (nodeOf : list Token -> SyntaxNode)
        (fuel : nat) (openKind : TokenKind.t) (p : ParserBase)
        (o : Token) (first : list Token) (more : list (Token * list Token))
        (e : Token) (rest : list Token) :
  window p = o :: separatedTokens first more ++ e :: rest ->
  kind o = openKind ->
  beginsItem IsExpected IsEnd first ->
  parsesGroup parseItem nodeOf first ->
  Forall (separatorAndItem IsExpected IsEnd separatorKind parseItem nodeOf) more ->
  IsEnd (kind e) = true ->
  kind e = closeKind ->
  List.length more + 2 <= fuel ->
  exists p',
    parseSeparatedList IsExpected IsEnd parseItem closeKind separatorKind c
                       fuel openKind p
    = Some ((o, separatedElements nodeOf first more, e), p')
    /\ window p' = rest
    /\ diagnostics p' = diagnostics p.
Proof.
  intros Hw Ho (t & ts & -> & Hexp & Hend) Hfirst Hmore He Hclose Hfuel.
  unfold parseSeparatedList. unfold bind at 1.
  rewrite (expect_consumes _ _ _ _ Hw Ho).
  destruct (parseSeparatedListBuffer_wellformed IsExpected IsEnd parseItem closeKind
              separatorKind c nodeOf fuel
              (mkParser (separatedTokens (t :: ts) more ++ e :: rest) (Some o)
                        (diagnostics p))
              t ts more e rest)
    as (p' & Hrun & Hw' & Hd'); auto.
  { unfold separatedTokens. cbn [window]. now rewrite <- app_assoc. }
  unfold bind. rewrite Hrun. cbn [ret].
  exists p'. auto.
Qed.

Lemma parseName_parses_name t :
  kind t = TokenKind.Identifier -> parsesGroup parseName nameNode [t].
Proof.
  intros Hk first p rest Hw. unfold parseName, bind.
  rewrite (expect_consumes _ _ _ _ Hw Hk). eexists. split; [reflexivity|]. auto.
Qed.

(** ["(a, b);"] *)
Lemma parseSeparatedList_wellformed_witness :
  let a := lexeme TokenKind.Identifier 1 "" "a" in
  let comma := lexeme TokenKind.Comma 2 "" "," in
  let b := lexeme TokenKind.Identifier 4 " " "b" in
  exists p',
    parseNameList 3 (startOn source_a_comma_b)
    = Some ((lexeme TokenKind.OpenParenthesis 0 "" "(",
             [NodeElem (nameNode [a]); TokenElem comma; NodeElem (nameNode [b])],
             lexeme TokenKind.CloseParenthesis 5 "" ")"), p')
    /\ window p' = [lexeme TokenKind.Semicolon 6 "" ";";
                    lexeme TokenKind.EndOfFile 7 "" ""]
    /\ diagnostics p' = [].
Proof.
  cbn zeta.
  apply (parseSeparatedList_wellformed
           isIdentifierOrComma isEndOfParenList parseName
           TokenKind.CloseParenthesis TokenKind.Comma (DiagCode.Other 7)
           nameNode 3 TokenKind.OpenParenthesis (startOn source_a_comma_b)
           (lexeme TokenKind.OpenParenthesis 0 "" "(")
           [lexeme TokenKind.Identifier 1 "" "a"]
           [(lexeme TokenKind.Comma 2 "" ",", [lexeme TokenKind.Identifier 4 " " "b"])]
           (lexeme TokenKind.CloseParenthesis 5 "" ")")
           [lexeme TokenKind.Semicolon 6 "" ";"; lexeme TokenKind.EndOfFile 7 "" ""]).
  - reflexivity.
  - reflexivity.
  - eexists _, _. split; [reflexivity|]. split; reflexivity.
  - now apply parseName_parses_name.
  - constructor; [|constructor].
    split; [reflexivity|]. split; [reflexivity|]. split; [reflexivity|].
    now apply parseName_parses_name.
  - reflexivity.
  - reflexivity.
  - cbn. lia.
Defined.

(* ------------------------------------------------------------------ *)
(** ** Bad tokens in front of the first item *)

(** X9: a list body that holds only bad tokens.  When the window holds a
    non-empty run of tokens that are neither expected nor end tokens nor the
    end of the file, followed by the close token, the buffer is left as it
    was, the whole run is attached to the close token as one [SkippedTokens]
    trivium, and exactly one diagnostic is raised, at the first bad token. *)
Theorem parseSeparatedList_only_bad_tokens
        (IsExpected IsEnd : TokenKind.t -> bool)
        (parseItem : bool -> Parse SyntaxNode)
        (closeKind separatorKind : TokenKind.t) (c : DiagCode.t)
        (fuel : nat) (buffer : list TokenOrSyntax) (p : ParserBase)
        (bad : list Token) (e : Token) (rest : list Token) :
  window p = bad ++ e :: rest ->
  bad <> [] ->
  Forall (fun t => skippable IsExpected IsEnd (kind t) = true) bad ->
  IsEnd (kind e) = true ->
  IsExpected (kind e) = false ->
  kind e = closeKind ->
  1 <= fuel ->
  parseSeparatedListBuffer IsExpected IsEnd parseItem closeKind separatorKind c
                           fuel buffer p
  = Some ((buffer, withTrivia e (TriviaSkipped bad :: trivia e)),
          mkParser rest (Some e)
                   (diagnostics p ++ [mkDiagnostic c (location (currentToken p)) []])).
Proof.
  intros Hw Hne Hbad He Hexp Hclose Hfuel.
  destruct bad as [|b0 bs]; [congruence|].
  assert (Hcur : currentToken p = b0) by exact (currentToken_cons _ _ _ Hw).
  assert (Hb0 : skippable IsExpected IsEnd (kind b0) = true) by now inversion Hbad.
  unfold skippable in Hb0. apply andb_true_iff in Hb0 as [Hb1 Hb2].
  apply negb_true_iff in Hb1, Hb2. apply orb_false_iff in Hb2 as [_ Hb2].
  destruct fuel as [|fuel]; [lia|].
  unfold parseSeparatedListBuffer. unfold bind at 1. unfold peek at 1.
  rewrite Hcur, Hb2. cbn [negb]. unfold bind at 1.
  cbn [itemLoop]. unfold bind at 1. unfold itemBody. rewrite Hb1.
  unfold bind at 1.
  rewrite (skipBadTokens_exact IsExpected IsEnd c p (b0 :: bs) (e :: rest) Hw Hbad).
  2:{ unfold skippable. cbn [hd]. now rewrite Hexp, He, orb_true_r. }
  cbn [hd]. rewrite Hexp, Hcur, Hb1. cbn [skippedTrivia ret].
  unfold bind.
  erewrite expect_consumes; [|reflexivity|exact Hclose].
  reflexivity.
Qed.

(** ["% %)"] after the open token. *)
Lemma parseSeparatedList_only_bad_tokens_witness :
  let p := startOn (tl source_only_bad) in
  let bad := [lexeme TokenKind.Percent 1 "" "%"; lexeme TokenKind.Percent 3 " " "%"] in
  let close := lexeme TokenKind.CloseParenthesis 4 "" ")" in
  parseSeparatedListBuffer isIdentifierOrComma isEndOfParenList parseName
    TokenKind.CloseParenthesis TokenKind.Comma (DiagCode.Other 7) 1 [] p
  = Some (([], withTrivia close (TriviaSkipped bad :: trivia close)),
          mkParser [lexeme TokenKind.EndOfFile 5 "" ""] (Some close)
                   (diagnostics p
                    ++ [mkDiagnostic (DiagCode.Other 7) (location (currentToken p)) []])).
Proof.
  cbn zeta.
  apply (parseSeparatedList_only_bad_tokens
           isIdentifierOrComma isEndOfParenList parseName
           TokenKind.CloseParenthesis TokenKind.Comma (DiagCode.Other 7)
           1 [] (startOn (tl source_only_bad))
           [lexeme TokenKind.Percent 1 "" "%"; lexeme TokenKind.Percent 3 " " "%"]
           (lexeme TokenKind.CloseParenthesis 4 "" ")")
           [lexeme TokenKind.EndOfFile 5 "" ""]).
  - reflexivity.
  - discriminate.
  - repeat constructor.
  - reflexivity.
  - reflexivity.
  - reflexivity.
  - lia.
Defined.

(** X10: the end test is made once, before the outer loop.  A token that both
    ends the list and begins an item gives an empty list when it comes first,
    but after a run of bad tokens the same token is handed to the item parser:
    whatever the list then returns begins with the node parsed there, carrying
    the skipped run. *)
Theorem parseSeparatedList_end_test_once
        (IsExpected IsEnd : TokenKind.t -> bool)
        (parseItem : bool -> Parse SyntaxNode)
        (closeKind separatorKind : TokenKind.t) (c : DiagCode.t)
        (fuel : nat) (p : ParserBase)
        (bad : list Token) (e : Token) (rest : list Token)
        (buffer' : list TokenOrSyntax) (closeToken : Token) (p' : ParserBase) :
  window p = bad ++ e :: rest ->
  bad <> [] ->
  Forall (fun t => skippable IsExpected IsEnd (kind t) = true) bad ->
  IsEnd (kind e) = true ->
  IsExpected (kind e) = true ->
  parseSeparatedListBuffer IsExpected IsEnd parseItem closeKind separatorKind c
                           fuel [] p
  = Some ((buffer', closeToken), p') ->
  exists item after more,
    parseItem true
      (mkParser (e :: rest) (lastOf bad (lastConsumed p))
                (diagnostics p ++ [mkDiagnostic c (location (currentToken p)) []]))
    = Some (item, after)
    /\ buffer' = NodeElem (fst (prependTriviaNode item (TriviaSkipped bad))) :: more.
Proof.
  intros Hw Hne Hbad He Hexp.
  destruct bad as [|b0 bs]; [congruence|].
  assert (Hcur : currentToken p = b0) by exact (currentToken_cons _ _ _ Hw).
  assert (Hb0 : skippable IsExpected IsEnd (kind b0) = true) by now inversion Hbad.
  unfold skippable in Hb0. apply andb_true_iff in Hb0 as [Hb1 Hb2].
  apply negb_true_iff in Hb1, Hb2. apply orb_false_iff in Hb2 as [_ Hb2].
  unfold parseSeparatedListBuffer. unfold bind at 1. unfold peek at 1.
  rewrite Hcur, Hb2. cbn [negb]. unfold bind at 1.
  destruct fuel as [|fuel]; [discriminate|].
  cbn [itemLoop]. unfold bind at 1. unfold itemBody at 1. rewrite Hb1.
  unfold bind at 1.
  rewrite (skipBadTokens_exact IsExpected IsEnd c p (b0 :: bs) (e :: rest) Hw Hbad).
  2:{ unfold skippable. cbn [hd]. now rewrite Hexp. }
  cbn [hd]. rewrite Hexp, Hcur, Hb1. cbn [skippedTrivia].
  unfold bind at 1. unfold peek at 1. cbn [ret].
  set (p1 := mkParser (e :: rest) _ _).
  assert (Hcur1 : currentToken p1 = e) by reflexivity. rewrite Hcur1.
  destruct fuel as [|fuel]; [discriminate|].
  cbn [itemLoop]. unfold bind at 1. unfold itemBody. rewrite Hexp.
  unfold bind at 1.
  destruct (parseItem true p1) as [[item after]|] eqn:Hitem; [|discriminate].
  destruct (prependTriviaNode item (TriviaSkipped (b0 :: bs))) as [item' s1] eqn:Hnode.
  unfold bind at 1.
  match goal with
  | |- context [separatorLoop _ _ _ _ _ fuel ?b ?t after] =>
      destruct (separatorLoop IsExpected IsEnd parseItem separatorKind c fuel b t after)
        as [[[b1 s2] p2]|] eqn:Hloop
  end; [|discriminate].
  cbn [ret]. unfold bind.
  destruct (expect closeKind p2) as [[token p3]|]; [|discriminate].
  cbn [ret]. intros [= <- _ _].
  assert (Hs1 : s1 = TriviaDefault).
  { change s1 with (snd (item', s1)). rewrite <- Hnode. reflexivity. }
  subst s1.
  destruct (separatorLoop_keeps IsExpected IsEnd parseItem separatorKind c
              fuel _ _ _ _ _ _ (or_introl eq_refl) Hloop) as (_ & more & ->).
  exists item, after, more. split; [reflexivity|].
  change item' with (fst (item', TriviaDefault)). rewrite <- Hnode. reflexivity.
Qed.

(** ["% %)"] when the close parenthesis may also begin an item. *)
Lemma parseSeparatedList_end_test_once_witness :
  let p := startOn (tl source_only_bad) in
  let bad := [lexeme TokenKind.Percent 1 "" "%"; lexeme TokenKind.Percent 3 " " "%"] in
  exists buffer' closeToken p' item after more,
    parseSeparatedListBuffer isCloseOrIdentifier isEndOfParenList parseName
      TokenKind.CloseParenthesis TokenKind.Comma (DiagCode.Other 7) 5 [] p
    = Some ((buffer', closeToken), p')
    /\ parseName true
         (mkParser (tl (tl (tl source_only_bad))) (lastOf bad (lastConsumed p))
                   (diagnostics p
                    ++ [mkDiagnostic (DiagCode.Other 7) (location (currentToken p)) []]))
       = Some (item, after)
    /\ buffer' = NodeElem (fst (prependTriviaNode item (TriviaSkipped bad))) :: more.
Proof.
  cbn zeta.
  destruct (parseSeparatedListBuffer isCloseOrIdentifier isEndOfParenList parseName
              TokenKind.CloseParenthesis TokenKind.Comma (DiagCode.Other 7) 5 []
              (startOn (tl source_only_bad)))
    as [[[buffer' closeToken] p']|] eqn:Hrun; [|discriminate].
  destruct (parseSeparatedList_end_test_once
              isCloseOrIdentifier isEndOfParenList parseName
              TokenKind.CloseParenthesis TokenKind.Comma (DiagCode.Other 7)
              5 (startOn (tl source_only_bad))
              [lexeme TokenKind.Percent 1 "" "%"; lexeme TokenKind.Percent 3 " " "%"]
              (lexeme TokenKind.CloseParenthesis 4 "" ")")
              [lexeme TokenKind.EndOfFile 5 "" ""]
              buffer' closeToken p')
    as (item & after & more & Hitem & Hbuf);
    [reflexivity|discriminate|repeat constructor|reflexivity|reflexivity|exact Hrun|].
  exists buffer', closeToken, p', item, after, more.
  split; [reflexivity|]. split; [exact Hitem|exact Hbuf].
Defined.

(* ------------------------------------------------------------------ *)
(** ** Prepending to a list of nodes *)

(** X11: the list overload of [prependTrivia] never loses the trivium.  On an
    empty list it calls nothing and the trivium stays pending; on a list whose
    first node holds a token the trivium goes in front of that node, the other
    nodes are untouched and the slot is cleared.  Either way the pending
    trivium followed by the nodes writes the same text before and after. *)
Theorem prependTriviaList_keeps_trivium
        (nodes : list SyntaxNode) (tr : Trivia) (b : bool) :
  singleSlot tr ->
  (forall first rest, nodes = first :: rest -> hasToken first = true) ->
  let result := prependTriviaList nodes tr in
  triviaText b (snd result) ++ flat_map (nodeText b) (fst result)
  = triviaText b tr ++ flat_map (nodeText b) nodes
  /\ tl (fst result) = tl nodes
  /\ List.length (fst result) = List.length nodes
  /\ (nodes = [] -> result = ([], tr))
  /\ (nodes <> [] -> snd result = TriviaDefault).
Proof.
  intros Hs Hfirst. cbn zeta. unfold prependTriviaList.
  destruct nodes as [|first rest]; [repeat split; auto; congruence|].
  specialize (Hfirst first rest eq_refl).
  destruct (singleSlot_present _ Hs) as [->|Hp].
  - cbn. repeat split; auto; discriminate.
  - rewrite Hp.
    pose proof (prependTriviaNode_text_any b first tr Hs Hfirst) as Htext.
    destruct (prependTriviaNode first tr) as [first' tr'] eqn:Hnode.
    assert (Htr : tr' = TriviaDefault).
    { change tr' with (snd (first', tr')). rewrite <- Hnode. reflexivity. }
    subst tr'. cbn [fst snd tl List.length flat_map triviaText app] in *.
    rewrite Htext, <- app_assoc. repeat split; auto; discriminate.
Qed.

(** A skipped [%] in front of two name nodes. *)
Lemma prependTriviaList_keeps_trivium_witness :
  let percent := lexeme TokenKind.Percent 4 " " "%" in
  let a := mkNode 1 [TokenElem (lexeme TokenKind.Identifier 5 "" "a")] in
  let b := mkNode 1 [TokenElem (lexeme TokenKind.Identifier 7 " " "b")] in
  let result := prependTriviaList [a; b] (TriviaSkipped [percent]) in
  triviaText true (snd result) ++ flat_map (nodeText true) (fst result)
  = textOf " %a b"
  /\ snd result = TriviaDefault.
Proof.
  cbn zeta.
  destruct (prependTriviaList_keeps_trivium
              [mkNode 1 [TokenElem (lexeme TokenKind.Identifier 5 "" "a")];
               mkNode 1 [TokenElem (lexeme TokenKind.Identifier 7 " " "b")]]
              (TriviaSkipped [lexeme TokenKind.Percent 4 " " "%"]) true)
    as (Htext & _ & _ & _ & Hclear).
  - right. eexists. split; [|reflexivity]. discriminate.
  - intros first rest [= <- _]. reflexivity.
  - split; [rewrite Htext; reflexivity|apply Hclear; discriminate].
Defined.

(* ------------------------------------------------------------------ *)
(** ** The discriminators of the hierarchy symbols *)

(** X12: the [isKind] tests of the header tell the classes apart exactly.
    Whatever name, location and procedure kind the constructors are given, the
    symbol a class constructs passes the [isKind] of that class and fails the
    [isKind] of every other class. *)
Theorem isKind_tells_classes_apart
        (name : string) (loc : SourceLocation) (pk : ProceduralBlockKind.t)
        (i j : nat) (k : SymbolKind.t) (test : SymbolKind.t -> bool) :
  nth_error (constructedKinds name loc pk) i = Some k ->
  nth_error isKindTests j = Some test ->
  (test k = true <-> i = j).
Proof.
  intros Hk Htest.
  do 10 (try destruct i as [|i]); cbn in Hk; try discriminate;
    injection Hk as <-;
    do 10 (try destruct j as [|j]); cbn in Htest; try discriminate;
    injection Htest as <-;
    (split; [intros H; try reflexivity; discriminate H
            |intros H; try reflexivity; discriminate H]).
Qed.

(** The sequential block against its own test and against the test of the
    procedural block. *)
Lemma isKind_tells_classes_apart_witness :
  (SequentialBlockSymbol.isKind
     (symbolKind (SequentialBlockSymbol.base
                    (SequentialBlockSymbol.make (Statement := unit) 5))) = true
   <-> 4 = 4)
  /\ (ProceduralBlockSymbol.isKind
        (symbolKind (SequentialBlockSymbol.base
                       (SequentialBlockSymbol.make (Statement := unit) 5))) = true
      <-> 4 = 5).
Proof.
  split.
  - apply (isKind_tells_classes_apart "m"%string 5 ProceduralBlockKind.Always 4 4);
      reflexivity.
  - apply (isKind_tells_classes_apart "m"%string 5 ProceduralBlockKind.Always 4 5);
      reflexivity.
Defined.

(* ------------------------------------------------------------------ *)
(** ** The unterminated list *)

(** X13: a list body cut short by the end of the input.  When only bad tokens
    (possibly none) stand between the parser and the end of the file, be it
    the end-of-file token of the source or an exhausted window, and the end of
    the file neither begins an item nor ends the list, the body consumes the
    bad tokens and stops in front of the end of the file, which it does not
    consume; the buffer is untouched; the close token is the missing token
    [createExpectedToken] builds there, with the skipped run prepended; and
    two diagnostics are raised, the list's own at the first token of the body
    and the "expected close token" at the end of the file. *)
Theorem parseSeparatedList_unterminated
        (IsExpected IsEnd : TokenKind.t -> bool)
        (parseItem : bool -> Parse SyntaxNode)
        (closeKind separatorKind : TokenKind.t) (c : DiagCode.t)
        (fuel : nat) (buffer : list TokenOrSyntax) (p : ParserBase)
        (bad rest : list Token) :
  window p = bad ++ rest ->
  Forall (fun t => skippable IsExpected IsEnd (kind t) = true) bad ->
  kind (hd endOfFileToken rest) = TokenKind.EndOfFile ->
  IsExpected TokenKind.EndOfFile = false ->
  IsEnd TokenKind.EndOfFile = false ->
  closeKind <> TokenKind.EndOfFile ->
  1 <= fuel ->
  let endOfFile := hd endOfFileToken rest in
  let stopped :=
    mkParser rest (lastOf bad (lastConsumed p))
             (diagnostics p ++ [mkDiagnostic c (location (currentToken p)) []]) in
  exists missing p',
    createExpectedToken endOfFile closeKind stopped = Some (missing, p')
    /\ parseSeparatedListBuffer IsExpected IsEnd parseItem closeKind separatorKind c
                                fuel buffer p
       = Some ((buffer, fst (prependTrivia missing (skippedTrivia bad))), p')
    /\ kind missing = closeKind
    /\ isMissing missing = true
    /\ window p' = rest
    /\ diagnostics p'
       = diagnostics p
         ++ [mkDiagnostic c (location (currentToken p)) [];
             mkDiagnostic DiagCode.ExpectedToken (location endOfFile) [closeKind]].
Proof.
  intros Hw Hbad Hrest Hexp Hend Hclose Hfuel. cbn zeta.
  assert (Hstop : skippable IsExpected IsEnd (kind (hd endOfFileToken rest)) = false).
  { rewrite Hrest. apply skippable_endOfFile. }
  assert (Hcur : IsExpected (kind (currentToken p)) = false
                 /\ IsEnd (kind (currentToken p)) = false).
  { rewrite currentToken_hd, Hw. destruct bad as [|t ts]; cbn [app hd].
    - rewrite Hrest. auto.
    - inversion Hbad as [|? ? Ht _]. unfold skippable in Ht.
      apply andb_true_iff in Ht as [H1 H2].
      apply negb_true_iff in H1, H2. apply orb_false_iff in H2 as [_ H2]. auto. }
  destruct Hcur as [Hcur1 Hcur2].
  eexists _, _. split; [reflexivity|].
  split; [|cbn; rewrite <- app_assoc; auto].
  destruct fuel as [|fuel]; [lia|].
  unfold parseSeparatedListBuffer. unfold bind at 1. unfold peek at 1.
  rewrite Hcur2. cbn [negb]. unfold bind at 1.
  cbn [itemLoop]. unfold bind at 1. unfold itemBody. rewrite Hcur1.
  unfold bind at 1.
  rewrite (skipBadTokens_exact IsExpected IsEnd c p bad rest Hw Hbad Hstop).
  rewrite Hrest, Hexp, Hcur1. cbn [ret].
  unfold bind, expect, peek, bind.
  rewrite currentToken_hd. cbn [window]. rewrite Hrest.
  rewrite (proj2 (TokenKind.eqb_neq TokenKind.EndOfFile closeKind)) by congruence.
  reflexivity.
Qed.

(** ["% %"] and the end of the file. *)
Lemma parseSeparatedList_unterminated_witness :
  let percent1 := lexeme TokenKind.Percent 1 "" "%" in
  let percent2 := lexeme TokenKind.Percent 3 " " "%" in
  let endOfFile := lexeme TokenKind.EndOfFile 5 " " "" in
  exists missing p',
    parseSeparatedListBuffer isIdentifierOrComma isEndOfParenList parseName
      TokenKind.CloseParenthesis TokenKind.Comma (DiagCode.Other 7) 1 []
      (startOn source_unterminated)
    = Some (([], fst (prependTrivia missing (TriviaSkipped [percent1; percent2]))),
            p')
    /\ kind missing = TokenKind.CloseParenthesis
    /\ isMissing missing = true
    /\ window p' = [endOfFile]
    /\ diagnostics p'
       = [mkDiagnostic (DiagCode.Other 7) 1 [];
          mkDiagnostic DiagCode.ExpectedToken 5 [TokenKind.CloseParenthesis]].
Proof.
  cbn zeta.
  destruct (parseSeparatedList_unterminated
              isIdentifierOrComma isEndOfParenList parseName
              TokenKind.CloseParenthesis TokenKind.Comma (DiagCode.Other 7) 1 []
              (startOn source_unterminated)
              [lexeme TokenKind.Percent 1 "" "%"; lexeme TokenKind.Percent 3 " " "%"]
              [lexeme TokenKind.EndOfFile 5 " " ""])
    as (missing & p' & _ & Hrun & Hkind & Hmissing & Hwindow & Hdiag).
  - reflexivity.
  - repeat constructor.
  - reflexivity.
  - reflexivity.
  - reflexivity.
  - discriminate.
  - lia.
  - exists missing, p'. auto.
Defined.
